(** * abideify: chunking, ordered dispatch and reassembly

    A shallow embedding of the pipeline of [src/abideify]:
    - [ai_processor.py]: [AIProcessor.split_text_into_chunks],
      [AIProcessor.process_chunk_with_ai], [AIProcessor._validate_markdown];
    - [unreal_cli.py]: [chunk_text];
    - [converter.py]: [PDFConverter.format_final_markdown];
    - [tts_service.py]: [UnrealSpeechTTSService.synthesize_text];
    - [cli.py]: [main_async] (text stage and TTS loop).

    Python [str] values are lists of Unicode code points, Python [int]
    values are [Z], the file system is a finite map from paths to file
    contents, and everything the program obtains from outside (the remote
    services, the clock, ffmpeg, the markdown parser) is an explicit
    argument. *)

From Stdlib Require Import ZArith NArith List Lia Bool String Ascii Permutation.
From Stdlib Require QArith.
From stdpp Require Import base option gmap strings.
Import ListNotations.

Local Open Scope Z_scope.

(** ** Python strings *)

Module PyStr.

(** A character is a Unicode code point; a [str] is a sequence of them. *)
Definition char : Type := N.
Definition str : Type := list char.

(** Reading a literal: every byte of the literal is one code point. *)
Definition py (s : string) : str :=
  List.map N_of_ascii (list_ascii_of_string s).

(** [len(s)] *)
Definition len (s : str) : Z := Z.of_nat (length s).

(** Truth value of a string: [if s:] holds when [s] is not empty. *)
Definition truthy (s : str) : bool :=
  match s with [] => false | _ :: _ => true end.

Definition SPACE : char := 32%N.
Definition NEWLINE : char := 10%N.

(** [str.isspace] on one character: the code points CPython's
    [_PyUnicode_IsWhitespace] accepts. *)
Definition isspace (c : char) : bool :=
  ((9 <=? c) && (c <=? 13) || (28 <=? c) && (c <=? 32)
   || (c =? 133) || (c =? 160) || (c =? 5760)
   || (8192 <=? c) && (c <=? 8202)
   || (c =? 8232) || (c =? 8233) || (c =? 8239) || (c =? 8287)
   || (c =? 12288))%N.

(** [s.lstrip()], [s.rstrip()], [s.strip()] with no argument. *)
Fixpoint lstrip (s : str) : str :=
  match s with
  | [] => []
  | c :: tl => if isspace c then lstrip tl else s
  end.

Definition rstrip (s : str) : str := rev (lstrip (rev s)).

Definition strip (s : str) : str := rstrip (lstrip s).

(** The characters of [s] that are not whitespace. *)
Definition nonspace (s : str) : str :=
  List.filter (fun c => negb (isspace c)) s.

(** A word: not empty, and free of whitespace. *)
Definition is_word (w : str) : Prop :=
  w <> [] /\ Forall (fun c => isspace c = false) w.

(** [sep.join(parts)] *)
Fixpoint join (sep : str) (parts : list str) : str :=
  match parts with
  | [] => []
  | [x] => x
  | x :: tl => x ++ sep ++ join sep tl
  end.

(** [s.split()] with no argument: the maximal runs of non-whitespace
    characters, in order; no empty string is ever produced.
    [words_from s] scans [s] from the left and returns the word that
    starts at the head of [s] (empty when [s] starts with whitespace)
    together with the words after it. *)
Definition push_word (w : str) (ws : list str) : list str :=
  match w with [] => ws | _ :: _ => w :: ws end.

Fixpoint words_from (s : str) : str * list str :=
  match s with
  | [] => ([], [])
  | c :: tl =>
      let (w, ws) := words_from tl in
      if isspace c then ([], push_word w ws) else (c :: w, ws)
  end.

Definition split (s : str) : list str :=
  let (w, ws) := words_from s in push_word w ws.

(** The characters of the class [[.!?]]. *)
Definition is_sentence_end (c : char) : bool :=
  ((c =? 46) || (c =? 33) || (c =? 63))%N.

(** [re.split(r'(?<=[.!?]) +', text)].

    A separator is a maximal run of one or more U+0020 characters that
    directly follows one of [.!?]; the scan is leftmost-first and
    greedy, so a separator swallows every space of its run.  The result
    is the list of pieces between separators; it always has at least one
    element, and a separator at the very end leaves a last empty piece.

    [pieces st text] returns the pieces of [text], the first one being
    the remainder of the piece under construction.  [st] records what
    the scanner has just seen:
    - [InSeparator]: we are inside a separator (more spaces extend it);
    - [InPiece after_end]: we are inside a piece, and [after_end] tells
      whether the previous character is one of [.!?] (the look-behind). *)
Inductive scan_state := InSeparator | InPiece (after_end : bool).

Definition cons_head (c : char) (ps : list str) : list str :=
  match ps with
  | [] => [[c]]
  | p :: tl => (c :: p) :: tl
  end.

Fixpoint pieces (st : scan_state) (text : str) : list str :=
  match text with
  | [] => [[]]
  | c :: tl =>
      match st with
      | InSeparator =>
          if (c =? SPACE)%N then pieces InSeparator tl
          else cons_head c (pieces (InPiece (is_sentence_end c)) tl)
      | InPiece after_end =>
          if after_end && (c =? SPACE)%N then [] :: pieces InSeparator tl
          else cons_head c (pieces (InPiece (is_sentence_end c)) tl)
      end
  end.

Definition re_split_sentences (text : str) : list str :=
  pieces (InPiece false) text.

(** [re.sub(r'\n{3,}', '\n\n', text)]: every maximal run of three or
    more newlines is replaced by exactly two; shorter runs and all other
    characters are copied.  [run] is the length of the newline run that
    ends just before the text still to be scanned. *)
Definition emit_newlines (run : nat) : str :=
  repeat NEWLINE (Nat.min run 2).

Fixpoint collapse_newlines (run : nat) (text : str) : str :=
  match text with
  | [] => emit_newlines run
  | c :: tl =>
      if (c =? NEWLINE)%N then collapse_newlines (S run) tl
      else emit_newlines run ++ c :: collapse_newlines 0 tl
  end.

End PyStr.

Import PyStr.

(** ** The two chunkers *)

Module Chunker.

(** [AIProcessor.split_text_into_chunks] (ai_processor.py).  The loop
    state is the pair [(chunks, current_chunk)]. *)
Definition flush (chunks : list str) (current_chunk : str) : list str :=
  if truthy current_chunk then chunks ++ [strip current_chunk] else chunks.

Definition sentence_step (max_chunk_size : Z)
    (st : list str * str) (sentence : str) : list str * str :=
  let (chunks, current_chunk) := st in
  if len current_chunk + len sentence + 1 <=? max_chunk_size
  then (chunks, current_chunk ++ sentence ++ [SPACE])
  else (flush chunks current_chunk, sentence ++ [SPACE]).

Definition split_text_into_chunks (max_chunk_size : Z) (text : str)
    : list str :=
  let sentences := re_split_sentences text in
  let (chunks, current_chunk) :=
    fold_left (sentence_step max_chunk_size) sentences ([], []) in
  flush chunks current_chunk.

(** [chunk_text] (unreal_cli.py).  The loop state is
    [(chunks, current_chunk, current_length)]; [current_chunk] is a list
    of words. *)
Definition word_step (chunk_size : Z)
    (st : list str * list str * Z) (w : str) : list str * list str * Z :=
  let '(chunks, current_chunk, current_length) := st in
  if current_length + len w + 1 >? chunk_size
  then (chunks ++ [join [SPACE] current_chunk], [w], len w)
  else (chunks, current_chunk ++ [w], current_length + (len w + 1)).

Definition chunk_text (text : str) (chunk_size : Z) : list str :=
  let words := split text in
  let '(chunks, current_chunk, _) :=
    fold_left (word_step chunk_size) words ([], [], 0) in
  match current_chunk with
  | [] => chunks
  | _ :: _ => chunks ++ [join [SPACE] current_chunk]
  end.

End Chunker.

Import Chunker.

(** ** Final formatting *)

Module Converter.

(** [PDFConverter.format_final_markdown] (converter.py). *)
Definition format_final_markdown (markdown_text : str) : str :=
  collapse_newlines 0 markdown_text.

(** A run of three newlines starts somewhere in [s]. *)
Definition has_triple_newline (s : str) : Prop :=
  exists before after, s = before ++ [NEWLINE; NEWLINE; NEWLINE] ++ after.

End Converter.

Import Converter.

(** ** Exceptions, the outside world, and effects *)

Module Py.

Definition bytes : Type := list N.

(** The exception classes the program can meet.  [except Exception]
    catches the classes derived from [Exception]; [SystemExit] (raised
    by [sys.exit]) and the other direct children of [BaseException]
    pass through it. *)
Inductive exn :=
| RuntimeError (msg : string)
| IndexError
| ValueError (msg : string)
| FileNotFoundError (path : string)
| OtherException (name : string)
| SystemExit (code : Z)
| OtherBaseException (name : string).

Definition is_Exception (e : exn) : bool :=
  match e with
  | SystemExit _ | OtherBaseException _ => false
  | _ => true
  end.

(** How a call ends.  [Blocked] is an [await] that is never resumed. *)
Inductive outcome (A : Type) :=
| Return (a : A)
| Raise (e : exn)
| Blocked.
Arguments Return {A} a.
Arguments Raise {A} e.
Arguments Blocked {A}.

(** One constructor per logging call of the program, with the values
    its message interpolates. *)
Inductive message :=
| ClientInitialized
| ClientInitFailed (e : exn)
| AIProcessingFailed (e : exn)
| MarkdownValidationFailed (e : exn)
| NoTextExtracted
| ProcessingChunks (n : nat)
| SimplifiedSaved (path : string)
| StartingTTS
| NoApiKeyFound
| ChunkedForTTS (n : nat)
| SynthesizingChunk (i n : nat)
| ErrorSynthesizingChunk (i : nat)
| TTSCompleted (path : string)
| ApiKeyNotSet
| SavedTTSAudio (path : string)
| RequestFailed (status_code : Z) (text : str)
| ServiceError (e : exn).

Inductive level := INFO | WARNING | ERROR.

(** The part of the world the program changes: files and the log. *)
Record world := World {
  fs : gmap string bytes;
  log : list (level * message)
}.

(** Effectful code: a function of the world that ends in an outcome. *)
Definition M (A : Type) : Type := world -> outcome A * world.

Definition ret {A} (a : A) : M A := fun w => (Return a, w).

Definition raise {A} (e : exn) : M A := fun w => (Raise e, w).

Definition bind {A B} (m : M A) (k : A -> M B) : M B :=
  fun w =>
    match m w with
    | (Return a, w') => k a w'
    | (Raise e, w') => (Raise e, w')
    | (Blocked, w') => (Blocked, w')
    end.

Definition lift {A} (o : outcome A) : M A := fun w => (o, w).

(** [try: body / except Exception as e: handler(e)] *)
Definition try_except {A} (body : M A) (handler : exn -> M A) : M A :=
  fun w =>
    match body w with
    | (Raise e, w') =>
        if is_Exception e then handler e w' else (Raise e, w')
    | r => r
    end.

Definition logger (l : level) (m : message) : M unit :=
  fun w => (Return tt, World (fs w) (log w ++ [(l, m)])).

(** Files. *)
Definition write_file (path : string) (data : bytes) : M unit :=
  fun w => (Return tt, World (<[path := data]> (fs w)) (log w)).

Definition read_file (path : string) : M bytes :=
  fun w =>
    match fs w !! path with
    | Some data => (Return data, w)
    | None => (Raise (FileNotFoundError path), w)
    end.

Definition os_path_exists (path : string) : M bool :=
  fun w => (Return (bool_decide (is_Some (fs w !! path))), w).

Definition os_remove (path : string) : M unit :=
  fun w =>
    match fs w !! path with
    | Some _ => (Return tt, World (delete path (fs w)) (log w))
    | None => (Raise (FileNotFoundError path), w)
    end.

(** [os.rename(src, dst)]: an existing [dst] is replaced. *)
Definition os_rename (src dst : string) : M unit :=
  fun w =>
    match fs w !! src with
    | Some data =>
        (Return tt, World (<[dst := data]> (delete src (fs w))) (log w))
    | None => (Raise (FileNotFoundError src), w)
    end.

(** [os.makedirs(path, exist_ok=True)]: the file system of the model
    holds files only, so there is nothing to record. *)
Definition os_makedirs (path : string) : M unit := ret tt.

(** [os.path.join(dir, name)] for a relative [name]. *)
Definition ends_with_slash (dir : string) : bool :=
  match rev (list_ascii_of_string dir) with
  | c :: _ => Ascii.eqb c "/"
  | [] => false
  end.

Definition os_path_join (dir name : string) : string :=
  if String.eqb dir "" then name
  else if ends_with_slash dir then (dir ++ name)%string
  else (dir ++ "/" ++ name)%string.

End Py.

Import Py.

Declare Scope py_scope.
Delimit Scope py_scope with py.
Notation "x <- m ;; k" := (bind m (fun x => k))
  (at level 100, m at next level, right associativity, only parsing) : py_scope.
Notation "m ;; k" := (bind m (fun _ => k))
  (at level 100, right associativity, only parsing) : py_scope.
Local Open Scope py_scope.

(** ** The rewrite transform *)

Module AI.

Section WithCollaborators.

(** [prompts.DEFAULT_PROMPT], and [markdown.markdown], which either
    returns the HTML or raises. *)
Variable DEFAULT_PROMPT : str.
Variable markdown_markdown : option str -> outcome str.

(** The argument of [chat.completions.create]. *)
Record request := Request {
  model : str;
  messages : list (str * str);
  max_tokens : Z;
  temperature : QArith_base.Q
}.

(** A [ChatCompletion]: the [message.content] of each of its choices
    ([content] is optional in the API). *)
Definition ChatCompletion : Type := list (option str).

(** What the remote service does with one request: the value the
    awaited call evaluates to, or the exception it raises. *)
Definition service : Type := request -> outcome ChatCompletion.

Inductive AsyncOpenAI := AsyncOpenAI_client.

Record AIProcessor := {
  max_chunk_size : Z;
  concurrent_requests : Z;
  client : option AsyncOpenAI;
  model_name : str
}.

(** [AIProcessor.__init__].  [asyncio.Semaphore(value)] raises
    [ValueError] for a negative value. *)
Definition AIProcessor_init (max_chunk_size concurrent_requests : Z)
    (model_name : str) : M AIProcessor :=
  if concurrent_requests <? 0
  then raise (ValueError "Semaphore initial value must be >= 0")
  else ret {| max_chunk_size := max_chunk_size;
              concurrent_requests := concurrent_requests;
              client := None;
              model_name := model_name |}.

(** Entering [async with self.semaphore] waits for a permit.  The
    semaphore starts with [concurrent_requests] permits and a holder
    gives its permit back when it leaves the block, so a waiting task
    is served once a holder's call has ended; with no permit at all the
    wait never ends. *)
Definition acquire_semaphore (self : AIProcessor) : M unit :=
  if 0 <? concurrent_requests self then ret tt else lift Blocked.

(** [AIProcessor.initialize_client]; [construct] is what [AsyncOpenAI()]
    does. *)
Definition initialize_client (construct : outcome AsyncOpenAI)
    (self : AIProcessor) : M AIProcessor :=
  try_except
    (c <- lift construct ;;
     logger INFO ClientInitialized ;;
     ret {| max_chunk_size := max_chunk_size self;
            concurrent_requests := concurrent_requests self;
            client := Some c;
            model_name := model_name self |})
    (fun e => logger ERROR (ClientInitFailed e) ;; raise e).

(** [AIProcessor._validate_markdown] *)
Definition _validate_markdown (markdown_text : option str) : M (option str) :=
  try_except
    (html <- lift (markdown_markdown markdown_text) ;; ret tt)
    (fun e => logger WARNING (MarkdownValidationFailed e)) ;;
  ret markdown_text.

(** [response.choices[0].message.content] *)
Definition first_content (response : ChatCompletion) : M (option str) :=
  match response with
  | [] => raise IndexError
  | content :: _ => ret content
  end.

(** The request [process_chunk_with_ai] sends for [chunk]. *)
Definition chat_request (self : AIProcessor) (chunk : str) : request :=
  let prompt := DEFAULT_PROMPT ++ chunk ++ [NEWLINE] in
  {| model := model_name self;
     messages := [(py "user", prompt)];
     max_tokens := 2000;
     temperature := QArith_base.Qmake 1 2 |}.

(** [AIProcessor.process_chunk_with_ai].  The coroutine suspends once,
    for the semaphore and then for the remote call; [remote] is the
    behaviour of the service for that call.  The result is
    [Some s] for a string and [None] for Python's [None]. *)
Definition process_chunk_with_ai (self : AIProcessor) (chunk : str)
    (remote : service) : M (option str) :=
  match client self with
  | None => raise (RuntimeError "OpenAI client not initialized")
  | Some _ =>
      try_except
        (acquire_semaphore self ;;
         response <- lift (remote (chat_request self chunk)) ;;
         simplified_text <- first_content response ;;
         _validate_markdown simplified_text)
        (fun e => logger ERROR (AIProcessingFailed e) ;; ret (Some []))
  end.

End WithCollaborators.

End AI.

Import AI.

(** ** [asyncio.gather] *)

Module Asyncio.

Section Gather.

Context {E A : Type}.

(** A child is a coroutine that suspends on one external call; it is
    run by giving it the behaviour [E] of the outside for that call. *)
Definition coroutine : Type := E -> M A.

(** The state of [gather]: one future per child ([None] while it is
    pending), the counter [nfinished], and the outer future. *)
Record gather_state := GatherState {
  children : list (option (outcome A));
  nfinished : nat;
  outer : option (outcome (list A))
}.

(** [fut.result()] of every child, in the order of [children]. *)
Definition child_results (children : list (option (outcome A))) : list A :=
  omap (fun fut => match fut with Some (Return a) => Some a | _ => None end)
       children.

(** [_done_callback(fut)], run when child [i] finishes with [o]:
    count it; if the outer future is already done, nothing more; an
    exception of the child becomes the exception of the outer future;
    when the last child has finished, the outer future receives the
    results of all children, collected in the order of [children]. *)
Definition done_callback (nfuts : nat) (st : gather_state) (i : nat)
    (o : outcome A) : gather_state :=
  let children' := <[i := Some o]> (children st) in
  let nfinished' := S (nfinished st) in
  match outer st with
  | Some _ => GatherState children' nfinished' (outer st)
  | None =>
      match o with
      | Raise e => GatherState children' nfinished' (Some (Raise e))
      | _ =>
          if Nat.eqb nfinished' nfuts
          then GatherState children' nfinished'
                 (Some (Return (child_results children')))
          else GatherState children' nfinished' None
      end
  end.

(** Child [i] is resumed and runs to its end.  [envs i] is what the
    outside does for the call child [i] is suspended on.  A child that
    is not pending, or whose call never completes, changes nothing in
    [gather]. *)
Definition complete (tasks : list coroutine) (envs : nat -> E)
    (sw : gather_state * world) (i : nat) : gather_state * world :=
  let (st, w) := sw in
  match (tasks !! i : option coroutine), children st !! i with
  | Some task, Some None =>
      match task (envs i) w with
      | (Blocked, w') => (st, w')
      | (o, w') => (done_callback (length tasks) st i o, w')
      end
  | _, _ => (st, w)
  end.

Definition gather_init (tasks : list coroutine) : gather_state :=
  GatherState (List.map (fun _ => None) tasks) 0
    (match tasks with [] => Some (Return []) | _ :: _ => None end).

(** [await asyncio.gather] over [tasks], when the children finish in
    the order [order]. *)
Definition gather (tasks : list coroutine) (envs : nat -> E)
    (order : list nat) : M (list A) :=
  fun w =>
    let (st, w') :=
      fold_left (complete tasks envs) order (gather_init tasks, w) in
    match outer st with
    | Some o => (o, w')
    | None => (Blocked, w')
    end.

End Gather.

End Asyncio.

Import Asyncio.

(** ** Audio segments (pydub) *)

Module Pydub.

(** An [AudioSegment] is its sequence of samples. *)
Definition AudioSegment : Type := list Z.

(** [AudioSegment.silent(duration=0)]: the segment of length zero. *)
Definition silent_0 : AudioSegment := [].

Section WithCodec.

Variable decode_wav : bytes -> AudioSegment.
Variable encode_mp3 : AudioSegment -> bytes.

(** [AudioSegment.from_wav(path)] *)
Definition from_wav (path : string) : M AudioSegment :=
  data <- read_file path ;; ret (decode_wav data).

(** [segment.export(path, format="mp3")] *)
Definition export (segment : AudioSegment) (path : string) : M unit :=
  write_file path (encode_mp3 segment).

End WithCodec.

End Pydub.

Import Pydub.

(** ** The synthesis transform (tts_service.py) *)

Module TTS.

Record Response := {
  status_code : Z;
  content : bytes;
  text : str
}.

(** What the outside does during one call of [synthesize_text]:
    - [requests_post key text voice]: the answer to the POST carrying
      the bearer key, the text and the voice id;
    - [ffmpeg mp3]: running ffmpeg on an input file with content [mp3]
      either raises (the program cannot be started), or ends having
      written the output file ([Some wav]) or not ([None]);
    - [now]: [datetime.now().strftime('%Y%m%d_%H%M%S')]. *)
Record call_env := {
  requests_post : str -> str -> str -> outcome Response;
  ffmpeg : bytes -> outcome (option bytes);
  now : string
}.

Record UnrealSpeechTTSService := {
  api_key : str;
  tts_audio_dir : string
}.

Definition temp_wav_file : string := "temp_response.wav".
Definition temp_mp3_file : string := "temp_response.mp3".

(** [subprocess.run(['ffmpeg', '-y', '-i', src, dst], ...)]; the exit
    status is not checked. *)
Definition subprocess_run_ffmpeg (ev : call_env) (src dst : string)
    : M unit :=
  fun w =>
    match fs w !! src with
    | None => (Return tt, w)
    | Some mp3 =>
        match ffmpeg ev mp3 with
        | Return (Some wav) =>
            (Return tt, World (<[dst := wav]> (fs w)) (log w))
        | Return None => (Return tt, w)
        | Raise e => (Raise e, w)
        | Blocked => (Blocked, w)
        end
    end.

(** [UnrealSpeechTTSService.synthesize_text] *)
Definition synthesize_text (self : UnrealSpeechTTSService) (ev : call_env)
    (text voice : str) (debug_mode : bool) : M (option string) :=
  if negb (truthy (api_key self)) then
    logger ERROR ApiKeyNotSet ;; ret None
  else
    try_except
      (response <- lift (requests_post ev (api_key self) text voice) ;;
       if (status_code response =? 200)%Z then
         write_file temp_mp3_file (content response) ;;
         subprocess_run_ffmpeg ev temp_mp3_file temp_wav_file ;;
         (present <- os_path_exists temp_mp3_file ;;
          if (present : bool) then os_remove temp_mp3_file else ret tt) ;;
         if debug_mode then
           os_makedirs (tts_audio_dir self) ;;
           let timestamp := now ev in
           let debug_wav_file :=
             os_path_join (tts_audio_dir self)
               ("response_" ++ timestamp ++ ".wav")%string in
           os_rename temp_wav_file debug_wav_file ;;
           logger INFO (SavedTTSAudio debug_wav_file) ;;
           ret (Some debug_wav_file)
         else
           ret (Some temp_wav_file)
       else
         logger ERROR (RequestFailed (status_code response)
                                     (TTS.text response)) ;;
         ret None)
      (fun e => logger ERROR (ServiceError e) ;; ret None).

End TTS.

Import TTS.

(** ** The command line (cli.py) *)

Module Cli.

Record Args := {
  args_max_chunk_size : Z;
  args_concurrent_requests : Z;
  args_model : str;
  args_tts : bool;
  args_api_key : option str;
  args_voice : str;
  args_tts_chunk_size : Z;
  args_tts_audio_dir : string;
  args_debug_mode : bool
}.

(** Everything [main_async] obtains from outside while it runs:
    - [construct_client]: what [AsyncOpenAI()] does;
    - [remote i]: what the rewrite service does with the call of the
      task of chunk [i] (0-based);
    - [completion_order]: the order in which those tasks finish;
    - [UNREAL_SPEECH_API_KEY]: the environment variable;
    - [tts_call i]: what happens during the synthesis of chunk [i]
      (numbered from 1, as the loop numbers them). *)
Record environment := {
  construct_client : outcome AsyncOpenAI;
  remote : nat -> service;
  completion_order : list nat;
  UNREAL_SPEECH_API_KEY : option str;
  tts_call : nat -> call_env
}.

Section WithCollaborators.

Variable DEFAULT_PROMPT : str.
Variable markdown_markdown : option str -> outcome str.
Variable encode_utf8 : str -> bytes.
Variable decode_wav : bytes -> AudioSegment.
Variable encode_mp3 : AudioSegment -> bytes.

(** [filter(None, simplified_list)]: the elements that are neither
    [None] nor the empty string. *)
Definition filter_None (l : list (option str)) : list str :=
  omap (fun x => match x with
                 | Some s => if truthy s then Some s else None
                 | None => None
                 end) l.

(** Lines 72-78 of [main_async]: split, dispatch, join, format. *)
Definition simplify (ai : AIProcessor) (env : environment) (text : str)
    : M str :=
  let chunks := split_text_into_chunks (max_chunk_size ai) text in
  logger INFO (ProcessingChunks (length chunks)) ;;
  let tasks :=
    List.map (process_chunk_with_ai DEFAULT_PROMPT markdown_markdown ai)
             chunks in
  simplified_list <- gather tasks (remote env) (completion_order env) ;;
  let simplified_content :=
    join [NEWLINE; NEWLINE] (filter_None simplified_list) in
  ret (format_final_markdown simplified_content).

(** Lines 103-114 of [main_async]: the synthesis loop.  [i] is the
    number of the chunk at the head of [text_chunks], [n] the number of
    chunks of the run. *)
Fixpoint synthesis_loop (tts_service : UnrealSpeechTTSService)
    (env : environment) (voice : str) (debug_mode : bool) (n i : nat)
    (text_chunks : list str) (final_audio : AudioSegment) : M AudioSegment :=
  match text_chunks with
  | [] => ret final_audio
  | chunk :: rest =>
      logger INFO (SynthesizingChunk i n) ;;
      chunk_wav <- synthesize_text tts_service (tts_call env i) chunk voice
                     debug_mode ;;
      match chunk_wav with
      | None =>
          logger ERROR (ErrorSynthesizingChunk i) ;;
          synthesis_loop tts_service env voice debug_mode n (S i) rest
            final_audio
      | Some path =>
          segment <- from_wav decode_wav path ;;
          let final_audio := final_audio ++ segment in
          (if negb debug_mode then os_remove path else ret tt) ;;
          synthesis_loop tts_service env voice debug_mode n (S i) rest
            final_audio
      end
  end.

(** [args.api_key or os.environ.get("UNREAL_SPEECH_API_KEY")] *)
Definition api_key_or_environ (args : Args) (env : environment)
    : option str :=
  match args_api_key args with
  | Some k => if truthy k then Some k else UNREAL_SPEECH_API_KEY env
  | None => UNREAL_SPEECH_API_KEY env
  end.

(** Lines 85-117 of [main_async]: the optional synthesis. *)
Definition synthesize (args : Args) (env : environment) (final_mp3 : string)
    (simplified_content : str) : M unit :=
  logger INFO StartingTTS ;;
  match api_key_or_environ args env with
  | Some (c :: k) =>
      let api_key := c :: k in
      let text_chunks :=
        chunk_text simplified_content (args_tts_chunk_size args) in
      logger INFO (ChunkedForTTS (length text_chunks)) ;;
      let tts_service :=
        {| api_key := api_key; tts_audio_dir := args_tts_audio_dir args |} in
      final_audio <- synthesis_loop tts_service env (args_voice args)
                       (args_debug_mode args) (length text_chunks) 1%nat
                       text_chunks silent_0 ;;
      export encode_mp3 final_audio final_mp3 ;;
      logger INFO (TTSCompleted final_mp3)
  | _ =>
      logger ERROR NoApiKeyFound ;; raise (SystemExit 1)
  end.

(** [main_async], from line 59 on: [text] is the content of the
    Markdown file to simplify, [final_md] and [final_mp3] the paths of
    the two results. *)
Definition main_async (args : Args) (env : environment)
    (final_md final_mp3 : string) (text : str) : M unit :=
  ai <- AIProcessor_init (args_max_chunk_size args)
          (args_concurrent_requests args) (args_model args) ;;
  ai <- initialize_client (construct_client env) ai ;;
  if negb (truthy (strip text)) then
    logger ERROR NoTextExtracted ;; raise (SystemExit 1)
  else
    simplified_content <- simplify ai env text ;;
    write_file final_md (encode_utf8 simplified_content) ;;
    logger INFO (SimplifiedSaved final_md) ;;
    if args_tts args then synthesize args env final_mp3 simplified_content
    else ret tt.

End WithCollaborators.

End Cli.

Import Cli.

(** ** What a unit contributes *)

Module Expected.

(** The text a unit contributes to the joined output: the non-empty
    content of the first choice of a call that succeeded. *)
Definition rewritten (r : outcome ChatCompletion) : option str :=
  match r with
  | Return (Some (c :: s) :: _) => Some (c :: s)
  | _ => None
  end.

(** The call of a unit ends: it returns, or it raises an [Exception];
    the markdown parser likewise. *)
Definition rewrite_settles (markdown_markdown : option str -> outcome str)
    (r : outcome ChatCompletion) : Prop :=
  match r with
  | Return [] => True
  | Return (content :: _) =>
      markdown_markdown content <> Blocked
      /\ forall e, markdown_markdown content = Raise e -> is_Exception e = true
  | Raise e => is_Exception e = true
  | Blocked => False
  end.

(** The WAV data of a unit whose synthesis succeeds: the service
    answers 200 and ffmpeg writes its output. *)
Definition synthesized (ev : call_env) (key text voice : str)
    : option bytes :=
  match requests_post ev key text voice with
  | Return r =>
      if status_code r =? 200 then
        match ffmpeg ev (content r) with
        | Return (Some wav) => Some wav
        | _ => None
        end
      else None
  | _ => None
  end.

(** The synthesis of a unit ends in one of the ways the stage provides
    for: success as above, or a remote error, a status other than 200,
    or an exception (of class [Exception]). *)
Definition synthesis_settles (ev : call_env) (key text voice : str) : Prop :=
  match requests_post ev key text voice with
  | Return r =>
      if status_code r =? 200 then
        match ffmpeg ev (content r) with
        | Return (Some _) => True
        | Raise e => is_Exception e = true
        | _ => False
        end
      else True
  | Raise e => is_Exception e = true
  | Blocked => False
  end.

(** The audio of unit [i], when its synthesis succeeds. *)
Definition unit_audio (decode_wav : bytes -> AudioSegment)
    (tts_service : UnrealSpeechTTSService) (env : environment) (voice : str)
    (i : nat) (chunk : str) : option AudioSegment :=
  decode_wav
    <$> synthesized (tts_call env i) (api_key tts_service) chunk voice.

(** The processor [main_async] works with once the client is there. *)
Definition initialized (args : Args) (cl : AsyncOpenAI) : AIProcessor :=
  {| max_chunk_size := args_max_chunk_size args;
     concurrent_requests := args_concurrent_requests args;
     client := Some cl;
     model_name := args_model args |}.

End Expected.

Import Expected.

(** ** Concrete runs *)

Module Sample.

Definition prompt : str := py "Text:".

Definition markdown_ok : option str -> outcome str := fun _ => Return [].
Definition markdown_fails : option str -> outcome str :=
  fun _ => Raise (OtherException "AttributeError").

Definition encode_utf8 : str -> bytes := fun s => s.
Definition decode_wav : bytes -> AudioSegment := List.map Z.of_N.
Definition encode_mp3 : AudioSegment -> bytes := List.map Z.to_N.

Definition ai_ready : AIProcessor :=
  {| max_chunk_size := 3; concurrent_requests := 5;
     client := Some AsyncOpenAI_client; model_name := py "gpt-4" |}.

Definition ai_without_client : AIProcessor :=
  {| max_chunk_size := 3; concurrent_requests := 5;
     client := None; model_name := py "gpt-4" |}.

(** Two sentences, one chunk each with [max_chunk_size = 3]. *)
Definition two_sentences : str := py "A. B.".

Definition api_error : exn := OtherException "APIError".

Definition answers (s : string) : service := fun _ => Return [Some (py s)].
Definition refuses : service := fun _ => Raise api_error.

Definition ok_call (wav : bytes) : call_env :=
  {| requests_post := fun _ _ _ =>
       Return {| status_code := 200; content := [1%N; 2%N]; text := [] |};
     ffmpeg := fun _ => Return (Some wav);
     now := "20240101_120000" |}.

Definition rejected_call : call_env :=
  {| requests_post := fun _ _ _ =>
       Return {| status_code := 500; content := []; text := py "busy" |};
     ffmpeg := fun _ => Return None;
     now := "20240101_120000" |}.

(** ffmpeg is not installed: [subprocess.run] raises. *)
Definition no_ffmpeg_call : call_env :=
  {| requests_post := fun _ _ _ =>
       Return {| status_code := 200; content := [1%N; 2%N]; text := [] |};
     ffmpeg := fun _ => Raise (FileNotFoundError "ffmpeg");
     now := "20240101_120000" |}.

(** The rewrite of unit 0 fails, unit 1 finishes first; the synthesis
    of chunk 1 is rejected, all others succeed within one second. *)
Definition env_first_fails : environment :=
  {| construct_client := Return AsyncOpenAI_client;
     remote := fun i => match i with 0%nat => refuses | _ => answers "bee" end;
     completion_order := [1%nat; 0%nat];
     UNREAL_SPEECH_API_KEY := Some (py "key");
     tts_call := fun i => match i with
                          | 1%nat => rejected_call
                          | _ => ok_call [N.of_nat i]
                          end |}.

(** The rewrite of unit 1 fails; every synthesis succeeds, all within
    one second. *)
Definition env_second_fails : environment :=
  {| construct_client := Return AsyncOpenAI_client;
     remote := fun i => match i with 1%nat => refuses | _ => answers "ay" end;
     completion_order := [1%nat; 0%nat];
     UNREAL_SPEECH_API_KEY := Some (py "key");
     tts_call := fun i => ok_call [N.of_nat i] |}.

(** Every synthesis gets its answer, but ffmpeg cannot be started. *)
Definition env_no_ffmpeg : environment :=
  {| construct_client := Return AsyncOpenAI_client;
     remote := fun _ => answers "bee";
     completion_order := [0%nat; 1%nat];
     UNREAL_SPEECH_API_KEY := Some (py "key");
     tts_call := fun _ => no_ffmpeg_call |}.

Definition tts : UnrealSpeechTTSService :=
  {| api_key := py "key"; tts_audio_dir := "tts_audio" |}.

Definition args : Args :=
  {| args_max_chunk_size := 3; args_concurrent_requests := 5;
     args_model := py "gpt-4"; args_tts := true; args_api_key := None;
     args_voice := py "Scarlett"; args_tts_chunk_size := 950;
     args_tts_audio_dir := "tts_audio"; args_debug_mode := false |}.

(** Both sizes set to zero. *)
Definition args_size_zero : Args :=
  {| args_max_chunk_size := 0; args_concurrent_requests := 5;
     args_model := py "gpt-4"; args_tts := true; args_api_key := None;
     args_voice := py "Scarlett"; args_tts_chunk_size := 0;
     args_tts_audio_dir := "tts_audio"; args_debug_mode := false |}.

Definition empty_world : world := World ∅ [].

End Sample.

(** ** File names and conversion clean-up (cli.py, converter.py) *)

Module Names.

Definition UNDERSCORE : char := 95%N.
Definition DOT : char := 46%N.
Definition EQUALS : char := 61%N.
Definition HASH : char := 35%N.

(** The class [[a-z0-9]]. *)
Definition is_lower_alnum (c : char) : bool :=
  ((97 <=? c) && (c <=? 122) || (48 <=? c) && (c <=? 57))%N.

Definition is_lower_letter (c : char) : bool := ((97 <=? c) && (c <=? 122))%N.

(** One pattern character [p] against one character [c] under
    [re.IGNORECASE]: a lower-case letter of the pattern matches every
    character whose simple lower-case mapping is that letter, which for
    the ASCII letters is the letter, its capital and, for [k], the
    Kelvin sign U+212A; any other pattern character matches itself. *)
Definition matches_ignorecase (p c : char) : bool :=
  if is_lower_letter p
  then ((c =? p) || (c =? p - 32) || (p =? 107) && (c =? 8490))%N
  else (c =? p)%N.

(** [s] starts with [pat] (ignoring case): what follows the match. *)
Fixpoint drop_prefix_ignorecase (pat s : str) : option str :=
  match pat, s with
  | [], _ => Some s
  | _ :: _, [] => None
  | p :: pat', c :: s' =>
      if matches_ignorecase p c then drop_prefix_ignorecase pat' s' else None
  end.

(** [s] ends with [pat] (ignoring case): what precedes the match. *)
Definition drop_suffix_ignorecase (pat s : str) : option str :=
  option_map (@rev char) (drop_prefix_ignorecase (rev pat) (rev s)).

(** The alternatives of [\.(pdf|md|markdown)]. *)
Definition extensions : list str := [py ".pdf"; py ".md"; py ".markdown"].

Fixpoint first_match (pats : list str) (s : str) : option str :=
  match pats with
  | [] => None
  | pat :: rest =>
      match drop_suffix_ignorecase pat s with
      | Some body => Some body
      | None => first_match rest s
      end
  end.

(** [re.sub(r'\.(pdf|md|markdown)$', '', name, flags=re.IGNORECASE)].
    Without [re.MULTILINE], [$] matches at the end of the string and
    just before a newline that is the last character, so the extension
    is looked for at the end of the name, or before its final newline
    (which then stays).  The three alternatives end in different
    letters, so at most one applies, and there is at most one match. *)
Definition remove_extension (name : str) : str :=
  match rev name with
  | c :: before =>
      if (c =? NEWLINE)%N then
        match first_match extensions (rev before) with
        | Some body => body ++ [NEWLINE]
        | None => name
        end
      else
        match first_match extensions name with
        | Some body => body
        | None => name
        end
  | [] => name
  end.

(** [re.sub(r'[^a-z0-9]+', '_', name)]: every maximal run of characters
    outside [[a-z0-9]] becomes one underscore.  [in_run] tells whether
    the previous character belonged to such a run. *)
Fixpoint underscore_runs (in_run : bool) (name : str) : str :=
  match name with
  | [] => []
  | c :: tl =>
      if is_lower_alnum c then c :: underscore_runs false tl
      else if in_run then underscore_runs true tl
      else UNDERSCORE :: underscore_runs true tl
  end.

(** [name.strip('_')] *)
Fixpoint lstrip_underscores (s : str) : str :=
  match s with
  | [] => []
  | c :: tl => if (c =? UNDERSCORE)%N then lstrip_underscores tl else s
  end.

Definition strip_underscores (s : str) : str :=
  rev (lstrip_underscores (rev (lstrip_underscores s))).

(** [sanitize_filename] (cli.py).  [str_lower] is [str.lower], the
    Unicode case mapping of the interpreter. *)
Definition sanitize_filename (str_lower : str -> str) (filename : str) : str :=
  let name := str_lower filename in
  let name := remove_extension name in
  let name := underscore_runs false name in
  strip_underscores name.

(** [str.lower] on ASCII text: the capitals [A-Z] become [a-z]. *)
Definition ascii_lower (s : str) : str :=
  List.map (fun c => if ((65 <=? c) && (c <=? 90))%N then (c + 32)%N else c) s.

(** A character [str.lower] leaves alone wherever it stands: ASCII,
    and not a capital letter. *)
Definition is_lower_ascii (c : char) : bool :=
  ((c <? 128) && negb ((65 <=? c) && (c <=? 90)))%N.

(** What [sanitize_filename] produces: characters of [[a-z0-9_]], no
    underscore at either end, no two underscores in a row. *)
Fixpoint no_double_underscore (s : str) : bool :=
  match s with
  | c :: ((d :: _) as tl) =>
      negb ((c =? UNDERSCORE) && (d =? UNDERSCORE))%N && no_double_underscore tl
  | _ => true
  end.

Definition is_name_char (c : char) : bool :=
  is_lower_alnum c || (c =? UNDERSCORE)%N.

Definition starts_with_underscore (s : str) : bool :=
  match s with c :: _ => (c =? UNDERSCORE)%N | [] => false end.

Definition is_safe_name (s : str) : bool :=
  forallb is_name_char s
  && negb (starts_with_underscore s)
  && negb (starts_with_underscore (rev s))
  && no_double_underscore s.

(** [text.split('\n')]: the lines of [text], at least one. *)
Fixpoint lines (text : str) : list str :=
  match text with
  | [] => [[]]
  | c :: tl =>
      if (c =? NEWLINE)%N then [] :: lines tl else cons_head c (lines tl)
  end.

(** A line that [^(={3,})$] matches: three or more [=] and nothing else. *)
Definition is_rule (line : str) : bool :=
  (3 <=? length line)%nat && forallb (fun c => (c =? EQUALS)%N) line.

Definition post_process_line (line : str) : str :=
  if is_rule line then [HASH] else line.

(** [PDFConverter._post_process_markdown] (converter.py):
    [re.sub(r'^(={3,})$', '#', text, flags=re.MULTILINE)].  With
    [re.MULTILINE], [^] matches at the start of every line and [$] at
    the end of every line, so a match is a whole line made of three or
    more [=]; each such line becomes [#], every other line and every
    newline is copied. *)
Definition _post_process_markdown (markdown_text : str) : str :=
  join [NEWLINE] (List.map post_process_line (lines markdown_text)).

(** A string without a newline: one line. *)
Definition one_line (l : str) : Prop :=
  forallb (fun c => negb (c =? NEWLINE)%N) l = true.

End Names.

Import Names.

(** ** More concrete runs *)

Module MoreSamples.

(** The service answers, and ffmpeg ends without writing its output. *)
Definition silent_ffmpeg_call : call_env :=
  {| requests_post := fun _ _ _ =>
       Return {| status_code := 200; content := [1%N; 2%N]; text := [] |};
     ffmpeg := fun _ => Return None;
     now := "20240101_120000" |}.

(** The request is interrupted from the keyboard. *)
Definition interrupted_call : call_env :=
  {| requests_post := fun _ _ _ =>
       Raise (OtherBaseException "KeyboardInterrupt");
     ffmpeg := fun _ => Return None;
     now := "20240101_120000" |}.

Definition env_silent_ffmpeg : environment :=
  {| construct_client := Return AsyncOpenAI_client;
     remote := fun _ => Sample.answers "bee";
     completion_order := [0%nat; 1%nat];
     UNREAL_SPEECH_API_KEY := Some (py "key");
     tts_call := fun _ => silent_ffmpeg_call |}.

(** No key for the synthesis, neither given nor in the environment. *)
Definition env_no_key : environment :=
  {| construct_client := Return AsyncOpenAI_client;
     remote := fun _ => Sample.answers "bee";
     completion_order := [1%nat; 0%nat];
     UNREAL_SPEECH_API_KEY := None;
     tts_call := fun i => Sample.ok_call [N.of_nat i] |}.

(** [AsyncOpenAI()] raises. *)
Definition env_no_client : environment :=
  {| construct_client := Raise (OtherException "OpenAIError");
     remote := fun _ => Sample.answers "bee";
     completion_order := [1%nat; 0%nat];
     UNREAL_SPEECH_API_KEY := Some (py "key");
     tts_call := fun i => Sample.ok_call [N.of_nat i] |}.

(** A run without [--tts]. *)
Definition args_text_only : Args :=
  {| args_max_chunk_size := 3; args_concurrent_requests := 5;
     args_model := py "gpt-4"; args_tts := false; args_api_key := None;
     args_voice := py "Scarlett"; args_tts_chunk_size := 950;
     args_tts_audio_dir := "tts_audio"; args_debug_mode := false |}.

(** [--concurrent_requests -1] *)
Definition args_negative_requests : Args :=
  {| args_max_chunk_size := 3; args_concurrent_requests := -1;
     args_model := py "gpt-4"; args_tts := false; args_api_key := None;
     args_voice := py "Scarlett"; args_tts_chunk_size := 950;
     args_tts_audio_dir := "tts_audio"; args_debug_mode := false |}.

(** Every synthesis succeeds, each at a second of its own. *)
Definition clock_call (i : nat) : call_env :=
  {| requests_post := fun _ _ _ =>
       Return {| status_code := 200; content := [1%N; 2%N]; text := [] |};
     ffmpeg := fun _ => Return (Some [N.of_nat i]);
     now := ("20240101_12000" ++ String (ascii_of_nat (48 + i)) EmptyString)%string |}.

Definition env_clock : environment :=
  {| construct_client := Return AsyncOpenAI_client;
     remote := fun _ => Sample.answers "bee";
     completion_order := [0%nat; 1%nat];
     UNREAL_SPEECH_API_KEY := Some (py "key");
     tts_call := clock_call |}.

(** A file of the user is there before the run. *)
Definition world_with_notes : world := World {[ "notes.txt" := [7%N] ]} [].

End MoreSamples.

(* ------------------------------------------------------------------ *)
(** * Facts *)

(** ** The definitions at work *)

Example re_split_sentences_ex :
  re_split_sentences (py "Hi there.  How are you?   Fine! ok")
  = [py "Hi there."; py "How are you?"; py "Fine!"; py "ok"].
Proof. reflexivity. Qed.

Example re_split_sentences_trailing_separator :
  re_split_sentences (py "a. ") = [py "a."; []].
Proof. reflexivity. Qed.

Example re_split_sentences_needs_punctuation :
  re_split_sentences (py " a b") = [py " a b"].
Proof. reflexivity. Qed.

Example split_ex : split (py "  a bb  ccc ") = [py "a"; py "bb"; py "ccc"].
Proof. reflexivity. Qed.

Example strip_ex : strip (py "  a b ") = py "a b".
Proof. reflexivity. Qed.

Example split_text_into_chunks_ex :
  split_text_into_chunks 12 (py "Hi. Yo. Abcdefghijklmn. Z.")
  = [py "Hi. Yo."; py "Abcdefghijklmn."; py "Z."].
Proof. reflexivity. Qed.

Example chunk_text_ex :
  chunk_text (py "  a bb  ccc dddd ") 5 = [py "a bb"; py "ccc"; py "dddd"].
Proof. reflexivity. Qed.

Example chunk_text_first_word_too_long :
  chunk_text (py "abcdef g") 3 = [[]; py "abcdef"; py "g"].
Proof. reflexivity. Qed.

Example format_final_markdown_ex :
  format_final_markdown [10; 10; 10; 10; 97; 10; 10; 98; 10; 10; 10]%N
  = [10; 10; 97; 10; 10; 98; 10; 10]%N.
Proof. reflexivity. Qed.

Example gather_ex :
  gather (List.map (process_chunk_with_ai Sample.prompt Sample.markdown_ok
                      Sample.ai_ready) [py "A."; py "B."; py "C."])
    (fun i => Sample.answers (String (ascii_of_nat (97 + i)) EmptyString))
    [2; 0; 1]%nat Sample.empty_world
  = (Return [Some (py "a"); Some (py "b"); Some (py "c")], Sample.empty_world).
Proof. reflexivity. Qed.

Example os_path_join_ex :
  os_path_join "tts_audio" "response_20240101_120000.wav"
  = "tts_audio/response_20240101_120000.wav"%string.
Proof. reflexivity. Qed.

(** ** Newline collapsing *)

Section CollapseFacts.

Lemma collapse_newlines_repeat k m rest :
  collapse_newlines k (repeat NEWLINE m ++ rest) = collapse_newlines (k + m) rest.
Proof.
  revert k. induction m as [|m IH]; intros k; simpl.
  - by rewrite Nat.add_0_r.
  - rewrite IH. f_equal. lia.
Qed.

Lemma collapse_newlines_saturate a b text :
  Nat.min a 2 = Nat.min b 2 ->
  collapse_newlines a text = collapse_newlines b text.
Proof.
  revert a b. induction text as [|c tl IH]; intros a b Hab; simpl.
  - unfold emit_newlines. by rewrite Hab.
  - destruct (c =? NEWLINE)%N.
    + apply IH. lia.
    + unfold emit_newlines. by rewrite Hab.
Qed.

Lemma collapse_newlines_twice text : forall k run,
  collapse_newlines k (collapse_newlines run text)
  = collapse_newlines (k + Nat.min run 2) text.
Proof.
  induction text as [|c tl IH]; intros k run; simpl.
  - unfold emit_newlines at 1.
    rewrite <- (app_nil_r (repeat _ _)), collapse_newlines_repeat.
    reflexivity.
  - destruct (c =? NEWLINE)%N eqn:Hc.
    + rewrite IH. apply collapse_newlines_saturate. lia.
    + unfold emit_newlines at 1. rewrite collapse_newlines_repeat. simpl.
      rewrite Hc, (IH 0%nat 0%nat). reflexivity.
Qed.

Lemma emit_newlines_cases run :
  emit_newlines run = [] \/ emit_newlines run = [NEWLINE]
  \/ emit_newlines run = [NEWLINE; NEWLINE].
Proof.
  unfold emit_newlines.
  destruct run as [|[|[|run]]]; simpl; auto.
Qed.

Lemma collapse_newlines_no_triple text : forall run before after,
  collapse_newlines run text <> before ++ [NEWLINE; NEWLINE; NEWLINE] ++ after.
Proof.
  induction text as [|c tl IH]; intros run before after; simpl.
  - intros H. apply (f_equal (@length _)) in H.
    rewrite length_app in H. simpl in H.
    unfold emit_newlines in H. rewrite repeat_length in H. lia.
  - destruct (c =? NEWLINE)%N eqn:Hc; [apply IH|].
    apply N.eqb_neq in Hc.
    destruct (emit_newlines_cases run) as [-> | [-> | ->]]; simpl;
      repeat (let x := fresh "x" in
              destruct before as [|x before]; simpl;
              [intros [=]; congruence | ]);
      intros [=]; subst; try congruence;
      match goal with H : collapse_newlines _ _ = _ |- _ => exact (IH _ _ _ H) end.
Qed.

End CollapseFacts.

(** C9. [format_final_markdown] is idempotent, and its result contains no
    run of three (hence of three or more) consecutive newlines. *)
Theorem format_final_markdown_idempotent (s : str) :
  format_final_markdown (format_final_markdown s) = format_final_markdown s
  /\ ~ has_triple_newline (format_final_markdown s).
Proof.
  unfold format_final_markdown. split.
  - by rewrite collapse_newlines_twice.
  - intros (before & after & H). exact (collapse_newlines_no_triple _ _ _ _ H).
Qed.

(** ** Strings *)

Section StringFacts.

Lemma len_app a b : len (a ++ b) = len a + len b.
Proof. unfold len. rewrite length_app. lia. Qed.

Lemma len_nonneg s : 0 <= len s.
Proof. unfold len. lia. Qed.

Lemma len_cons_pos c s : 1 <= len (c :: s).
Proof. unfold len. simpl. lia. Qed.

Lemma truthy_false s : truthy s = false <-> s = [].
Proof. destruct s; simpl; split; congruence. Qed.

Lemma isspace_SPACE : isspace SPACE = true.
Proof. reflexivity. Qed.

Lemma lstrip_length s : (length (lstrip s) <= length s)%nat.
Proof.
  induction s as [|c s IH]; simpl; [lia|].
  destruct (isspace c); simpl; lia.
Qed.

Lemma strip_length s : (length (strip s) <= length s)%nat.
Proof.
  unfold strip, rstrip. rewrite length_rev.
  etransitivity; [apply lstrip_length|].
  rewrite length_rev. apply lstrip_length.
Qed.

Lemma len_strip s : len (strip s) <= len s.
Proof. unfold len. pose proof (strip_length s). lia. Qed.

Lemma lstrip_app_space s :
  lstrip (s ++ [SPACE])
  = match lstrip s with [] => [] | _ :: _ => lstrip s ++ [SPACE] end.
Proof.
  induction s as [|c s IH]; simpl; [reflexivity|].
  destruct (isspace c); [exact IH | reflexivity].
Qed.

Lemma strip_app_space s : strip (s ++ [SPACE]) = strip s.
Proof.
  unfold strip, rstrip. rewrite lstrip_app_space.
  destruct (lstrip s) as [|c t] eqn:E; [reflexivity|].
  rewrite rev_app_distr. reflexivity.
Qed.

Lemma nonspace_app a b : nonspace (a ++ b) = nonspace a ++ nonspace b.
Proof. apply List.filter_app. Qed.

Lemma nonspace_rev s : nonspace (rev s) = rev (nonspace s).
Proof.
  induction s as [|c s IH]; simpl; [reflexivity|].
  rewrite nonspace_app, IH. simpl.
  destruct (isspace c); simpl; [by rewrite app_nil_r | reflexivity].
Qed.

Lemma nonspace_lstrip s : nonspace (lstrip s) = nonspace s.
Proof.
  induction s as [|c s IH]; simpl; [reflexivity|].
  destruct (isspace c) eqn:E; simpl; rewrite ?E; simpl; auto.
Qed.

Lemma nonspace_strip s : nonspace (strip s) = nonspace s.
Proof.
  unfold strip, rstrip.
  by rewrite nonspace_rev, nonspace_lstrip, nonspace_rev, rev_involutive,
    nonspace_lstrip.
Qed.

(** *** [join] *)

Lemma join_snoc sep l w :
  join sep (l ++ [w])
  = match l with [] => w | _ :: _ => join sep l ++ sep ++ w end.
Proof.
  induction l as [|x l IH]; simpl; [reflexivity|].
  destruct l as [|y l]; simpl in *; [reflexivity|].
  rewrite IH. by rewrite <- !app_assoc.
Qed.

Lemma len_join_snoc l w :
  len (join [SPACE] (l ++ [w])) <= len (join [SPACE] l) + (len w + 1).
Proof.
  rewrite join_snoc. destruct l as [|x l].
  - simpl. pose proof (len_nonneg w). change (len []) with 0. lia.
  - rewrite !len_app. change (len [SPACE]) with 1. lia.
Qed.

Lemma concat_with_space g :
  g <> [] ->
  concat (List.map (fun s => s ++ [SPACE]) g) = join [SPACE] g ++ [SPACE].
Proof.
  induction g as [|x g IH]; [congruence|]. intros _.
  destruct g as [|y g]; simpl in *; [by rewrite app_nil_r|].
  rewrite IH by congruence. by rewrite <- !app_assoc.
Qed.

(** *** [split] *)

Lemma words_from_spec s :
  Forall (fun c => isspace c = false) (fst (words_from s))
  /\ Forall is_word (snd (words_from s)).
Proof.
  induction s as [|c s [IHw IHws]]; simpl; [by split; constructor|].
  destruct (words_from s) as [w ws]; simpl in *.
  destruct (isspace c) eqn:E; simpl; split; auto.
  destruct w as [|d w]; simpl; auto.
  constructor; [split; [congruence | assumption] | assumption].
Qed.

Lemma split_words text : Forall is_word (split text).
Proof.
  unfold split. pose proof (words_from_spec text) as [Hw Hws].
  destruct (words_from text) as [w ws]; simpl in *.
  destruct w as [|d w]; simpl; auto.
  constructor; [split; [congruence | assumption] | assumption].
Qed.

Lemma words_from_word w :
  Forall (fun c => isspace c = false) w -> words_from w = (w, []).
Proof.
  induction 1 as [|c w Hc _ IH]; simpl; [reflexivity|].
  by rewrite IH, Hc.
Qed.

Lemma words_from_word_space w rest :
  Forall (fun c => isspace c = false) w ->
  words_from (w ++ SPACE :: rest) = (w, split rest).
Proof.
  induction 1 as [|c w Hc _ IH]; simpl.
  - unfold split. by destruct (words_from rest).
  - by rewrite IH, Hc.
Qed.

Lemma split_join ws : Forall is_word ws -> split (join [SPACE] ws) = ws.
Proof.
  induction 1 as [|w ws [Hne Hw] Hws IH]; [reflexivity|].
  destruct ws as [|w2 ws].
  - simpl. unfold split. rewrite words_from_word by assumption.
    by destruct w.
  - change (join [SPACE] (w :: w2 :: ws))
      with (w ++ SPACE :: join [SPACE] (w2 :: ws)).
    unfold split at 1. rewrite words_from_word_space by assumption.
    rewrite IH. by destruct w.
Qed.

Lemma push_word_app w ws ws' : push_word w (ws ++ ws') = push_word w ws ++ ws'.
Proof. by destruct w. Qed.

Lemma words_from_app_space a b :
  words_from (a ++ SPACE :: b)
  = (fst (words_from a), snd (words_from a) ++ split b).
Proof.
  induction a as [|c a IH]; simpl.
  - unfold split. by destruct (words_from b).
  - rewrite IH. destruct (words_from a) as [w ws]. simpl.
    destruct (isspace c); [|done]. by rewrite push_word_app.
Qed.

Lemma split_app_space a b : split (a ++ SPACE :: b) = split a ++ split b.
Proof.
  unfold split at 1 2. rewrite words_from_app_space.
  destruct (words_from a) as [w ws]. simpl. apply push_word_app.
Qed.

Lemma split_join_chunks (l : list str) :
  split (join [SPACE] l) = concat (List.map split l).
Proof.
  induction l as [|x l IH]; [done|].
  destruct l as [|y l]; [simpl; by rewrite app_nil_r|].
  change (join [SPACE] (x :: y :: l)) with (x ++ SPACE :: join [SPACE] (y :: l)).
  by rewrite split_app_space, IH.
Qed.

Lemma is_word_len w : is_word w -> 1 <= len w.
Proof. intros [Hne _]. destruct w; [congruence | apply len_cons_pos]. Qed.

(** *** [re.split] *)

Lemma concat_cons_head c ps : concat (cons_head c ps) = c :: concat ps.
Proof. by destruct ps. Qed.

Lemma pieces_nonspace st text :
  nonspace (concat (pieces st text)) = nonspace text.
Proof.
  revert st. induction text as [|c tl IH]; intros st; [reflexivity|].
  assert (Hkeep : forall b,
    nonspace (concat (cons_head c (pieces (InPiece b) tl)))
    = nonspace (c :: tl)).
  { intros b. rewrite concat_cons_head. simpl. by rewrite IH. }
  assert (Hdrop : (c =? SPACE)%N = true ->
    nonspace (concat (pieces InSeparator tl)) = nonspace (c :: tl)).
  { intros ->%N.eqb_eq. simpl. apply IH. }
  simpl pieces. destruct st as [|after_end].
  - destruct (c =? SPACE)%N eqn:E; auto.
  - destruct after_end, (c =? SPACE)%N eqn:E; simpl andb; cbv iota; auto.
Qed.

Lemma pieces_not_nil st text : pieces st text <> [].
Proof.
  revert st. induction text as [|c tl IH]; intros st; simpl; [congruence|].
  assert (Hk : forall b, cons_head c (pieces (InPiece b) tl) <> []).
  { intros b. destruct (pieces (InPiece b) tl); simpl; congruence. }
  destruct st as [|[]]; simpl; destruct (c =? SPACE)%N; auto; congruence.
Qed.

End StringFacts.

(** ** The sentence chunker *)

Section SentenceChunker.

Variable max_chunk_size : Z.

(** What a chunk made of the sentences [g] looks like. *)
Definition render (g : list str) : str := strip (join [SPACE] g).

Definition with_spaces (g : list str) : str :=
  concat (List.map (fun s => s ++ [SPACE]) g).

Lemma with_spaces_snoc g s : with_spaces (g ++ [s]) = with_spaces g ++ s ++ [SPACE].
Proof.
  unfold with_spaces. rewrite List.map_app, concat_app. simpl.
  by rewrite app_nil_r.
Qed.

Lemma with_spaces_nil g : with_spaces g = [] <-> g = [].
Proof.
  split; [|by intros ->].
  destruct g as [|x g]; [done|]. unfold with_spaces. simpl.
  destruct x; simpl; congruence.
Qed.

Lemma flush_with_spaces groups g :
  flush (List.map render groups) (with_spaces g)
  = List.map render (groups ++ match g with [] => [] | _ :: _ => [g] end).
Proof.
  unfold flush. destruct g as [|x g].
  - simpl. by rewrite app_nil_r.
  - destruct (truthy (with_spaces (x :: g))) eqn:E.
    + rewrite List.map_app. simpl. f_equal. f_equal. unfold render, with_spaces.
      rewrite concat_with_space by congruence. apply strip_app_space.
    + apply truthy_false, with_spaces_nil in E. congruence.
Qed.

(** The loop cuts the list of sentences into consecutive groups. *)
Lemma sentence_loop_groups : forall l groups g,
  Forall (fun g => g <> []) groups ->
  exists groups' g',
    fold_left (sentence_step max_chunk_size) l
      (List.map render groups, with_spaces g)
    = (List.map render groups', with_spaces g')
    /\ Forall (fun g => g <> []) groups'
    /\ concat groups' ++ g' = concat groups ++ g ++ l.
Proof.
  induction l as [|s l IH]; intros groups g Hne; simpl.
  - exists groups, g. by rewrite app_nil_r.
  - destruct (len (with_spaces g) + len s + 1 <=? max_chunk_size).
    + rewrite <- with_spaces_snoc.
      destruct (IH groups (g ++ [s]) Hne) as (groups' & g' & Hrun & Hne' & Hcat).
      exists groups', g'. split; [exact Hrun|]. split; [assumption|].
      rewrite Hcat. by rewrite <- app_assoc.
    + rewrite flush_with_spaces.
      change (s ++ [SPACE]) with (with_spaces [] ++ s ++ [SPACE]).
      rewrite <- with_spaces_snoc.
      edestruct IH as (groups' & g' & Hrun & Hne' & Hcat).
      2:{ exists groups', g'. split; [exact Hrun|]. split; [assumption|].
          rewrite Hcat. rewrite concat_app. simpl.
          destruct g; simpl; by rewrite ?app_nil_r, <- ?app_assoc. }
      apply Forall_app. split; [assumption|].
      destruct g; constructor; [congruence | constructor].
Qed.

Lemma split_text_into_chunks_groups text :
  exists groups,
    concat groups = re_split_sentences text
    /\ Forall (fun g => g <> []) groups
    /\ split_text_into_chunks max_chunk_size text = List.map render groups.
Proof.
  unfold split_text_into_chunks.
  destruct (sentence_loop_groups (re_split_sentences text) [] [])
    as (groups & g & Hrun & Hne & Hcat); [constructor|].
  change (List.map render [], with_spaces []) with (@nil str, @nil char) in Hrun.
  rewrite Hrun, flush_with_spaces. simpl in Hcat.
  eexists. split; [|split; [|reflexivity]].
  - rewrite concat_app, <- Hcat. destruct g; simpl; by rewrite ?app_nil_r.
  - apply Forall_app. split; [assumption|].
    destruct g; constructor; [congruence | constructor].
Qed.

(** The size of what the loop emits.  [bounded all c] is the size
    property of one chunk, [all] being the sentences of the text. *)
Definition bounded (all : list str) (c : str) : Prop :=
  len c <= max_chunk_size
  \/ exists s, In s all /\ max_chunk_size < len s /\ c = strip s.

Definition pending_ok (all : list str) (current_chunk : str) : Prop :=
  current_chunk = []
  \/ len current_chunk <= max_chunk_size
  \/ exists s, In s all /\ current_chunk = s ++ [SPACE].

Lemma bounded_strip all cc :
  pending_ok all cc -> truthy cc = true -> bounded all (strip cc).
Proof.
  intros [-> | [Hle | (s & Hin & ->)]] Ht; [discriminate| |].
  - left. pose proof (len_strip cc). lia.
  - rewrite strip_app_space.
    destruct (Z_le_gt_dec (len (strip s)) max_chunk_size) as [Hle|Hgt];
      [by left|].
    right. exists s. pose proof (len_strip s). repeat split; [assumption|lia].
Qed.

Lemma bounded_flush all chunks cc :
  Forall (bounded all) chunks -> pending_ok all cc ->
  Forall (bounded all) (flush chunks cc).
Proof.
  intros Hc Hp. unfold flush. destruct (truthy cc) eqn:Ht; [|assumption].
  apply Forall_app. split; [assumption|].
  constructor; [by apply bounded_strip | constructor].
Qed.

Lemma sentence_loop_bounded all : forall l chunks cc,
  incl l all -> Forall (bounded all) chunks -> pending_ok all cc ->
  Forall (bounded all)
    (fst (fold_left (sentence_step max_chunk_size) l (chunks, cc)))
  /\ pending_ok all
       (snd (fold_left (sentence_step max_chunk_size) l (chunks, cc))).
Proof.
  induction l as [|s l IH]; intros chunks cc Hincl Hc Hp; simpl; [by split|].
  assert (In s all) by (apply Hincl; by left).
  assert (incl l all) by (intros x Hx; apply Hincl; by right).
  destruct (len cc + len s + 1 <=? max_chunk_size) eqn:E.
  - apply IH; [assumption..|]. right. left. apply Z.leb_le in E.
    rewrite !len_app. change (len [SPACE]) with 1. lia.
  - apply IH; [assumption| by apply bounded_flush |].
    right. right. by exists s.
Qed.

Lemma split_text_into_chunks_bounded text :
  Forall (bounded (re_split_sentences text))
    (split_text_into_chunks max_chunk_size text).
Proof.
  unfold split_text_into_chunks.
  pose proof (sentence_loop_bounded (re_split_sentences text)
    (re_split_sentences text) [] []) as H.
  destruct (fold_left _ _ _) as [chunks cc]; simpl in H.
  destruct H as [Hc Hp].
  - by intros x.
  - constructor.
  - by left.
  - by apply bounded_flush.
Qed.

End SentenceChunker.

(** ** The word chunker *)

Section WordChunker.

Variable chunk_size : Z.

Definition emit_pending (chunks : list str) (current_chunk : list str) : list str :=
  match current_chunk with
  | [] => chunks
  | _ :: _ => chunks ++ [join [SPACE] current_chunk]
  end.

(** The loop cuts the list of words into consecutive groups; the first
    group may be empty. *)
Lemma word_loop_groups : forall l groups cur n,
  exists groups' cur' n',
    fold_left (word_step chunk_size) l (List.map (join [SPACE]) groups, cur, n)
    = (List.map (join [SPACE]) groups', cur', n')
    /\ concat groups' ++ cur' = concat groups ++ cur ++ l.
Proof.
  induction l as [|w l IH]; intros groups cur n; simpl.
  - exists groups, cur, n. by rewrite app_nil_r.
  - destruct (n + len w + 1 >? chunk_size).
    + destruct (IH (groups ++ [cur]) [w] (len w)) as (groups' & cur' & n' & Hrun & Hcat).
      exists groups', cur', n'. rewrite List.map_app in Hrun. split; [exact Hrun|].
      rewrite Hcat, concat_app. simpl. by rewrite app_nil_r, <- app_assoc.
    + destruct (IH groups (cur ++ [w]) (n + (len w + 1)))
        as (groups' & cur' & n' & Hrun & Hcat).
      exists groups', cur', n'. split; [exact Hrun|].
      rewrite Hcat. by rewrite <- app_assoc.
Qed.

Lemma chunk_text_groups text :
  exists groups,
    concat groups = split text
    /\ chunk_text text chunk_size = List.map (join [SPACE]) groups.
Proof.
  unfold chunk_text.
  destruct (word_loop_groups (split text) [] [] 0)
    as (groups & cur & n & Hrun & Hcat).
  change (List.map (join [SPACE]) []) with (@nil str) in Hrun.
  rewrite Hrun. simpl in Hcat. destruct cur as [|w cur].
  - exists groups. rewrite app_nil_r in Hcat. by split.
  - exists (groups ++ [w :: cur]). rewrite concat_app, List.map_app. simpl.
    rewrite app_nil_r. by split.
Qed.

Lemma concat_split_join groups :
  Forall is_word (concat groups) ->
  concat (List.map split (List.map (join [SPACE]) groups)) = concat groups.
Proof.
  induction groups as [|g groups IH]; simpl; [reflexivity|].
  intros [Hg Hgs]%Forall_app. by rewrite split_join, IH.
Qed.

(** The size of what the loop emits. *)
Definition word_bounded (all : list str) (c : str) : Prop :=
  c <> [] -> len c <= chunk_size \/ (In c all /\ chunk_size < len c).

Definition word_pending_ok (all : list str) (cur : list str) (n : Z) : Prop :=
  len (join [SPACE] cur) <= n
  /\ (n <= chunk_size \/ cur = [] \/ exists w, cur = [w] /\ In w all).

Lemma word_bounded_join all cur n :
  word_pending_ok all cur n -> word_bounded all (join [SPACE] cur).
Proof.
  intros [Hlen [Hle | [-> | (w & -> & Hin)]]] Hne.
  - left. lia.
  - by destruct Hne.
  - simpl. destruct (Z_le_gt_dec (len w) chunk_size); [by left|].
    right. split; [assumption|lia].
Qed.

Lemma word_loop_bounded all : forall l chunks cur n,
  incl l all -> Forall (word_bounded all) chunks -> word_pending_ok all cur n ->
  match fold_left (word_step chunk_size) l (chunks, cur, n) with
  | (chunks', cur', n') =>
      Forall (word_bounded all) chunks' /\ word_pending_ok all cur' n'
  end.
Proof.
  induction l as [|w l IH]; intros chunks cur n Hincl Hc Hp; simpl; [by split|].
  assert (In w all) by (apply Hincl; by left).
  assert (incl l all) by (intros x Hx; apply Hincl; by right).
  destruct (n + len w + 1 >? chunk_size) eqn:E.
  - apply IH; [assumption| |].
    + apply Forall_app. split; [assumption|].
      constructor; [by eapply word_bounded_join | constructor].
    + split; [simpl; lia|]. right. right. by exists w.
  - apply IH; [assumption..|]. destruct Hp as [Hlen _].
    split; [pose proof (len_join_snoc cur w); lia|].
    left. rewrite Z.gtb_ltb in E. apply Z.ltb_ge in E. lia.
Qed.

Lemma chunk_text_bounded text :
  Forall (word_bounded (split text)) (chunk_text text chunk_size).
Proof.
  unfold chunk_text.
  pose proof (word_loop_bounded (split text) (split text) [] [] 0) as H.
  destruct (fold_left _ _ _) as [[chunks cur] n].
  destruct H as [Hc Hp].
  - by intros x.
  - constructor.
  - split; [reflexivity|]. right. by left.
  - destruct cur as [|w cur]; [assumption|].
    apply Forall_app. split; [assumption|].
    constructor; [by eapply word_bounded_join | constructor].
Qed.

End WordChunker.

(** ** Degenerate sizes *)

Section DegenerateSizes.

Variable n : Z.
Hypothesis n_nonpos : n <= 0.

Lemma sentence_loop_nonpos : forall l chunks cc,
  cc <> [] ->
  flush (fst (fold_left (sentence_step n) l (chunks, cc)))
        (snd (fold_left (sentence_step n) l (chunks, cc)))
  = chunks ++ [strip cc] ++ List.map strip l.
Proof using n_nonpos.
  induction l as [|s l IH]; intros chunks cc Hcc; simpl.
  - unfold flush. by destruct cc.
  - assert ((len cc + len s + 1 <=? n) = false) as ->.
    { apply Z.leb_gt. pose proof (len_nonneg cc). pose proof (len_nonneg s). lia. }
    rewrite IH by (destruct s; simpl; congruence).
    unfold flush. destruct cc as [|c cc]; [congruence|]. simpl truthy. cbv iota.
    rewrite strip_app_space. by rewrite <- app_assoc.
Qed.

Lemma split_text_into_chunks_nonpos text :
  split_text_into_chunks n text = List.map strip (re_split_sentences text).
Proof using n_nonpos.
  unfold split_text_into_chunks.
  pose proof (pieces_not_nil (InPiece false) text) as Hne.
  fold (re_split_sentences text) in Hne.
  destruct (re_split_sentences text) as [|s l]; [congruence|]. simpl.
  assert ((len [] + len s + 1 <=? n) = false) as ->.
  { apply Z.leb_gt. pose proof (len_nonneg s). change (len []) with 0. lia. }
  change (flush [] []) with (@nil str).
  pose proof (sentence_loop_nonpos l [] (s ++ [SPACE])) as H.
  destruct (fold_left _ _ _) as [chunks cc]. simpl in H.
  rewrite H by (destruct s; simpl; congruence).
  by rewrite strip_app_space.
Qed.

Lemma word_loop_nonpos : forall l chunks w,
  Forall is_word (w :: l) ->
  match fold_left (word_step n) l (chunks, [w], len w) with
  | (chunks', cur', _) => emit_pending chunks' cur' = chunks ++ w :: l
  end.
Proof using n_nonpos.
  induction l as [|w' l IH]; intros chunks w Hw; simpl; [reflexivity|].
  inversion Hw as [|? ? Hw1 Hw2]; subst.
  assert ((len w + len w' + 1 >? n) = true) as ->.
  { apply Z.gtb_lt. pose proof (len_nonneg w). pose proof (len_nonneg w'). lia. }
  specialize (IH (chunks ++ [w]) w' Hw2).
  simpl join. destruct (fold_left _ _ _) as [[chunks' cur'] n'].
  rewrite IH. by rewrite <- app_assoc.
Qed.

Lemma chunk_text_nonpos text :
  List.filter truthy (chunk_text text n) = split text.
Proof using n_nonpos.
  unfold chunk_text. pose proof (split_words text) as Hw.
  destruct (split text) as [|w l]; [reflexivity|]. simpl.
  assert ((0 + len w + 1 >? n) = true) as ->.
  { apply Z.gtb_lt. pose proof (len_nonneg w). lia. }
  pose proof (word_loop_nonpos l ([] ++ [join [SPACE] []]) w Hw) as H.
  destruct (fold_left _ _ _) as [[chunks cur] n'].
  unfold emit_pending in H. rewrite H.
  change (([] ++ [join [SPACE] []]) ++ w :: l) with ([] :: w :: l).
  change (List.filter truthy ([] :: w :: l)) with (List.filter truthy (w :: l)).
  assert (Hall : forall ws, Forall is_word ws -> List.filter truthy ws = ws).
  { induction 1 as [|x ws [Hx _] _ IHws]; simpl; [reflexivity|].
    destruct x; [congruence|]. simpl. by rewrite IHws. }
  by apply Hall.
Qed.

End DegenerateSizes.

(** ** The rewrite transform *)

Section RewriteFacts.

Variable DEFAULT_PROMPT : str.
Variable markdown_markdown : option str -> outcome str.

Local Abbreviation process_chunk :=
  (process_chunk_with_ai DEFAULT_PROMPT markdown_markdown).
Local Abbreviation validate := (_validate_markdown markdown_markdown).

Ltac unfold_M :=
  cbv beta iota delta
    [process_chunk_with_ai _validate_markdown first_content acquire_semaphore
     bind try_except lift raise ret logger].

(** A log line is only ever added at the end of the log. *)
Definition appends (w w' : world) : Prop :=
  fs w' = fs w /\ exists l, log w' = log w ++ l.

Lemma appends_refl w : appends w w.
Proof. split; [done|]. exists []. by rewrite app_nil_r. Qed.

Lemma appends_trans w1 w2 w3 : appends w1 w2 -> appends w2 w3 -> appends w1 w3.
Proof.
  intros [Hf1 [l1 Hl1]] [Hf2 [l2 Hl2]]. split; [congruence|].
  exists (l1 ++ l2). by rewrite Hl2, Hl1, app_assoc.
Qed.

(** The value of [_validate_markdown] is its argument whenever the
    parser returns or raises an [Exception]. *)
Lemma validate_returns content w :
  match markdown_markdown content with
  | Return _ => validate content w = (Return content, w)
  | Raise e =>
      is_Exception e = true ->
      validate content w
      = (Return content,
         World (fs w) (log w ++ [(WARNING, MarkdownValidationFailed e)]))
  | Blocked => validate content w = (Blocked, w)
  end.
Proof.
  unfold _validate_markdown, bind, try_except, lift, ret, logger.
  destruct (markdown_markdown content) as [html|e|]; [done| |done].
  by intros ->.
Qed.

(** What one task returns does not depend on the world it runs in, and
    a task only appends to the log. *)
Lemma process_chunk_world self chunk remote w1 w2 :
  fst (process_chunk self chunk remote w1)
  = fst (process_chunk self chunk remote w2).
Proof.
  unfold process_chunk_with_ai. destruct (client self); [|reflexivity].
  unfold_M. destruct (0 <? concurrent_requests self); [|reflexivity].
  destruct (remote _) as [[|content rest]|e|]; simpl; try reflexivity.
  - destruct (markdown_markdown content) as [html|e|]; simpl; try reflexivity.
    destruct (is_Exception e) eqn:He; simpl; by rewrite ?He.
  - by destruct (is_Exception e).
Qed.

Lemma process_chunk_appends self chunk remote w :
  appends w (snd (process_chunk self chunk remote w)).
Proof.
  unfold process_chunk_with_ai. destruct (client self); [|apply appends_refl].
  unfold_M. destruct (0 <? concurrent_requests self); [|apply appends_refl].
  destruct (remote _) as [[|content rest]|e|]; simpl;
    try apply appends_refl; try (split; [done|]; by eexists).
  - destruct (markdown_markdown content) as [html|e|]; simpl;
      try apply appends_refl.
    destruct (is_Exception e) eqn:He; simpl; rewrite ?He; simpl;
      try apply appends_refl; split; [done|]; by eexists.
  - destruct (is_Exception e); simpl;
      try apply appends_refl; split; [done|]; by eexists.
Qed.

(** A remote failure of class [Exception] makes the unit the empty
    string and logs the exception. *)
Lemma acquire_semaphore_ready self w :
  0 < concurrent_requests self -> acquire_semaphore self w = (Return (), w).
Proof. intros H%Z.ltb_lt. unfold acquire_semaphore. by rewrite H. Qed.

Lemma process_chunk_remote_failure self chunk remote c e w :
  client self = Some c ->
  0 < concurrent_requests self ->
  remote (chat_request DEFAULT_PROMPT self chunk) = Raise e ->
  is_Exception e = true ->
  process_chunk self chunk remote w
  = (Return (Some []), World (fs w) (log w ++ [(ERROR, AIProcessingFailed e)])).
Proof.
  intros Hc Hp Hr He. unfold process_chunk_with_ai. rewrite Hc.
  unfold try_except, bind at 1. rewrite (acquire_semaphore_ready _ _ Hp).
  unfold bind, lift. rewrite Hr. by rewrite He.
Qed.

Lemma process_chunk_no_choice self chunk remote c w :
  client self = Some c ->
  0 < concurrent_requests self ->
  remote (chat_request DEFAULT_PROMPT self chunk) = Return [] ->
  process_chunk self chunk remote w
  = (Return (Some []),
     World (fs w) (log w ++ [(ERROR, AIProcessingFailed IndexError)])).
Proof.
  intros Hc Hp Hr. unfold process_chunk_with_ai. rewrite Hc.
  unfold try_except, bind at 1. rewrite (acquire_semaphore_ready _ _ Hp).
  unfold bind, lift. by rewrite Hr.
Qed.

Lemma process_chunk_success self chunk remote c content rest w :
  client self = Some c ->
  0 < concurrent_requests self ->
  remote (chat_request DEFAULT_PROMPT self chunk) = Return (content :: rest) ->
  (forall e, markdown_markdown content = Raise e -> is_Exception e = true) ->
  markdown_markdown content <> Blocked ->
  fst (process_chunk self chunk remote w) = Return content.
Proof.
  intros Hc Hp Hr He Hb. unfold process_chunk_with_ai. rewrite Hc.
  unfold try_except, bind at 1. rewrite (acquire_semaphore_ready _ _ Hp).
  unfold bind, lift. rewrite Hr. simpl.
  pose proof (validate_returns content w) as Hv.
  destruct (markdown_markdown content) as [html|e|]; [by rewrite Hv| |done].
  by rewrite Hv by by apply He.
Qed.

End RewriteFacts.

(** C7. When the remote call succeeds and the markdown parser then
    raises an exception, [process_chunk_with_ai] returns the text the
    service sent, unchanged, and the only effect is one warning in the
    log. *)
Theorem validation_failure_keeps_text
    (DEFAULT_PROMPT : str) (markdown_markdown : option str -> outcome str)
    (self : AIProcessor) (chunk : str) (remote : service) (w : world)
    (c : AsyncOpenAI) (content : option str) (rest : list (option str)) (e : exn) :
  client self = Some c ->
  0 < concurrent_requests self ->
  remote (chat_request DEFAULT_PROMPT self chunk) = Return (content :: rest) ->
  markdown_markdown content = Raise e ->
  is_Exception e = true ->
  process_chunk_with_ai DEFAULT_PROMPT markdown_markdown self chunk remote w
  = (Return content,
     World (fs w) (log w ++ [(WARNING, MarkdownValidationFailed e)])).
Proof.
  intros Hc Hp Hr Hm He. unfold process_chunk_with_ai. rewrite Hc.
  unfold try_except at 1, bind at 1. rewrite (acquire_semaphore_ready _ _ Hp).
  unfold bind at 1, lift. rewrite Hr.
  unfold bind at 1, first_content, ret.
  pose proof (validate_returns markdown_markdown content w) as Hv.
  rewrite Hm in Hv. by rewrite (Hv He).
Qed.

Lemma validation_failure_keeps_text_witness :
  process_chunk_with_ai Sample.prompt Sample.markdown_fails Sample.ai_ready
    (py "Hi.") (Sample.answers "# Hello") Sample.empty_world
  = (Return (Some (py "# Hello")),
     World ∅ [(WARNING,
               MarkdownValidationFailed (OtherException "AttributeError"))]).
Proof.
  apply (validation_failure_keeps_text Sample.prompt Sample.markdown_fails
           Sample.ai_ready (py "Hi.") (Sample.answers "# Hello")
           Sample.empty_world AsyncOpenAI_client (Some (py "# Hello")) []
           (OtherException "AttributeError"));
    reflexivity.
Defined.

(** ** [gather] *)

Section GatherFacts.

Context {E A : Type}.
Variable tasks : list (coroutine (E:=E) (A:=A)).
Variable envs : nat -> E.

Local Abbreviation n := (length tasks).

(** Once the outer future is done it never changes. *)
Lemma complete_outer_done st w i o :
  outer st = Some o -> outer (fst (complete tasks envs (st, w) i)) = Some o.
Proof.
  intros Ho. unfold complete.
  destruct (tasks !! i) as [task|]; [|done].
  destruct (children st !! i) as [[fut|]|]; try done.
  destruct (task (envs i) w) as [[a|e|] w']; simpl; try done;
    unfold done_callback; by rewrite Ho.
Qed.

Lemma run_outer_done order : forall st w o,
  outer st = Some o ->
  outer (fst (fold_left (complete tasks envs) order (st, w))) = Some o.
Proof.
  induction order as [|i order IH]; intros st w o Ho; [done|]. cbn [fold_left].
  pose proof (complete_outer_done st w i o Ho) as H.
  destruct (complete tasks envs (st, w) i) as [st' w']. by apply IH.
Qed.

(** The state of [gather] after the children in [done] have finished,
    each child [i] with the value [f i]. *)
Record gather_inv (f : nat -> A) (done : list nat) (st : gather_state) : Prop := {
  inv_length : length (children st) = n;
  inv_done : forall i, In i done -> children st !! i = Some (Some (Return (f i)));
  inv_pending : forall i,
    (i < n)%nat -> ~ In i done -> children st !! i = Some None;
  inv_nfinished : nfinished st = length done;
  inv_outer :
    outer st = if Nat.eqb (length done) n
               then Some (Return (List.map f (seq 0 n))) else None
}.

Lemma gather_init_inv f : gather_inv f [] (gather_init tasks).
Proof.
  split; simpl.
  - by rewrite length_map.
  - intros i [].
  - intros i Hi _. rewrite list_lookup_fmap.
    destruct (tasks !! i) eqn:Hl; [done|].
    apply lookup_ge_None in Hl. lia.
  - done.
  - by destruct tasks.
Qed.

Lemma child_results_all f (cs : list (option (outcome A))) :
  length cs = n ->
  (forall i, (i < n)%nat -> cs !! i = Some (Some (Return (f i)))) ->
  child_results cs = List.map f (seq 0 n).
Proof.
  intros Hlen Hall.
  assert (cs = List.map (fun i => Some (Return (f i))) (seq 0 n)) as ->.
  { apply list_eq. intros i. destruct (decide (i < n)%nat) as [Hi|Hi].
    - rewrite Hall by done. symmetry.
      change (List.map ?g ?l) with (g <$> l).
      rewrite list_lookup_fmap, lookup_seq_lt by done. done.
    - rewrite !(proj2 (lookup_ge_None _ _)); [done| |lia].
      rewrite length_map, length_seq. lia. }
  unfold child_results. generalize (seq 0 n). intros l.
  induction l as [|x l IH]; [done|]. cbn. by f_equal.
Qed.

Lemma all_done (done : list nat) :
  List.NoDup done -> (forall i, In i done -> (i < n)%nat) -> length done = n ->
  forall i, (i < n)%nat -> In i done.
Proof.
  intros Hnd Hlt Hlen i Hi.
  apply (NoDup_length_incl Hnd (l' := seq 0 n)).
  - rewrite length_seq. lia.
  - intros j Hj. apply in_seq. specialize (Hlt j Hj). lia.
  - apply in_seq. lia.
Qed.

Lemma complete_inv f done st w i :
  (forall i task w, tasks !! i = Some task ->
                    fst (task (envs i) w) = Return (f i)) ->
  gather_inv f done st ->
  List.NoDup (done ++ [i]) -> (forall j, In j (done ++ [i]) -> (j < n)%nat) ->
  gather_inv f (done ++ [i]) (fst (complete tasks envs (st, w) i)).
Proof.
  intros Hf [Hlen Hdone Hpend Hnf Hout] Hnd Hlt.
  assert (Hi : (i < n)%nat) by (apply Hlt, in_or_app; right; by left).
  assert (Hnotin : ~ In i done).
  { apply NoDup_remove_2 in Hnd. by rewrite app_nil_r in Hnd. }
  assert (Hshort : (length done < n)%nat).
  { assert (length (done ++ [i]) <= n)%nat; [|rewrite length_app in *; simpl in *; lia].
    rewrite <- (length_seq n 0). apply NoDup_incl_length; [done|].
    intros j Hj. apply in_seq. specialize (Hlt j Hj). lia. }
  unfold complete.
  destruct (tasks !! i) as [task|] eqn:Htask;
    [|apply lookup_ge_None in Htask; lia].
  rewrite (Hpend i Hi Hnotin).
  specialize (Hf i task w Htask).
  destruct (task (envs i) w) as [o w']. simpl in Hf. subst o. simpl.
  assert (Hch : forall j, In j (done ++ [i]) ->
    <[i:=Some (Return (f i))]> (children st) !! j = Some (Some (Return (f j)))).
  { intros j [Hj|[<-|[]]]%in_app_or.
    - rewrite list_lookup_insert_ne by (intros ->; done). by apply Hdone.
    - apply list_lookup_insert_eq. lia. }
  unfold done_callback. rewrite Hout, Hnf.
  assert (Nat.eqb (length done) n = false) as -> by (apply Nat.eqb_neq; lia).
  assert (Hlen' : length (done ++ [i]) = S (length done))
    by (rewrite length_app; simpl; lia).
  destruct (Nat.eqb (S (length done)) n) eqn:Hfull; split; simpl;
    rewrite ?length_insert, ?Hlen', ?Hfull; try done.
  - intros j Hj Hnj. rewrite list_lookup_insert_ne; [apply Hpend; auto|].
    + intros Hin. apply Hnj, in_or_app. by left.
    + intros ->. apply Hnj, in_or_app. right. by left.
  - do 2 f_equal. apply child_results_all; [by rewrite length_insert|].
    intros j Hj. apply Hch. apply all_done; auto.
    rewrite Hlen'. by apply Nat.eqb_eq.
  - intros j Hj Hnj. rewrite list_lookup_insert_ne; [apply Hpend; auto|].
    + intros Hin. apply Hnj, in_or_app. by left.
    + intros ->. apply Hnj, in_or_app. right. by left.
Qed.

Lemma run_inv f : forall rest done st w,
  (forall i task w, tasks !! i = Some task ->
                    fst (task (envs i) w) = Return (f i)) ->
  gather_inv f done st ->
  List.NoDup (done ++ rest) -> (forall j, In j (done ++ rest) -> (j < n)%nat) ->
  gather_inv f (done ++ rest)
    (fst (fold_left (complete tasks envs) rest (st, w))).
Proof.
  induction rest as [|i rest IH]; intros done st w Hf Hinv Hnd Hlt.
  - by rewrite app_nil_r.
  - cbn [fold_left]. replace (done ++ i :: rest) with ((done ++ [i]) ++ rest) in *
      by (by rewrite <- app_assoc).
    pose proof (complete_inv f done st w i Hf Hinv) as Hstep.
    destruct (complete tasks envs (st, w) i) as [st' w']. simpl in Hstep.
    apply IH; [done| |done..].
    apply Hstep.
    + by apply NoDup_app_remove_r in Hnd.
    + intros j Hj. apply Hlt, in_or_app. by left.
Qed.

(** Whatever the order in which the children finish, [gather] returns
    their values in the order of [tasks]. *)
Lemma gather_in_index_order f order w :
  Permutation order (seq 0 n) ->
  (forall i task w, tasks !! i = Some task ->
                    fst (task (envs i) w) = Return (f i)) ->
  fst (gather tasks envs order w) = Return (List.map f (seq 0 n)).
Proof.
  intros Hperm Hf. unfold gather.
  pose proof (run_inv f order [] (gather_init tasks) w Hf (gather_init_inv f)) as H.
  destruct (fold_left _ _ _) as [st w']. simpl in H.
  destruct H as [_ _ _ _ Hout].
  - apply (Permutation_NoDup (Permutation_sym Hperm)), seq_NoDup.
  - intros j Hj. apply (Permutation_in _ Hperm), in_seq in Hj. lia.
  - rewrite Hout, (Permutation_length Hperm), length_seq, Nat.eqb_refl. done.
Qed.

(** The log only grows. *)
Definition extends (w w' : world) : Prop := exists l, log w' = log w ++ l.

Lemma extends_refl w : extends w w.
Proof. exists []. by rewrite app_nil_r. Qed.

Lemma extends_trans w1 w2 w3 : extends w1 w2 -> extends w2 w3 -> extends w1 w3.
Proof.
  intros [l1 H1] [l2 H2]. exists (l1 ++ l2). by rewrite H2, H1, app_assoc.
Qed.

Lemma extends_In w w' x : extends w w' -> In x (log w) -> In x (log w').
Proof. intros [l ->] Hx. apply in_or_app. by left. Qed.

(** What each child leaves in the log is still there when [gather]
    returns: [Q i] is a property of the log established by child [i]
    and kept by everything that runs after it. *)
Lemma run_log f (Q : nat -> world -> Prop) :
  (forall i task w, tasks !! i = Some task ->
                    fst (task (envs i) w) = Return (f i)) ->
  (forall i task w, tasks !! i = Some task ->
                    extends w (snd (task (envs i) w))) ->
  (forall i task w, tasks !! i = Some task -> Q i (snd (task (envs i) w))) ->
  (forall i w w', Q i w -> extends w w' -> Q i w') ->
  forall rest done st w,
    gather_inv f done st ->
    List.NoDup (done ++ rest) -> (forall j, In j (done ++ rest) -> (j < n)%nat) ->
    (forall i, In i done -> Q i w) ->
    forall i, In i (done ++ rest) ->
      Q i (snd (fold_left (complete tasks envs) rest (st, w))).
Proof.
  intros Hf Hext HQ Hstable.
  induction rest as [|i rest IH]; intros done st w Hinv Hnd Hlt Hdone j Hj.
  - rewrite app_nil_r in Hj. by apply Hdone.
  - cbn [fold_left].
    replace (done ++ i :: rest) with ((done ++ [i]) ++ rest) in *
      by (by rewrite <- app_assoc).
    assert (Hnd' : List.NoDup (done ++ [i])) by (by apply NoDup_app_remove_r in Hnd).
    assert (Hlt' : forall j, In j (done ++ [i]) -> (j < n)%nat)
      by (intros k Hk; apply Hlt, in_or_app; by left).
    pose proof (complete_inv f done st w i Hf Hinv Hnd' Hlt') as Hstep.
    assert (Hi : (i < n)%nat) by (apply Hlt', in_or_app; right; by left).
    assert (Hnotin : ~ In i done).
    { apply NoDup_remove_2 in Hnd'. by rewrite app_nil_r in Hnd'. }
    assert (Hw : exists task, tasks !! i = Some task
               /\ snd (complete tasks envs (st, w) i) = snd (task (envs i) w)).
    { unfold complete.
      destruct (tasks !! i) as [task|] eqn:Htask;
        [|apply lookup_ge_None in Htask; change (n <= i)%nat in Htask; lia].
      exists task. split; [done|].
      rewrite (inv_pending _ _ _ Hinv i Hi Hnotin).
      specialize (Hf i task w Htask).
      destruct (task (envs i) w) as [o w']. simpl in Hf. by subst o. }
    destruct Hw as (task & Htask & Hw).
    destruct (complete tasks envs (st, w) i) as [st' w']. simpl in Hstep, Hw.
    subst w'. apply (IH (done ++ [i])); try done.
    intros k [Hk|[<-|[]]]%in_app_or.
    + eapply Hstable; [by apply Hdone | by eapply Hext].
    + by eapply HQ.
Qed.

Lemma gather_log f (Q : nat -> world -> Prop) order w :
  Permutation order (seq 0 n) ->
  (forall i task w, tasks !! i = Some task ->
                    fst (task (envs i) w) = Return (f i)) ->
  (forall i task w, tasks !! i = Some task ->
                    extends w (snd (task (envs i) w))) ->
  (forall i task w, tasks !! i = Some task -> Q i (snd (task (envs i) w))) ->
  (forall i w w', Q i w -> extends w w' -> Q i w') ->
  forall i, (i < n)%nat -> Q i (snd (gather tasks envs order w)).
Proof.
  intros Hperm Hf Hext HQ Hstable i Hi. unfold gather.
  pose proof (run_log f Q Hf Hext HQ Hstable order [] (gather_init tasks) w
                (gather_init_inv f)) as H.
  destruct (fold_left _ _ _) as [st w']. simpl in H.
  assert (Q i w'); [|by destruct (outer st)].
  apply H.
  - apply (Permutation_NoDup (Permutation_sym Hperm)), seq_NoDup.
  - intros j Hj. apply (Permutation_in _ Hperm), in_seq in Hj. lia.
  - intros j [].
  - apply (Permutation_in _ (Permutation_sym Hperm)), in_seq. lia.
Qed.

End GatherFacts.

(** ** The dispatch of [main_async] *)

Section Dispatch.

Variable DEFAULT_PROMPT : str.
Variable markdown_markdown : option str -> outcome str.

Local Abbreviation process_chunk :=
  (process_chunk_with_ai DEFAULT_PROMPT markdown_markdown).

Lemma lookup_tasks (ai : AIProcessor) (chunks : list str) i task :
  List.map (process_chunk ai) chunks !! i = Some task ->
  exists chunk, chunks !! i = Some chunk /\ task = process_chunk ai chunk.
Proof.
  change (List.map ?g ?l) with (g <$> l). rewrite list_lookup_fmap.
  destruct (chunks !! i) as [chunk|]; simpl; [|done].
  intros [= <-]. by exists chunk.
Qed.

(** The value unit [i] gets when its transform runs on its own. *)
Definition unit_value (ai : AIProcessor) (chunks : list str)
    (remote : nat -> service) (w : world) (i : nat) : option str :=
  match chunks !! i with
  | Some chunk =>
      match fst (process_chunk ai chunk (remote i) w) with
      | Return r => r
      | _ => None
      end
  | None => None
  end.

Lemma dispatch_in_index_order ai chunks remote order w :
  Permutation order (seq 0 (length chunks)) ->
  (forall i chunk, chunks !! i = Some chunk ->
     exists r, fst (process_chunk ai chunk (remote i) w) = Return r) ->
  fst (gather (List.map (process_chunk ai) chunks) remote order w)
  = Return (List.map (unit_value ai chunks remote w) (seq 0 (length chunks))).
Proof.
  intros Hperm Hret.
  rewrite <- (length_map (process_chunk ai) chunks).
  apply gather_in_index_order; [by rewrite length_map|].
  intros i task w' (chunk & Hchunk & ->)%lookup_tasks.
  unfold unit_value. rewrite Hchunk.
  destruct (Hret i chunk Hchunk) as [r Hr].
  by rewrite (process_chunk_world _ _ _ _ _ w' w), Hr.
Qed.

End Dispatch.

(** C1. Whatever the order in which the dispatched transforms finish,
    [gather] over the per-chunk tasks of [main_async] returns one result
    per chunk, and the result at index [i] is what the transform of
    chunk [i] returns (provided every transform returns). *)
Theorem gather_restores_index_order
    (DEFAULT_PROMPT : str) (markdown_markdown : option str -> outcome str)
    (ai : AIProcessor) (chunks : list str) (remote : nat -> service)
    (order : list nat) (w : world) :
  Permutation order (seq 0 (length chunks)) ->
  (forall i chunk, chunks !! i = Some chunk ->
     exists r, fst (process_chunk_with_ai DEFAULT_PROMPT markdown_markdown
                      ai chunk (remote i) w) = Return r) ->
  exists results,
    fst (gather (List.map (process_chunk_with_ai DEFAULT_PROMPT markdown_markdown ai)
                   chunks) remote order w) = Return results
    /\ length results = length chunks
    /\ forall i chunk, chunks !! i = Some chunk ->
         exists r, results !! i = Some r
           /\ fst (process_chunk_with_ai DEFAULT_PROMPT markdown_markdown
                     ai chunk (remote i) w) = Return r.
Proof.
  intros Hperm Hret. eexists. split; [by apply dispatch_in_index_order|].
  split; [by rewrite length_map, length_seq|].
  intros i chunk Hchunk. destruct (Hret i chunk Hchunk) as [r Hr].
  exists r. split; [|done].
  change (List.map ?g ?l) with (g <$> l). rewrite list_lookup_fmap.
  rewrite lookup_seq_lt by (by eapply lookup_lt_Some). simpl.
  unfold unit_value. by rewrite Hchunk, Hr.
Qed.

(** C10. Without a client, [process_chunk_with_ai] raises
    [RuntimeError] and touches nothing: the error is not turned into an
    absent result, and the [gather] of [main_async] passes it on to its
    caller as soon as the first task has run. *)
Theorem uninitialized_client_raises
    (DEFAULT_PROMPT : str) (markdown_markdown : option str -> outcome str)
    (self : AIProcessor) (w : world) :
  client self = None ->
  (forall chunk remote,
     process_chunk_with_ai DEFAULT_PROMPT markdown_markdown self chunk remote w
     = (Raise (RuntimeError "OpenAI client not initialized"), w))
  /\ (forall chunks remote i rest,
        (i < length chunks)%nat ->
        fst (gather (List.map (process_chunk_with_ai DEFAULT_PROMPT
                                 markdown_markdown self) chunks)
               remote (i :: rest) w)
        = Raise (RuntimeError "OpenAI client not initialized")).
Proof.
  intros Hc. split.
  - intros chunk remote. unfold process_chunk_with_ai. by rewrite Hc.
  - intros chunks remote i rest Hi. unfold gather. cbn [fold_left].
    set (tasks := List.map _ chunks).
    assert (outer (fst (complete tasks remote (gather_init tasks, w) i))
            = Some (Raise (RuntimeError "OpenAI client not initialized"))) as Hout.
    { unfold complete. destruct (lookup_lt_is_Some_2 chunks i Hi) as [chunk Hchunk].
      assert (Htask : tasks !! i
        = Some (process_chunk_with_ai DEFAULT_PROMPT markdown_markdown self chunk)).
      { unfold tasks. change (List.map ?g ?l) with (g <$> l).
        by rewrite list_lookup_fmap, Hchunk. }
      unfold coroutine. rewrite Htask.
      assert (children (gather_init tasks) !! i = Some None) as ->.
      { apply (inv_pending tasks (fun _ => None) [] _
                 (gather_init_inv tasks (fun _ => None))); [|by intros []].
        unfold tasks. by rewrite length_map. }
      unfold process_chunk_with_ai. rewrite Hc. unfold raise. simpl.
      unfold done_callback. simpl.
      destruct tasks; [done|]. done. }
    destruct (complete tasks remote (gather_init tasks, w) i) as [st' w'].
    pose proof (run_outer_done tasks remote rest st' w' _ Hout) as H.
    destruct (fold_left _ _ _) as [st'' w'']. simpl in H. by rewrite H.
Qed.

(** ** The chunkers: size, content, degenerate sizes *)

Lemma nonspace_join g : nonspace (join [SPACE] g) = nonspace (concat g).
Proof.
  induction g as [|x g IH]; [done|].
  destruct g as [|y g]; [simpl; by rewrite app_nil_r|].
  change (join [SPACE] (x :: y :: g)) with (x ++ [SPACE] ++ join [SPACE] (y :: g)).
  change (concat (x :: y :: g)) with (x ++ concat (y :: g)).
  rewrite !nonspace_app, IH. reflexivity.
Qed.

Lemma nonspace_render groups :
  nonspace (concat (List.map render groups)) = nonspace (concat (concat groups)).
Proof.
  induction groups as [|g groups IH]; [done|]. simpl.
  rewrite concat_app, !nonspace_app, IH. f_equal.
  unfold render. by rewrite nonspace_strip, nonspace_join.
Qed.

(** C3, as the code has it.  Every chunk of [split_text_into_chunks] is
    at most [N] long, unless it is one sentence longer than [N], emitted
    alone and trimmed of its leading and trailing whitespace.  Every
    non-empty chunk of [chunk_text] is at most [N] long, unless it is
    one word longer than [N], emitted alone and unmodified. *)
Theorem chunk_size_bound (N : Z) (text : str) :
  Forall (fun c =>
            len c <= N
            \/ exists s, In s (re_split_sentences text) /\ N < len s /\ c = strip s)
         (split_text_into_chunks N text)
  /\ Forall (fun c =>
               c <> [] -> len c <= N \/ (In c (split text) /\ N < len c))
            (chunk_text text N).
Proof.
  split.
  - apply split_text_into_chunks_bounded.
  - apply chunk_text_bounded.
Qed.

(** C3 as stated fails twice.  With [N = 3] the text [" abcdef"] is one
    sentence of seven characters; the only chunk is ["abcdef"], longer
    than [N] and not the sentence itself.  With [N = -1] the text ["a"]
    gives the chunks [""] and ["a"]; the first is longer than [N] and
    is not a word of the text. *)
Lemma chunk_size_bound_as_stated_fails :
  ~ (forall c, In c (split_text_into_chunks 3 (py " abcdef")) ->
       len c <= 3
       \/ exists s, In s (re_split_sentences (py " abcdef")) /\ 3 < len s /\ c = s)
  /\ ~ (forall c, In c (chunk_text (py "a") (-1)) ->
          len c <= -1 \/ (In c (split (py "a")) /\ -1 < len c)).
Proof.
  split.
  - intros H. destruct (H (py "abcdef")) as [Hle | (s & Hin & _ & Heq)].
    + vm_compute. by left.
    + vm_compute in Hle. by apply Hle.
    + vm_compute in Hin. destruct Hin as [<-|[]]. discriminate Heq.
  - intros H. destruct (H []) as [Hle | [Hin _]].
    + vm_compute. by left.
    + vm_compute in Hle. by apply Hle.
    + vm_compute in Hin. destruct Hin as [Heq|[]]. discriminate Heq.
Qed.

(** C4. The chunks of [split_text_into_chunks] are the sentences of the
    text cut into consecutive non-empty groups, each group joined by
    single spaces and trimmed; nothing but whitespace is lost.  The
    words of the chunks of [chunk_text], read chunk after chunk, are
    the words of the text, and so are the words of the chunks joined
    again by spaces. *)
Theorem chunks_preserve_segments (N : Z) (text : str) :
  (exists groups,
      concat groups = re_split_sentences text
      /\ Forall (fun g => g <> []) groups
      /\ split_text_into_chunks N text
         = List.map (fun g => strip (join [SPACE] g)) groups)
  /\ nonspace (concat (split_text_into_chunks N text)) = nonspace text
  /\ concat (List.map split (chunk_text text N)) = split text
  /\ split (join [SPACE] (chunk_text text N)) = split text.
Proof.
  destruct (split_text_into_chunks_groups N text) as (groups & Hcat & Hne & Heq).
  split; [by exists groups|]. split.
  - rewrite Heq, nonspace_render, Hcat. apply pieces_nonspace.
  - rewrite split_join_chunks.
    destruct (chunk_text_groups N text) as (wgroups & Hwcat & ->).
    rewrite concat_split_join, Hwcat; [done|].
    rewrite Hwcat. apply split_words.
Qed.

(** C6, as the code has it.  With a size of zero or less neither chunker
    fails: [split_text_into_chunks] returns every sentence as a chunk of
    its own, trimmed, and the non-empty chunks of [chunk_text] are the
    words of the text, one per chunk. *)
Theorem nonpositive_size_one_segment_per_chunk (N : Z) (text : str) :
  N <= 0 ->
  split_text_into_chunks N text = List.map strip (re_split_sentences text)
  /\ List.filter truthy (chunk_text text N) = split text.
Proof.
  intros HN. split.
  - by apply split_text_into_chunks_nonpos.
  - by apply chunk_text_nonpos.
Qed.

Lemma nonpositive_size_one_segment_per_chunk_witness :
  split_text_into_chunks 0 (py "Hi. Yo.")
  = List.map strip (re_split_sentences (py "Hi. Yo."))
  /\ List.filter truthy (chunk_text (py "a b") 0) = split (py "a b").
Proof.
  split.
  - apply (nonpositive_size_one_segment_per_chunk 0 (py "Hi. Yo.")). lia.
  - apply (nonpositive_size_one_segment_per_chunk 0 (py "a b")). lia.
Defined.

(** C6 as stated fails: with size [0] both chunkers return chunks, and
    a run of [main_async] with both sizes set to [0] returns normally. *)
Lemma nonpositive_size_is_accepted :
  split_text_into_chunks 0 (py "Hi. Yo.") = [py "Hi."; py "Yo."]
  /\ chunk_text (py "a b") 0 = [[]; py "a"; py "b"]
  /\ fst (main_async Sample.prompt Sample.markdown_ok Sample.encode_utf8
            Sample.decode_wav Sample.encode_mp3 Sample.args_size_zero
            Sample.env_second_fails "simplified.md" "simplified.mp3"
            Sample.two_sentences Sample.empty_world)
     = Return ().
Proof. split; [reflexivity|]. split; reflexivity. Qed.

(** ** The text stage under partial failure *)

Section TextStage.

Variable DEFAULT_PROMPT : str.
Variable markdown_markdown : option str -> outcome str.

Local Abbreviation process_chunk :=
  (process_chunk_with_ai DEFAULT_PROMPT markdown_markdown).

Definition keep_truthy (x : option str) : option str :=
  match x with
  | Some s => if truthy s then Some s else None
  | None => None
  end.

Lemma process_chunk_value self chunk remote c w :
  client self = Some c ->
  0 < concurrent_requests self ->
  rewrite_settles markdown_markdown
    (remote (chat_request DEFAULT_PROMPT self chunk)) ->
  exists r, fst (process_chunk self chunk remote w) = Return r
    /\ keep_truthy r = rewritten (remote (chat_request DEFAULT_PROMPT self chunk)).
Proof.
  intros Hc Hp Hs.
  destruct (remote (chat_request DEFAULT_PROMPT self chunk))
    as [[|content rest]|e|] eqn:Hr; simpl in Hs; [| | |done].
  - exists (Some []). by rewrite (process_chunk_no_choice _ _ _ _ _ c).
  - exists content. destruct Hs as [Hb He].
    rewrite (process_chunk_success _ _ _ _ _ c content rest) by done.
    split; [done|]. by destruct content as [[|? ?]|].
  - exists (Some []). by rewrite (process_chunk_remote_failure _ _ _ _ _ c e).
Qed.

Lemma omap_map {X Y Z} (g : Y -> option Z) (h : X -> Y) (l : list X) :
  omap g (List.map h l) = omap id (List.map (fun x => g (h x)) l).
Proof.
  induction l as [|x l IH]; [done|]. cbn. rewrite IH. by destruct (g (h x)).
Qed.

Variable ai : AIProcessor.
Variable env : environment.
Variable text : str.

Local Abbreviation chunks := (split_text_into_chunks (max_chunk_size ai) text).

Hypothesis client_ready : exists c, client ai = Some c.
Hypothesis permits : 0 < concurrent_requests ai.
Hypothesis all_finish :
  Permutation (completion_order env) (seq 0 (length chunks)).
Hypothesis all_settle : forall i chunk,
  chunks !! i = Some chunk ->
  rewrite_settles markdown_markdown (remote env i (chat_request DEFAULT_PROMPT ai chunk)).

Lemma units_return w i chunk :
  chunks !! i = Some chunk ->
  exists r, fst (process_chunk ai chunk (remote env i) w) = Return r.
Proof using client_ready permits all_settle.
  intros Hchunk. destruct client_ready as [c Hc].
  destruct (process_chunk_value ai chunk (remote env i) c w Hc permits
              (all_settle i chunk Hchunk)) as (r & Hr & _).
  by exists r.
Qed.

Lemma simplify_value w :
  fst (simplify DEFAULT_PROMPT markdown_markdown ai env text w)
  = Return (format_final_markdown
              (join [NEWLINE; NEWLINE]
                 (omap id (imap (fun i chunk =>
                                   rewritten (remote env i
                                     (chat_request DEFAULT_PROMPT ai chunk)))
                                chunks)))).
Proof using client_ready permits all_finish all_settle.
  unfold simplify, bind at 1, logger.
  set (w0 := World _ _).
  pose proof (dispatch_in_index_order DEFAULT_PROMPT markdown_markdown ai
                chunks (remote env) (completion_order env) w0 all_finish
                (units_return w0)) as Hg.
  unfold bind. destruct (gather _ _ _ w0) as [o w']. simpl in Hg. subst o.
  unfold ret. simpl. do 3 f_equal.
  unfold filter_None. fold keep_truthy. rewrite omap_map. f_equal.
  apply list_eq. intros i. rewrite list_lookup_imap.
  change (List.map ?g ?l) with (g <$> l). rewrite list_lookup_fmap.
  destruct (chunks !! i) as [chunk|] eqn:Hchunk.
  - rewrite lookup_seq_lt by (by eapply lookup_lt_Some). simpl. f_equal.
    destruct client_ready as [c Hc].
    destruct (process_chunk_value ai chunk (remote env i) c w0 Hc permits
                (all_settle i chunk Hchunk)) as (r & Hr & Hk).
    unfold unit_value. by rewrite Hchunk, Hr.
  - rewrite lookup_seq_ge; [done|]. by apply lookup_ge_None.
Qed.

Lemma simplify_logs_failures w i chunk e :
  chunks !! i = Some chunk ->
  remote env i (chat_request DEFAULT_PROMPT ai chunk) = Raise e ->
  In (ERROR, AIProcessingFailed e)
     (log (snd (simplify DEFAULT_PROMPT markdown_markdown ai env text w))).
Proof using client_ready permits all_finish all_settle.
  intros Hchunk Hraise. unfold simplify, bind at 1, logger.
  set (w0 := World _ _). set (tasks := List.map _ _).
  assert (Hlog : In (ERROR, AIProcessingFailed e)
                    (log (snd (gather tasks (remote env) (completion_order env) w0)))).
  { pose proof (gather_log tasks (remote env)
      (unit_value DEFAULT_PROMPT markdown_markdown ai chunks (remote env) w0)
      (fun j w => forall chunk e,
         chunks !! j = Some chunk ->
         remote env j (chat_request DEFAULT_PROMPT ai chunk) = Raise e ->
         In (ERROR, AIProcessingFailed e) (log w))
      (completion_order env) w0) as H.
    eapply H; clear H; try done.
    - unfold tasks. by rewrite length_map.
    - intros j task w1 (chunk1 & Hchunk1 & ->)%lookup_tasks.
      unfold unit_value. rewrite Hchunk1.
      destruct (units_return w0 j chunk1 Hchunk1) as [r Hr].
      by rewrite (process_chunk_world _ _ _ _ _ w1 w0), Hr.
    - intros j task w1 (chunk1 & Hchunk1 & ->)%lookup_tasks.
      apply process_chunk_appends.
    - intros j task w1 (chunk1 & Hchunk1 & ->)%lookup_tasks chunk2 e2 Hchunk2 Hr2.
      assert (chunk2 = chunk1) as -> by congruence.
      destruct client_ready as [c Hc].
      pose proof (all_settle j chunk1 Hchunk1) as Hs. rewrite Hr2 in Hs.
      rewrite (process_chunk_remote_failure _ _ _ _ _ c e2) by done.
      simpl. apply in_or_app. right. by left.
    - intros j w1 w2 HQ Hext chunk1 e1 Hc1 Hr1.
      eapply extends_In; [done|]. by eapply HQ.
    - unfold tasks. rewrite length_map. by eapply lookup_lt_Some. }
  unfold bind. by destruct (gather _ _ _ w0) as [[l|e'|] w'].
Qed.

End TextStage.

(** ** The synthesis stage under partial failure *)

Section Synthesis.

Variable decode_wav : bytes -> AudioSegment.

Ltac unfold_tts :=
  cbv beta iota delta
    [synthesize_text subprocess_run_ffmpeg from_wav
     write_file read_file os_path_exists os_remove os_rename os_makedirs
     bind try_except lift raise ret logger fs log].

Lemma temp_files_differ : temp_wav_file <> temp_mp3_file.
Proof. discriminate. Qed.

Lemma synthesize_text_fails self ev text voice debug_mode w :
  api_key self <> [] ->
  synthesis_settles ev (api_key self) text voice ->
  synthesized ev (api_key self) text voice = None ->
  exists w', synthesize_text self ev text voice debug_mode w = (Return None, w')
             /\ extends w w'.
Proof.
  intros Hkey Hs Hn. unfold synthesis_settles, synthesized in *.
  unfold synthesize_text. destruct (api_key self) as [|k key] eqn:Ek; [done|].
  cbn [truthy negb]. unfold_tts.
  destruct (requests_post ev _ text voice) as [r|e|]; [| |done].
  - destruct (status_code r =? 200).
    + rewrite lookup_insert_eq.
      destruct (ffmpeg ev (content r)) as [[wav|]|e|]; try done.
      rewrite Hs. eexists. split; [done|]. by eexists.
    + eexists. split; [done|]. by eexists.
  - rewrite Hs. eexists. split; [done|]. by eexists.
Qed.

Lemma synthesize_text_succeeds self ev text voice debug_mode w wav :
  api_key self <> [] ->
  synthesized ev (api_key self) text voice = Some wav ->
  exists path w',
    synthesize_text self ev text voice debug_mode w = (Return (Some path), w')
    /\ fs w' !! path = Some wav /\ extends w w'.
Proof.
  intros Hkey Hn. unfold synthesized in *.
  unfold synthesize_text. destruct (api_key self) as [|k key] eqn:Ek; [done|].
  cbn [truthy negb]. unfold_tts.
  destruct (requests_post ev _ text voice) as [r|e|]; try done.
  destruct (status_code r =? 200); [|done].
  rewrite lookup_insert_eq.
  destruct (ffmpeg ev (content r)) as [[wav'|]|e|]; try done.
  injection Hn as ->.
  rewrite lookup_insert_ne by apply temp_files_differ.
  rewrite lookup_insert_eq.
  rewrite bool_decide_eq_true_2 by by eexists.
  rewrite lookup_insert_ne by apply temp_files_differ.
  rewrite lookup_insert_eq.
  destruct debug_mode.
  - rewrite lookup_delete_ne by (symmetry; apply temp_files_differ).
    rewrite lookup_insert_eq.
    do 2 eexists. split; [done|]. split; [apply lookup_insert_eq|by eexists].
  - do 2 eexists. split; [done|]. split; [|exists []; by rewrite app_nil_r].
    rewrite lookup_delete_ne by (symmetry; apply temp_files_differ).
    apply lookup_insert_eq.
Qed.

Variable tts_service : UnrealSpeechTTSService.
Variable env : environment.
Variable voice : str.
Variable debug_mode : bool.
Variable n : nat.

Hypothesis key_set : api_key tts_service <> [].

Lemma synthesis_loop_value : forall text_chunks i final_audio w,
  (forall j chunk, text_chunks !! j = Some chunk ->
     synthesis_settles (tts_call env (i + j)) (api_key tts_service) chunk voice) ->
  exists w',
    synthesis_loop decode_wav tts_service env voice debug_mode n i
      text_chunks final_audio w
    = (Return (final_audio
               ++ concat (omap id (imap (fun j =>
                    unit_audio decode_wav tts_service env voice (i + j))
                    text_chunks))),
       w')
    /\ extends w w'
    /\ forall j chunk, text_chunks !! j = Some chunk ->
         unit_audio decode_wav tts_service env voice (i + j) chunk = None ->
         In (ERROR, ErrorSynthesizingChunk (i + j)) (log w').
Proof using key_set.
  induction text_chunks as [|chunk rest IH]; intros i final_audio w Hs.
  - exists w. simpl. rewrite app_nil_r. split; [done|].
    split; [apply extends_refl|]. intros j chunk Hj. by destruct j.
  - assert (Hrest : forall j c, rest !! j = Some c ->
      synthesis_settles (tts_call env (S i + j)) (api_key tts_service) c voice).
    { intros j c Hj. replace (S i + j)%nat with (i + S j)%nat by lia.
      by apply Hs. }
    assert (Himap :
      imap (fun j => unit_audio decode_wav tts_service env voice (i + j))
           (chunk :: rest)
      = unit_audio decode_wav tts_service env voice i chunk
        :: imap (fun j => unit_audio decode_wav tts_service env voice (S i + j))
                rest).
    { cbn [imap]. rewrite Nat.add_0_r. f_equal. apply imap_ext.
      intros j c _. simpl. f_equal. lia. }
    rewrite Himap. clear Himap.
    pose proof (Hs 0%nat chunk eq_refl) as Hs0. rewrite Nat.add_0_r in Hs0.
    cbn [synthesis_loop]. unfold bind at 1, logger at 1.
    set (w1 := World _ _).
    assert (Hw1 : extends w w1) by (by eexists).
    unfold unit_audio at 1.
    destruct (synthesized (tts_call env i) (api_key tts_service) chunk voice)
      as [wav|] eqn:Hsyn.
    + destruct (synthesize_text_succeeds tts_service (tts_call env i) chunk
                  voice debug_mode w1 wav key_set Hsyn)
        as (path & w2 & Hrun & Hfile & Hw2).
      unfold bind at 1. rewrite Hrun.
      unfold bind at 1, from_wav, bind at 1, read_file. rewrite Hfile.
      unfold ret at 1.
      assert (Hrm : exists w3,
        (if negb debug_mode then os_remove path else ret ()) w2 = (Return (), w3)
        /\ extends w2 w3).
      { destruct debug_mode; simpl.
        - exists w2. split; [done|apply extends_refl].
        - unfold os_remove. rewrite Hfile. eexists. split; [done|].
          exists []. simpl. by rewrite app_nil_r. }
      destruct Hrm as (w3 & Hrm & Hw3). unfold bind at 1. rewrite Hrm.
      destruct (IH (S i) (final_audio ++ decode_wav wav) w3 Hrest)
        as (w' & Hloop & Hw' & Hlog).
      exists w'. rewrite Hloop. cbn. rewrite <- app_assoc.
      split; [done|]. split.
      * eauto using extends_trans.
      * intros [|j] c Hj Hnone.
        -- injection Hj as <-.
           rewrite Nat.add_0_r in Hnone. unfold unit_audio in Hnone.
           by rewrite Hsyn in Hnone.
        -- replace (i + S j)%nat with (S i + j)%nat in * by lia.
           by apply (Hlog j c).
    + destruct (synthesize_text_fails tts_service (tts_call env i) chunk
                  voice debug_mode w1 key_set Hs0 Hsyn)
        as (w2 & Hrun & Hw2).
      unfold bind at 1. rewrite Hrun.
      unfold bind at 1, logger at 1. set (w3 := World _ _).
      assert (Hw3 : extends w2 w3) by (by eexists).
      destruct (IH (S i) final_audio w3 Hrest) as (w' & Hloop & Hw' & Hlog).
      exists w'. rewrite Hloop. cbn.
      split; [done|]. split.
      * eauto using extends_trans.
      * intros [|j] c Hj Hnone.
        -- rewrite Nat.add_0_r. eapply extends_In; [done|].
           simpl. apply in_or_app. right. by left.
        -- replace (i + S j)%nat with (S i + j)%nat in * by lia.
           by apply (Hlog j c).
Qed.

End Synthesis.

(** ** The whole run *)

Section Run.

Variable DEFAULT_PROMPT : str.
Variable markdown_markdown : option str -> outcome str.
Variable encode_utf8 : str -> bytes.
Variable decode_wav : bytes -> AudioSegment.
Variable encode_mp3 : AudioSegment -> bytes.

Lemma bind_return {X Y} (m : M X) (k : X -> M Y) w a w1 :
  m w = (Return a, w1) -> bind m k w = k a w1.
Proof. intros H. unfold bind. by rewrite H. Qed.

Lemma synthesize_returns args env final_mp3 simplified_content w c key :
  api_key_or_environ args env = Some (c :: key) ->
  (forall i chunk,
     synthesis_settles (tts_call env i) (c :: key) chunk (args_voice args)) ->
  exists w',
    synthesize decode_wav encode_mp3 args env final_mp3 simplified_content w
    = (Return (), w').
Proof.
  intros Hkey Hs. unfold synthesize. rewrite Hkey.
  unfold bind at 1, logger at 1. unfold bind at 1, logger at 1.
  set (tts := {| api_key := c :: key; tts_audio_dir := _ |}).
  set (w0 := World _ _).
  destruct (synthesis_loop_value decode_wav tts env (args_voice args)
              (args_debug_mode args)
              (length (chunk_text simplified_content (args_tts_chunk_size args)))
              (ltac:(done) : api_key tts <> [])
              (chunk_text simplified_content (args_tts_chunk_size args))
              1%nat silent_0 w0) as (w1 & Hloop & _).
  { intros j chunk _. apply Hs. }
  rewrite (bind_return _ _ _ _ _ Hloop).
  unfold bind, export, write_file, logger. by eexists.
Qed.

Lemma main_async_returns args env final_md final_mp3 text w cl c key :
  0 < args_concurrent_requests args ->
  construct_client env = Return cl ->
  strip text <> [] ->
  Permutation (completion_order env)
    (seq 0 (length (split_text_into_chunks (args_max_chunk_size args) text))) ->
  (forall i chunk,
     split_text_into_chunks (args_max_chunk_size args) text !! i = Some chunk ->
     rewrite_settles markdown_markdown
       (remote env i (chat_request DEFAULT_PROMPT (initialized args cl) chunk))) ->
  api_key_or_environ args env = Some (c :: key) ->
  (forall i chunk,
     synthesis_settles (tts_call env i) (c :: key) chunk (args_voice args)) ->
  exists w',
    main_async DEFAULT_PROMPT markdown_markdown encode_utf8 decode_wav
      encode_mp3 args env final_md final_mp3 text w
    = (Return (), w').
Proof.
  intros Hpermits Hclient Htext Hperm Hsettle Hkey Hsynth.
  unfold main_async, AIProcessor_init.
  assert ((args_concurrent_requests args <? 0) = false) as ->
    by (apply Z.ltb_ge; lia).
  unfold bind at 1, ret at 1.
  unfold initialize_client. rewrite Hclient.
  unfold bind at 1, try_except, bind at 1, lift, bind at 1, logger at 1, ret at 1.
  fold (initialized args cl).
  destruct (strip text) as [|x t] eqn:Hstrip; [done|]. cbn [truthy negb].
  set (w0 := World _ _).
  pose proof (simplify_value DEFAULT_PROMPT markdown_markdown
                (initialized args cl) env text
                (ex_intro _ cl eq_refl) Hpermits Hperm Hsettle w0) as Hval.
  destruct (simplify _ _ _ _ _ w0) as [o w1] eqn:Hsimp. simpl in Hval. subst o.
  rewrite (bind_return _ _ _ _ _ Hsimp).
  unfold bind at 1, write_file at 1. unfold bind at 1, logger at 1.
  destruct (args_tts args); [|by eexists].
  by eapply synthesize_returns.
Qed.

End Run.

(** ** Concrete runs *)

Lemma gather_restores_index_order_witness :
  exists results,
    fst (gather (List.map (process_chunk_with_ai Sample.prompt Sample.markdown_ok
                             Sample.ai_ready) [py "A."; py "B."; py "C."])
           (fun i => Sample.answers (String (ascii_of_nat (97 + i)) EmptyString))
           [2; 0; 1]%nat Sample.empty_world) = Return results
    /\ length results = 3%nat
    /\ forall i chunk, [py "A."; py "B."; py "C."] !! i = Some chunk ->
         exists r, results !! i = Some r
           /\ fst (process_chunk_with_ai Sample.prompt Sample.markdown_ok
                     Sample.ai_ready chunk
                     (Sample.answers (String (ascii_of_nat (97 + i)) EmptyString))
                     Sample.empty_world) = Return r.
Proof.
  apply (gather_restores_index_order Sample.prompt Sample.markdown_ok
           Sample.ai_ready [py "A."; py "B."; py "C."]
           (fun i => Sample.answers (String (ascii_of_nat (97 + i)) EmptyString))
           [2; 0; 1]%nat Sample.empty_world).
  - apply (bool_decide_unpack _). vm_compute. exact I.
  - intros i chunk _. eexists. reflexivity.
Defined.

Lemma uninitialized_client_raises_witness :
  (forall chunk remote,
     process_chunk_with_ai Sample.prompt Sample.markdown_ok
       Sample.ai_without_client chunk remote Sample.empty_world
     = (Raise (RuntimeError "OpenAI client not initialized"), Sample.empty_world))
  /\ (forall chunks remote i rest,
        (i < length chunks)%nat ->
        fst (gather (List.map (process_chunk_with_ai Sample.prompt
                                 Sample.markdown_ok Sample.ai_without_client) chunks)
               remote (i :: rest) Sample.empty_world)
        = Raise (RuntimeError "OpenAI client not initialized")).
Proof.
  apply (uninitialized_client_raises Sample.prompt Sample.markdown_ok
           Sample.ai_without_client Sample.empty_world).
  reflexivity.
Defined.




(** ** Empty input *)

(** C5, as the code has it.  [chunk_text] splits the empty string into
    no chunk at all; synthesizing the empty text runs no unit, exports
    the zero-length track and returns; [main_async] refuses a text that
    is empty or blank with exit status 1 before it splits anything. *)
Theorem empty_input
    (DEFAULT_PROMPT : str) (markdown_markdown : option str -> outcome str)
    (encode_utf8 : str -> bytes) (decode_wav : bytes -> AudioSegment)
    (encode_mp3 : AudioSegment -> bytes)
    (args : Args) (env : environment) (final_md final_mp3 : string)
    (text : str) (w : world) (c : char) (key : str) (cl : AsyncOpenAI) :
  api_key_or_environ args env = Some (c :: key) ->
  strip text = [] ->
  0 <= args_concurrent_requests args ->
  construct_client env = Return cl ->
  (forall chunk_size, chunk_text [] chunk_size = [])
  /\ synthesize decode_wav encode_mp3 args env final_mp3 [] w
     = (Return (),
        World (<[final_mp3 := encode_mp3 silent_0]> (fs w))
              (log w ++ [(INFO, StartingTTS); (INFO, ChunkedForTTS 0);
                         (INFO, TTSCompleted final_mp3)]))
  /\ main_async DEFAULT_PROMPT markdown_markdown encode_utf8 decode_wav
       encode_mp3 args env final_md final_mp3 text w
     = (Raise (SystemExit 1),
        World (fs w)
              (log w ++ [(INFO, ClientInitialized); (ERROR, NoTextExtracted)])).
Proof.
  intros Hkey Hblank Hpermits%Z.ltb_ge Hclient. split; [done|]. split.
  - unfold synthesize. rewrite Hkey.
    change (chunk_text [] (args_tts_chunk_size args)) with (@nil str).
    cbn [synthesis_loop length].
    cbv beta iota delta [bind logger fs log ret export write_file].
    by rewrite <- !app_assoc.
  - unfold main_async, AIProcessor_init, initialize_client.
    rewrite Hpermits, Hclient, Hblank.
    cbv beta iota delta [bind try_except lift logger raise ret fs log truthy negb].
    by rewrite <- !app_assoc.
Qed.

Lemma empty_input_witness :
  (forall chunk_size, chunk_text [] chunk_size = [])
  /\ synthesize Sample.decode_wav Sample.encode_mp3 Sample.args
       Sample.env_second_fails "simplified.mp3" [] Sample.empty_world
     = (Return (),
        World (<["simplified.mp3" := []]> ∅)
              [(INFO, StartingTTS); (INFO, ChunkedForTTS 0);
               (INFO, TTSCompleted "simplified.mp3")])
  /\ main_async Sample.prompt Sample.markdown_ok Sample.encode_utf8
       Sample.decode_wav Sample.encode_mp3 Sample.args Sample.env_second_fails
       "simplified.md" "simplified.mp3" (py "  ") Sample.empty_world
     = (Raise (SystemExit 1),
        World ∅ [(INFO, ClientInitialized); (ERROR, NoTextExtracted)]).
Proof.
  apply (empty_input Sample.prompt Sample.markdown_ok Sample.encode_utf8
           Sample.decode_wav Sample.encode_mp3 Sample.args
           Sample.env_second_fails "simplified.md" "simplified.mp3" (py "  ")
           Sample.empty_world 107%N (py "ey") AsyncOpenAI_client);
    [reflexivity | reflexivity | simpl; lia | reflexivity].
Defined.

(** C5 as stated fails: [split_text_into_chunks] turns the empty string
    into one chunk, the empty string, and [main_async] ends an empty
    text with [SystemExit(1)]. *)
Lemma empty_text_is_not_an_empty_batch :
  split_text_into_chunks 7000 [] = [[]]
  /\ split_text_into_chunks 7000 [] <> []
  /\ fst (main_async Sample.prompt Sample.markdown_ok Sample.encode_utf8
            Sample.decode_wav Sample.encode_mp3 Sample.args
            Sample.env_second_fails "simplified.md" "simplified.mp3" []
            Sample.empty_world)
     = Raise (SystemExit 1).
Proof. split; [reflexivity|]. split; [discriminate|reflexivity]. Qed.

(** ** Per-unit audio files *)

(** C8 at two runs of the synthesis loop, both over the chunks ["a"]
    and ["b"], starting with no file.
    - Debug mode, both units synthesized within the same second: both
      succeed (the final audio has the samples of both), and the debug
      directory holds one file, the audio of the second unit.
    - Debug mode off, ffmpeg cannot be started: both units fail, and
      the MP3 of the last unit is still on disk when the loop ends. *)
Theorem per_unit_files_left_by_the_loop :
  synthesis_loop Sample.decode_wav Sample.tts Sample.env_second_fails
    (py "Scarlett") true 2 1 [py "a"; py "b"] [] Sample.empty_world
  = (Return [1; 2],
     World {[ "tts_audio/response_20240101_120000.wav" := [2%N] ]}
           [(INFO, SynthesizingChunk 1 2);
            (INFO, SavedTTSAudio "tts_audio/response_20240101_120000.wav");
            (INFO, SynthesizingChunk 2 2);
            (INFO, SavedTTSAudio "tts_audio/response_20240101_120000.wav")])
  /\ synthesis_loop Sample.decode_wav Sample.tts Sample.env_no_ffmpeg
       (py "Scarlett") false 2 1 [py "a"; py "b"] [] Sample.empty_world
     = (Return [],
        World {[ temp_mp3_file := [1%N; 2%N] ]}
              [(INFO, SynthesizingChunk 1 2);
               (ERROR, ServiceError (FileNotFoundError "ffmpeg"));
               (ERROR, ErrorSynthesizingChunk 1);
               (INFO, SynthesizingChunk 2 2);
               (ERROR, ServiceError (FileNotFoundError "ffmpeg"));
               (ERROR, ErrorSynthesizingChunk 2)]).
Proof. split; vm_compute; reflexivity. Qed.

(* ------------------------------------------------------------------ *)
(** * Further properties of the code *)

(** ** [format_final_markdown] *)

Section FormatFacts.

Lemma repeat_snoc_app {X} (x : X) k l : repeat x (S k) ++ l = repeat x k ++ x :: l.
Proof.
  change (repeat x (S k)) with (x :: repeat x k).
  by rewrite repeat_cons, <- app_assoc.
Qed.

Lemma has_triple_newline_suffix a b :
  has_triple_newline b -> has_triple_newline (a ++ b).
Proof.
  intros (before & after & ->). exists (a ++ before), after.
  by rewrite <- app_assoc.
Qed.

Lemma collapse_newlines_fixed s : forall k,
  (k <= 2)%nat ->
  ~ has_triple_newline (repeat NEWLINE k ++ s) ->
  collapse_newlines k s = repeat NEWLINE k ++ s.
Proof.
  induction s as [|c tl IH]; intros k Hk Hno; simpl.
  - unfold emit_newlines. rewrite Nat.min_l by done. by rewrite app_nil_r.
  - destruct (c =? NEWLINE)%N eqn:Hc.
    + apply N.eqb_eq in Hc. subst c.
      assert (k <> 2%nat).
      { intros ->. apply Hno. by exists [], tl. }
      rewrite IH; [apply repeat_snoc_app | lia |].
      by rewrite repeat_snoc_app.
    + unfold emit_newlines. rewrite Nat.min_l by done.
      rewrite (IH 0%nat); [done | lia |].
      intros H. apply Hno.
      apply has_triple_newline_suffix.
      by apply (has_triple_newline_suffix [c]).
Qed.

Lemma collapse_newlines_length s : forall k,
  (length (collapse_newlines k s) <= Nat.min k 2 + length s)%nat.
Proof.
  induction s as [|c tl IH]; intros k; simpl.
  - unfold emit_newlines. rewrite repeat_length. lia.
  - destruct (c =? NEWLINE)%N.
    + specialize (IH (S k)). lia.
    + rewrite length_app. unfold emit_newlines. rewrite repeat_length. simpl.
      specialize (IH 0%nat). simpl in IH. lia.
Qed.

Definition without_newlines (s : str) : str :=
  List.filter (fun c => negb (c =? NEWLINE)%N) s.

Lemma without_newlines_repeat k : without_newlines (repeat NEWLINE k) = [].
Proof. induction k as [|k IH]; [done|]. exact IH. Qed.

Lemma collapse_newlines_content s : forall k,
  without_newlines (collapse_newlines k s) = without_newlines s.
Proof.
  induction s as [|c tl IH]; intros k; simpl.
  - apply without_newlines_repeat.
  - destruct (c =? NEWLINE)%N eqn:Hc; simpl; [apply IH|].
    unfold without_newlines at 1. rewrite List.filter_app.
    fold (without_newlines (emit_newlines k)).
    unfold emit_newlines. rewrite without_newlines_repeat. simpl.
    rewrite Hc. simpl. f_equal. apply IH.
Qed.

End FormatFacts.

(** X1. [format_final_markdown] changes a text exactly when the text
    has three newlines in a row. *)
Theorem format_final_markdown_fixed_points (s : str) :
  format_final_markdown s = s <-> ~ has_triple_newline s.
Proof.
  unfold format_final_markdown. split.
  - intros Heq (before & after & H). rewrite <- Heq in H.
    exact (collapse_newlines_no_triple _ _ _ _ H).
  - intros Hno. apply (collapse_newlines_fixed s 0); [lia | exact Hno].
Qed.

(** X2. [format_final_markdown] only deletes newlines: the result is
    never longer than the text, and the characters other than newline
    are the same, in the same order. *)
Theorem format_final_markdown_only_deletes_newlines (s : str) :
  (length (format_final_markdown s) <= length s)%nat
  /\ List.filter (fun c => negb (c =? NEWLINE)%N) (format_final_markdown s)
     = List.filter (fun c => negb (c =? NEWLINE)%N) s.
Proof.
  unfold format_final_markdown. split.
  - apply (collapse_newlines_length s 0).
  - apply collapse_newlines_content.
Qed.

(** ** [sanitize_filename] *)

Section SanitizeFacts.

Lemma lower_alnum_not_underscore c :
  is_lower_alnum c = true -> (c =? UNDERSCORE)%N = false.
Proof.
  unfold is_lower_alnum, UNDERSCORE. intros H. apply N.eqb_neq. intros ->.
  discriminate H.
Qed.

Lemma underscore_runs_chars s : forall b,
  forallb is_name_char (underscore_runs b s) = true.
Proof.
  induction s as [|c tl IH]; intros b; simpl; [done|].
  destruct (is_lower_alnum c) eqn:Hc; simpl.
  - unfold is_name_char at 1. by rewrite Hc, IH.
  - destruct b; simpl; by rewrite ?IH.
Qed.

Lemma no_double_underscore_cons c s :
  no_double_underscore (c :: s)
  = negb ((c =? UNDERSCORE)%N && starts_with_underscore s)
    && no_double_underscore s.
Proof. destruct s as [|d s]; simpl; by rewrite ?andb_false_r. Qed.

Lemma underscore_runs_no_double s : forall b,
  no_double_underscore (underscore_runs b s) = true
  /\ (b = true -> starts_with_underscore (underscore_runs b s) = false).
Proof.
  induction s as [|c tl IH]; intros b; simpl; [done|].
  destruct (is_lower_alnum c) eqn:Hc.
  - pose proof (lower_alnum_not_underscore c Hc) as Hu.
    rewrite no_double_underscore_cons, Hu. simpl.
    split; [apply IH | done].
  - destruct b.
    + apply IH.
    + rewrite no_double_underscore_cons.
      destruct (IH true) as [Hd Hs]. rewrite Hd, (Hs eq_refl).
      by rewrite andb_false_r.
Qed.

Lemma lstrip_underscores_parts s :
  exists k, s = repeat UNDERSCORE k ++ lstrip_underscores s
            /\ starts_with_underscore (lstrip_underscores s) = false.
Proof.
  induction s as [|c tl (k & Hk & Hs)]; [by exists 0%nat|]. simpl.
  destruct (c =? UNDERSCORE)%N eqn:Hc.
  - apply N.eqb_eq in Hc. subst c. exists (S k). simpl. by rewrite <- Hk.
  - exists 0%nat. simpl. by rewrite Hc.
Qed.

Lemma lstrip_underscores_fixed s :
  starts_with_underscore s = false -> lstrip_underscores s = s.
Proof. destruct s as [|c tl]; simpl; [done|]. by intros ->. Qed.

Lemma strip_underscores_parts s :
  exists pre post,
    s = pre ++ strip_underscores s ++ post
    /\ starts_with_underscore (strip_underscores s) = false
    /\ starts_with_underscore (rev (strip_underscores s)) = false.
Proof.
  unfold strip_underscores.
  destruct (lstrip_underscores_parts s) as (k & Hk & Hs).
  destruct (lstrip_underscores_parts (rev (lstrip_underscores s)))
    as (k' & Hk' & Hs').
  set (t := lstrip_underscores s) in *.
  set (t' := lstrip_underscores (rev t)) in *.
  assert (Ht : t = rev t' ++ rev (repeat UNDERSCORE k')).
  { rewrite <- rev_app_distr, <- Hk'. by rewrite rev_involutive. }
  exists (repeat UNDERSCORE k), (rev (repeat UNDERSCORE k')).
  split; [by rewrite <- Ht|]. split; [|by rewrite rev_involutive].
  destruct (rev t') as [|c r] eqn:Hr; [done|].
  rewrite Ht in Hs. exact Hs.
Qed.

Lemma no_double_underscore_app a b :
  no_double_underscore (a ++ b) = true ->
  no_double_underscore a = true /\ no_double_underscore b = true.
Proof.
  induction a as [|c a IH]; [done|].
  change ((c :: a) ++ b) with (c :: a ++ b).
  rewrite !no_double_underscore_cons.
  intros [Hh Ht]%andb_true_iff. destruct (IH Ht) as [Ha Hb].
  split; [|done]. rewrite Ha, andb_true_r.
  destruct a as [|d a]; [by rewrite andb_false_r | exact Hh].
Qed.

Lemma sanitized_is_safe str_lower filename :
  is_safe_name (sanitize_filename str_lower filename) = true.
Proof.
  unfold sanitize_filename.
  set (u := underscore_runs false _).
  destruct (strip_underscores_parts u) as (pre & post & Hu & Hs & He).
  pose proof (underscore_runs_chars (remove_extension (str_lower filename)) false)
    as Hchars.
  destruct (underscore_runs_no_double
              (remove_extension (str_lower filename)) false) as [Hnd _].
  fold u in Hchars, Hnd. rewrite Hu in Hchars, Hnd.
  rewrite !forallb_app in Hchars.
  apply andb_true_iff in Hchars as [_ [Hc _]%andb_true_iff].
  apply no_double_underscore_app in Hnd as [_ Hnd].
  apply no_double_underscore_app in Hnd as [Hnd _].
  unfold is_safe_name. by rewrite Hc, Hs, He, Hnd.
Qed.

(** A safe name is left alone by every step. *)
Lemma name_char_lower_ascii c : is_name_char c = true -> is_lower_ascii c = true.
Proof.
  unfold is_name_char, is_lower_alnum, is_lower_ascii, UNDERSCORE.
  rewrite !orb_true_iff, !andb_true_iff, negb_true_iff, andb_false_iff,
    !N.leb_le, N.ltb_lt, N.eqb_eq, !N.leb_gt.
  lia.
Qed.

Lemma drop_prefix_ignorecase_needs pat : forall s rest p,
  drop_prefix_ignorecase pat s = Some rest ->
  In p pat -> exists c, In c s /\ matches_ignorecase p c = true.
Proof.
  induction pat as [|q pat IH]; intros s rest p Hd Hin; [done|].
  destruct s as [|c s]; [done|]. simpl in Hd.
  destruct (matches_ignorecase q c) eqn:Hm; [|done].
  destruct Hin as [->|Hin].
  - exists c. split; [by left | done].
  - destruct (IH s rest p Hd Hin) as (c' & Hc' & Hm'). exists c'.
    split; [by right | done].
Qed.

Lemma no_extension_without_dot s :
  forallb is_name_char s = true -> first_match extensions s = None.
Proof.
  intros Hs.
  assert (Hnone : forall pat, In DOT pat -> drop_suffix_ignorecase pat s = None).
  { intros pat Hdot. unfold drop_suffix_ignorecase.
    destruct (drop_prefix_ignorecase (rev pat) (rev s)) as [rest|] eqn:Hd; [|done].
    destruct (drop_prefix_ignorecase_needs _ _ _ DOT Hd) as (c & Hc & Hm).
    { by apply in_rev in Hdot. }
    apply in_rev in Hc. rewrite forallb_forall in Hs. specialize (Hs c Hc).
    unfold matches_ignorecase in Hm. simpl in Hm. apply N.eqb_eq in Hm.
    subst c. discriminate Hs. }
  unfold extensions, first_match.
  rewrite !Hnone; [done|..]; vm_compute; auto.
Qed.

Lemma remove_extension_fixed s :
  forallb is_name_char s = true -> remove_extension s = s.
Proof.
  intros Hs. unfold remove_extension.
  rewrite (no_extension_without_dot s Hs).
  destruct (rev s) as [|c before] eqn:Hr; [done|].
  assert (Hc : is_name_char c = true).
  { rewrite forallb_forall in Hs. apply Hs, in_rev. rewrite Hr. by left. }
  destruct (c =? NEWLINE)%N eqn:Hn; [|done].
  apply N.eqb_eq in Hn. subst c. discriminate Hc.
Qed.

Lemma underscore_runs_fixed s : forall b,
  forallb is_name_char s = true ->
  no_double_underscore s = true ->
  (b = true -> starts_with_underscore s = false) ->
  underscore_runs b s = s.
Proof.
  induction s as [|c tl IH]; intros b Hc Hd Hb; [done|].
  simpl in Hc. apply andb_true_iff in Hc as [Hc Htl].
  rewrite no_double_underscore_cons in Hd.
  apply andb_true_iff in Hd as [Hh Hd]. simpl.
  destruct (is_lower_alnum c) eqn:Ha.
  - f_equal. apply IH; [done..|discriminate].
  - unfold is_name_char in Hc. rewrite Ha in Hc. simpl in Hc.
    rewrite Hc in Hh. simpl in Hh, Hb. rewrite Hc in Hb.
    destruct b; [by specialize (Hb eq_refl)|].
    apply N.eqb_eq in Hc. subst c. f_equal.
    apply IH; [done..|]. intros _. by apply negb_true_iff in Hh.
Qed.

Lemma strip_underscores_fixed s :
  starts_with_underscore s = false ->
  starts_with_underscore (rev s) = false ->
  strip_underscores s = s.
Proof.
  intros Hs He. unfold strip_underscores.
  by rewrite (lstrip_underscores_fixed s Hs), (lstrip_underscores_fixed _ He),
    rev_involutive.
Qed.

Lemma safe_name_parts s :
  is_safe_name s = true ->
  forallb is_name_char s = true
  /\ starts_with_underscore s = false
  /\ starts_with_underscore (rev s) = false
  /\ no_double_underscore s = true.
Proof.
  unfold is_safe_name. rewrite !andb_true_iff, !negb_true_iff. tauto.
Qed.

Lemma remove_extension_appended stem ext :
  In ext extensions -> remove_extension (stem ++ ext) = stem.
Proof.
  intros [<-|[<-|[<-|[]]]]; unfold remove_extension;
    rewrite rev_app_distr; simpl;
    unfold drop_suffix_ignorecase; rewrite rev_app_distr; simpl;
    by rewrite rev_involutive.
Qed.

Variable str_lower : str -> str.
Hypothesis lower_keeps_lower_ascii : forall s,
  forallb is_lower_ascii s = true -> str_lower s = s.

Lemma lower_fixed s : forallb is_name_char s = true -> str_lower s = s.
Proof using lower_keeps_lower_ascii.
  intros Hs. apply lower_keeps_lower_ascii.
  rewrite forallb_forall in *. intros c Hc. by apply name_char_lower_ascii, Hs.
Qed.

Lemma sanitize_safe_name s :
  is_safe_name s = true -> sanitize_filename str_lower s = s.
Proof using lower_keeps_lower_ascii.
  intros (Hc & Hs & He & Hd)%safe_name_parts. unfold sanitize_filename.
  rewrite (lower_fixed s Hc), (remove_extension_fixed s Hc).
  rewrite (underscore_runs_fixed s false Hc Hd) by done.
  by apply strip_underscores_fixed.
Qed.

Lemma sanitize_safe_name_ext stem ext :
  is_safe_name stem = true -> In ext extensions ->
  sanitize_filename str_lower (stem ++ ext) = stem.
Proof using lower_keeps_lower_ascii.
  intros Hsafe Hext.
  destruct (safe_name_parts stem Hsafe) as (Hc & Hs & He & Hd).
  unfold sanitize_filename.
  assert (str_lower (stem ++ ext) = stem ++ ext) as ->.
  { apply lower_keeps_lower_ascii. rewrite forallb_app. apply andb_true_iff.
    split.
    - rewrite forallb_forall in *. intros c Hin.
      by apply name_char_lower_ascii, Hc.
    - by destruct Hext as [<-|[<-|[<-|[]]]]. }
  rewrite (remove_extension_appended stem ext Hext).
  rewrite (underscore_runs_fixed stem false Hc Hd) by done.
  by apply strip_underscores_fixed.
Qed.

End SanitizeFacts.

Lemma ascii_lower_keeps_lower_ascii s :
  forallb is_lower_ascii s = true -> ascii_lower s = s.
Proof.
  induction s as [|c s IH]; [done|]. simpl.
  intros [Hc Hs]%andb_true_iff. rewrite (IH Hs). f_equal.
  unfold is_lower_ascii in Hc. apply andb_true_iff in Hc as [_ Hc].
  apply negb_true_iff in Hc. by rewrite Hc.
Qed.

(** X3. Whatever the file name and whatever [str.lower] does with it,
    [sanitize_filename] returns a name made of [a-z], [0-9] and [_]
    that neither starts nor ends with [_] and has no two [_] in a
    row. *)
Theorem sanitize_filename_is_safe (str_lower : str -> str) (filename : str) :
  is_safe_name (sanitize_filename str_lower filename) = true.
Proof. apply sanitized_is_safe. Qed.

(** X4. Given that [str.lower] leaves lower-case ASCII text unchanged:
    a name that is already safe is returned as it is, also when one of
    the extensions [.pdf], [.md], [.markdown] is appended to it, and
    [sanitize_filename] is idempotent. *)
Theorem sanitize_filename_fixed_points (str_lower : str -> str) :
  (forall s, forallb is_lower_ascii s = true -> str_lower s = s) ->
  (forall name, is_safe_name name = true ->
     sanitize_filename str_lower name = name
     /\ forall ext, In ext extensions ->
          sanitize_filename str_lower (name ++ ext) = name)
  /\ forall filename,
       sanitize_filename str_lower (sanitize_filename str_lower filename)
       = sanitize_filename str_lower filename.
Proof.
  intros Hlower. split.
  - intros name Hsafe. split.
    + by apply sanitize_safe_name.
    + intros ext Hext. by apply sanitize_safe_name_ext.
  - intros filename. apply sanitize_safe_name; [done|].
    apply sanitized_is_safe.
Qed.

Lemma sanitize_filename_fixed_points_witness :
  (forall name, is_safe_name name = true ->
     sanitize_filename ascii_lower name = name
     /\ forall ext, In ext extensions ->
          sanitize_filename ascii_lower (name ++ ext) = name)
  /\ forall filename,
       sanitize_filename ascii_lower (sanitize_filename ascii_lower filename)
       = sanitize_filename ascii_lower filename.
Proof.
  apply (sanitize_filename_fixed_points ascii_lower).
  exact ascii_lower_keeps_lower_ascii.
Defined.

(** ** [_post_process_markdown] *)

Section PostProcessFacts.

Lemma lines_not_nil s : lines s <> [].
Proof.
  destruct s as [|c tl]; simpl; [done|].
  destruct (c =? NEWLINE)%N; [done|]. by destruct (lines tl).
Qed.

Lemma join_cons_more sep x y l :
  join sep (x :: y :: l) = x ++ sep ++ join sep (y :: l).
Proof. done. Qed.

Lemma join_lines s : join [NEWLINE] (lines s) = s.
Proof.
  induction s as [|c tl IH]; [done|]. simpl.
  pose proof (lines_not_nil tl) as Hne.
  destruct (c =? NEWLINE)%N eqn:Hc.
  - apply N.eqb_eq in Hc. subst c.
    destruct (lines tl) as [|p rest]; [done|].
    rewrite join_cons_more, IH. done.
  - destruct (lines tl) as [|p rest]; [done|]. simpl cons_head.
    destruct rest as [|q rest].
    + simpl in *. by rewrite IH.
    + rewrite join_cons_more. rewrite join_cons_more in IH.
      by rewrite <- IH.
Qed.

Lemma lines_one_line l : one_line l -> lines l = [l].
Proof.
  unfold one_line. induction l as [|c l IH]; [done|]. simpl.
  intros [Hc Hl]%andb_true_iff. apply negb_true_iff in Hc.
  by rewrite Hc, (IH Hl).
Qed.

Lemma lines_app_newline l rest :
  one_line l -> lines (l ++ NEWLINE :: rest) = l :: lines rest.
Proof.
  unfold one_line. induction l as [|c l IH]; [done|]. simpl.
  intros [Hc Hl]%andb_true_iff. apply negb_true_iff in Hc.
  by rewrite Hc, (IH Hl).
Qed.

Lemma lines_join ls :
  ls <> [] -> Forall one_line ls -> lines (join [NEWLINE] ls) = ls.
Proof.
  induction ls as [|l ls IH]; [done|]. intros _ Hall.
  apply Forall_cons in Hall as [Hl Hls].
  destruct ls as [|l' ls].
  - by apply lines_one_line.
  - rewrite join_cons_more. simpl app.
    rewrite (lines_app_newline _ _ Hl). f_equal. by apply IH.
Qed.

Lemma lines_are_one_line s : Forall one_line (lines s).
Proof.
  induction s as [|c tl IH]; simpl.
  - by repeat constructor.
  - destruct (c =? NEWLINE)%N eqn:Hc.
    + by constructor.
    + destruct (lines tl) as [|p rest]; simpl.
      * constructor; [|done]. unfold one_line. simpl. by rewrite Hc.
      * apply Forall_cons in IH as [Hp Hrest]. constructor; [|done].
        unfold one_line in *. simpl. by rewrite Hc.
Qed.

Lemma post_process_line_one_line l : one_line l -> one_line (post_process_line l).
Proof. unfold post_process_line. by destruct (is_rule l). Qed.

Lemma post_process_line_not_rule l : is_rule (post_process_line l) = false.
Proof. unfold post_process_line. by destruct (is_rule l) eqn:Hl. Qed.

Lemma post_process_line_fixed l :
  post_process_line l = l <-> is_rule l = false.
Proof.
  unfold post_process_line. destruct (is_rule l) eqn:Hl; [|done].
  split; [|done]. intros <-. done.
Qed.

Lemma lines_post_process s :
  lines (_post_process_markdown s) = List.map post_process_line (lines s).
Proof.
  unfold _post_process_markdown. apply lines_join.
  - pose proof (lines_not_nil s). by destruct (lines s).
  - pose proof (lines_are_one_line s) as H.
    induction H; simpl; constructor; [by apply post_process_line_one_line|done].
Qed.

Lemma map_fixed {A} (f : A -> A) (l : list A) :
  List.map f l = l <-> Forall (fun x => f x = x) l.
Proof.
  induction l as [|x l IH]; simpl.
  - split; [constructor | done].
  - split.
    + intros H. injection H as Hx Hl. constructor; [done | by apply IH].
    + intros [Hx Hl]%Forall_cons. rewrite Hx. f_equal. by apply IH.
Qed.

End PostProcessFacts.

(** X5. [_post_process_markdown] works line by line: the result has as
    many lines as the text, a line of three or more [=] and nothing
    else has become [#], every other line is unchanged, and no line of
    the result is such a rule any more. *)
Theorem post_process_line_by_line (s : str) :
  lines (_post_process_markdown s) = List.map post_process_line (lines s)
  /\ length (lines (_post_process_markdown s)) = length (lines s)
  /\ Forall (fun l => is_rule l = false) (lines (_post_process_markdown s)).
Proof.
  rewrite lines_post_process. split; [done|]. split.
  - by rewrite length_map.
  - induction (lines s); simpl; constructor;
      [apply post_process_line_not_rule | done].
Qed.

(** X6. [_post_process_markdown] returns the text unchanged exactly
    when no line of it is a rule of three or more [=], and applying it
    twice is the same as applying it once. *)
Theorem post_process_fixed_points (s : str) :
  (_post_process_markdown s = s <-> Forall (fun l => is_rule l = false) (lines s))
  /\ _post_process_markdown (_post_process_markdown s) = _post_process_markdown s.
Proof.
  assert (Hfix : forall t,
    _post_process_markdown t = t <-> Forall (fun l => is_rule l = false) (lines t)).
  { intros t. split.
    - intros H. pose proof (lines_post_process t) as Hl. rewrite H in Hl.
      symmetry in Hl. apply map_fixed in Hl.
      eapply Forall_impl; [exact Hl|]. intros l. apply post_process_line_fixed.
    - intros H. unfold _post_process_markdown.
      assert (List.map post_process_line (lines t) = lines t) as ->.
      { apply map_fixed. eapply Forall_impl; [exact H|].
        intros l. apply post_process_line_fixed. }
      apply join_lines. }
  split; [apply Hfix|]. apply Hfix.
  rewrite lines_post_process.
  induction (lines s); simpl; constructor;
    [apply post_process_line_not_rule | done].
Qed.

(** ** More on the two chunkers *)

Section ChunkShape.

Definition starts_with_space (s : str) : bool :=
  match s with c :: _ => isspace c | [] => false end.

Lemma lstrip_parts s :
  exists sp, s = sp ++ lstrip s /\ starts_with_space (lstrip s) = false.
Proof.
  induction s as [|c tl (sp & Hsp & Hs)]; [by exists []|]. simpl.
  destruct (isspace c) eqn:Hc.
  - exists (c :: sp). simpl. by rewrite <- Hsp.
  - exists []. simpl. by rewrite Hc.
Qed.

Lemma lstrip_fixed s : starts_with_space s = false -> lstrip s = s.
Proof. destruct s as [|c tl]; simpl; [done|]. by intros ->. Qed.

Lemma strip_strip s : strip (strip s) = strip s.
Proof.
  unfold strip, rstrip.
  destruct (lstrip_parts s) as (sp & _ & Hs).
  destruct (lstrip_parts (rev (lstrip s))) as (sp' & Hsp' & Hs').
  set (a := lstrip s) in *. set (b := lstrip (rev a)) in *.
  assert (Ha : a = rev b ++ rev sp').
  { rewrite <- rev_app_distr, <- Hsp'. by rewrite rev_involutive. }
  assert (Hb : starts_with_space (rev b) = false).
  { destruct (rev b) as [|c r] eqn:Hr; [done|]. rewrite Ha in Hs. exact Hs. }
  by rewrite (lstrip_fixed _ Hb), rev_involutive, (lstrip_fixed _ Hs').
Qed.

Lemma join_words_nonempty w ws : w <> [] -> join [SPACE] (w :: ws) <> [].
Proof. destruct w; [done|]. by destruct ws. Qed.

(** The sum the word loop keeps in [current_length]. *)
Definition total_length (l : list str) : Z :=
  fold_right (fun w acc => len w + 1 + acc) 0 l.

Lemma total_length_join l :
  l <> [] -> total_length l = len (join [SPACE] l) + 1.
Proof.
  induction l as [|w l IH]; [done|]. intros _.
  destruct l as [|w' l]; [simpl; lia|].
  rewrite join_cons_more, !len_app.
  change (total_length (w :: w' :: l)) with (len w + 1 + total_length (w' :: l)).
  rewrite IH by done. change (len [SPACE]) with 1. lia.
Qed.

Variable size : Z.

Lemma word_loop_shape : forall l chunks cur n,
  Forall is_word l -> Forall is_word cur ->
  (chunks <> [] -> cur <> []) ->
  Forall (fun c => c <> []) (tail chunks) ->
  match fold_left (word_step size) l (chunks, cur, n) with
  | (chunks', cur', _) =>
      Forall is_word cur' /\ (chunks' <> [] -> cur' <> [])
      /\ Forall (fun c => c <> []) (tail chunks')
  end.
Proof.
  induction l as [|w l IH]; intros chunks cur n Hl Hcur Hne Htl; [done|].
  apply Forall_cons in Hl as [Hw Hl]. cbn [fold_left]. unfold word_step at 2.
  destruct (n + len w + 1 >? size).
  - apply IH; [done | by constructor | done |].
    destruct chunks as [|c chunks]; [by constructor|]. simpl in *.
    apply Forall_app. split; [done|]. constructor; [|done].
    destruct cur as [|w' cur]; [by destruct Hne|].
    apply Forall_cons in Hcur as [[Hw' _] _]. by apply join_words_nonempty.
  - apply IH; [done | | | done].
    + apply Forall_app. split; [done | by constructor].
    + intros _. by destruct cur.
Qed.

Lemma word_loop_fits : forall l chunks cur n,
  n + total_length l <= size ->
  fold_left (word_step size) l (chunks, cur, n)
  = (chunks, cur ++ l, n + total_length l).
Proof.
  induction l as [|w l IH]; intros chunks cur n Hfit.
  - simpl. by rewrite app_nil_r, Z.add_0_r.
  - cbn [fold_left]. unfold word_step at 2.
    change (total_length (w :: l)) with (len w + 1 + total_length l) in *.
    assert (0 <= total_length l).
    { clear. induction l as [|x l IH]; [done|].
      change (total_length (x :: l)) with (len x + 1 + total_length l).
      pose proof (len_nonneg x). lia. }
    destruct (n + len w + 1 >? size) eqn:Hc; [lia|].
    rewrite IH by lia. rewrite <- app_assoc. simpl. f_equal. lia.
Qed.

Lemma word_loop_grows : forall l chunks cur n,
  match fold_left (word_step size) l (chunks, cur, n) with
  | (chunks', cur', _) =>
      (length chunks <= length chunks')%nat /\ (cur <> [] -> cur' <> [])
  end.
Proof.
  induction l as [|w l IH]; intros chunks cur n; [done|].
  cbn [fold_left]. unfold word_step at 2.
  destruct (n + len w + 1 >? size).
  - specialize (IH (chunks ++ [join [SPACE] cur]) [w] (len w)).
    destruct (fold_left _ _ _) as [[chunks' cur'] n'].
    rewrite length_app in IH. simpl in IH. destruct IH as [Hlen Hcur].
    split; [lia|]. intros _. by apply Hcur.
  - specialize (IH chunks (cur ++ [w]) (n + (len w + 1))).
    destruct (fold_left _ _ _) as [[chunks' cur'] n'].
    destruct IH as [Hlen Hcur]. split; [done|]. intros _. apply Hcur.
    by destruct cur.
Qed.

Lemma word_loop_overflows : forall l chunks cur n,
  l <> [] -> size < n + total_length l ->
  match fold_left (word_step size) l (chunks, cur, n) with
  | (chunks', cur', _) => (length chunks < length chunks')%nat /\ cur' <> []
  end.
Proof.
  induction l as [|w l IH]; intros chunks cur n Hne Hover; [done|].
  cbn [fold_left]. unfold word_step at 2.
  change (total_length (w :: l)) with (len w + 1 + total_length l) in *.
  destruct (n + len w + 1 >? size) eqn:Hc.
  - pose proof (word_loop_grows l (chunks ++ [join [SPACE] cur]) [w] (len w)) as H.
    destruct (fold_left _ _ _) as [[chunks' cur'] n'].
    rewrite length_app in H. simpl in H. destruct H as [Hlen Hcur].
    split; [lia | by apply Hcur].
  - destruct l as [|w' l]; [simpl in Hover; lia|].
    apply IH; [done | lia].
Qed.

Variable max_chunk_size : Z.

Lemma sentence_loop_fits : forall l chunks cc,
  len cc + total_length l <= max_chunk_size ->
  fold_left (sentence_step max_chunk_size) l (chunks, cc)
  = (chunks, cc ++ with_spaces l).
Proof.
  induction l as [|s l IH]; intros chunks cc Hfit.
  - simpl. by rewrite app_nil_r.
  - cbn [fold_left]. unfold sentence_step at 2.
    change (total_length (s :: l)) with (len s + 1 + total_length l) in *.
    assert (0 <= total_length l).
    { clear. induction l as [|x l IH]; [done|].
      change (total_length (x :: l)) with (len x + 1 + total_length l).
      pose proof (len_nonneg x). lia. }
    destruct (len cc + len s + 1 <=? max_chunk_size) eqn:Hc; [|lia].
    rewrite IH.
    + unfold with_spaces. simpl. by rewrite <- !app_assoc.
    + rewrite !len_app. change (len [SPACE]) with 1. lia.
Qed.

Lemma join_cons_head c ps :
  ps <> [] -> join [SPACE] (cons_head c ps) = c :: join [SPACE] ps.
Proof. destruct ps as [|p [|q ps]]; done. Qed.

Lemma pieces_join_length text : forall st,
  len (join [SPACE] (pieces st text)) <= len text.
Proof.
  unfold len.
  induction text as [|c tl IH]; intros st; [by destruct st|].
  assert (Hcons : forall st',
    (length (join [SPACE] (cons_head c (pieces st' tl))) <= length (c :: tl))%nat).
  { intros st'. rewrite join_cons_head by apply pieces_not_nil. simpl.
    specialize (IH st'). lia. }
  assert (Hsep :
    (length (join [SPACE] ([] :: pieces InSeparator tl)) <= length (c :: tl))%nat).
  { pose proof (pieces_not_nil InSeparator tl).
    destruct (pieces InSeparator tl) as [|p ps] eqn:Hp; [done|].
    rewrite join_cons_more. simpl. specialize (IH InSeparator).
    rewrite Hp in IH. simpl in IH. lia. }
  simpl pieces. destruct st as [|after_end].
  - destruct (c =? SPACE)%N.
    + specialize (IH InSeparator). simpl. lia.
    + specialize (Hcons (InPiece (is_sentence_end c))). lia.
  - destruct (after_end && (c =? SPACE)%N).
    + lia.
    + specialize (Hcons (InPiece (is_sentence_end c))). lia.
Qed.

End ChunkShape.

(** X7. For every size and every text, [split_text_into_chunks]
    returns at least one chunk, and no chunk has whitespace at either
    end: each is its own [strip]. *)
Theorem split_text_into_chunks_stripped (max_chunk_size : Z) (text : str) :
  split_text_into_chunks max_chunk_size text <> []
  /\ Forall (fun c => strip c = c) (split_text_into_chunks max_chunk_size text).
Proof.
  destruct (split_text_into_chunks_groups max_chunk_size text)
    as (groups & Hcat & _ & ->).
  split.
  - destruct groups as [|g groups]; [|done].
    simpl in Hcat. symmetry in Hcat. by apply pieces_not_nil in Hcat.
  - clear Hcat. induction groups as [|g groups IH]; simpl; constructor;
      [apply strip_strip | done].
Qed.

(** X8. [chunk_text] returns no chunk exactly when the text has no
    word; every chunk is a sequence of words separated by single
    spaces; and only the first chunk can be empty. *)
Theorem chunk_text_shape (text : str) (chunk_size : Z) :
  (chunk_text text chunk_size = [] <-> split text = [])
  /\ Forall (fun c => join [SPACE] (split c) = c) (chunk_text text chunk_size)
  /\ Forall (fun c => c <> []) (tail (chunk_text text chunk_size)).
Proof.
  split; [|split].
  - destruct (chunk_text_groups chunk_size text) as (groups & Hcat & Heq).
    split.
    + intros H. rewrite H in Heq. destruct groups; [by rewrite <- Hcat | done].
    + intros H. unfold chunk_text. by rewrite H.
  - destruct (chunk_text_groups chunk_size text) as (groups & Hcat & ->).
    pose proof (split_words text) as Hw. rewrite <- Hcat in Hw. clear Hcat.
    induction groups as [|g groups IH]; simpl; [done|].
    simpl in Hw. apply Forall_app in Hw as [Hg Hgs].
    constructor; [|by apply IH]. by rewrite split_join.
  - unfold chunk_text.
    pose proof (word_loop_shape chunk_size (split text) [] [] 0
                  (split_words text)) as H.
    destruct (fold_left _ _ _) as [[chunks cur] n].
    destruct H as (Hcur & Hne & Htl); [done..|].
    destruct cur as [|w cur]; [done|].
    destruct chunks as [|c chunks]; [done|]. simpl in *.
    apply Forall_app. split; [done|]. constructor; [|done].
    apply Forall_cons in Hcur as [[Hw _] _]. by apply join_words_nonempty.
Qed.

(** X9. A text with at least one word gives a single chunk, all its
    words joined by single spaces, when that chunk and one more
    character fit in [chunk_size]; otherwise [chunk_text] returns two
    chunks or more. *)
Theorem chunk_text_single_chunk (text : str) (chunk_size : Z) :
  split text <> [] ->
  (len (join [SPACE] (split text)) + 1 <= chunk_size ->
     chunk_text text chunk_size = [join [SPACE] (split text)])
  /\ (chunk_size < len (join [SPACE] (split text)) + 1 ->
     (2 <= length (chunk_text text chunk_size))%nat).
Proof.
  intros Hne. pose proof (total_length_join (split text) Hne) as Htot.
  unfold chunk_text. split; intros H.
  - rewrite word_loop_fits by lia. simpl app.
    by destruct (split text).
  - pose proof (word_loop_overflows chunk_size (split text) [] [] 0 Hne) as Ho.
    destruct (fold_left _ _ _) as [[chunks cur] n].
    destruct Ho as [Hlen Hcur]; [lia|].
    destruct cur as [|w cur]; [done|]. rewrite length_app. simpl in *. lia.
Qed.

Lemma chunk_text_single_chunk_witness :
  chunk_text (py "ab cd") 6 = [join [SPACE] (split (py "ab cd"))]
  /\ (2 <= length (chunk_text (py "ab cd") 5))%nat.
Proof.
  assert (Hne : split (py "ab cd") <> []) by (vm_compute; discriminate).
  split.
  - apply (proj1 (chunk_text_single_chunk (py "ab cd") 6 Hne)).
    vm_compute. discriminate.
  - apply (proj2 (chunk_text_single_chunk (py "ab cd") 5 Hne)).
    vm_compute. reflexivity.
Defined.

(** X10. A text that, with one more character, fits in
    [max_chunk_size] is returned by [split_text_into_chunks] as one
    chunk: its sentences joined by single spaces, stripped. *)
Theorem split_text_into_chunks_single_chunk (max_chunk_size : Z) (text : str) :
  len text + 1 <= max_chunk_size ->
  split_text_into_chunks max_chunk_size text
  = [strip (join [SPACE] (re_split_sentences text))].
Proof.
  intros Hfit. unfold split_text_into_chunks.
  pose proof (pieces_not_nil (InPiece false) text) as Hne.
  pose proof (pieces_join_length text (InPiece false)) as Hlen.
  fold (re_split_sentences text) in Hne, Hlen.
  pose proof (total_length_join _ Hne) as Htot.
  rewrite sentence_loop_fits by (change (len []) with 0; lia).
  simpl app. unfold with_spaces. rewrite (concat_with_space _ Hne).
  unfold flush.
  destruct (join [SPACE] (re_split_sentences text) ++ [SPACE]) eqn:Hj.
  - by destruct (join [SPACE] (re_split_sentences text)).
  - simpl truthy. cbv iota. rewrite <- Hj. by rewrite strip_app_space.
Qed.

Lemma split_text_into_chunks_single_chunk_witness :
  len (py "Hi.  You? ") + 1 <= 11
  /\ split_text_into_chunks 11 (py "Hi.  You? ")
     = [strip (join [SPACE] (re_split_sentences (py "Hi.  You? ")))].
Proof.
  split; [vm_compute; discriminate|].
  apply (split_text_into_chunks_single_chunk 11 (py "Hi.  You? ")).
  vm_compute. discriminate.
Defined.

(** ** Exceptions and files *)

Section EffectFacts.

Variable DEFAULT_PROMPT : str.
Variable markdown_markdown : option str -> outcome str.

Ltac unfold_rewrite :=
  cbv beta iota delta
    [process_chunk_with_ai _validate_markdown first_content acquire_semaphore
     bind try_except lift raise ret logger].

Lemma process_chunk_raises_no_Exception self chunk remote c w :
  client self = Some c ->
  match fst (process_chunk_with_ai DEFAULT_PROMPT markdown_markdown
               self chunk remote w) with
  | Raise e => is_Exception e = false
  | _ => True
  end.
Proof.
  intros Hc. unfold process_chunk_with_ai. rewrite Hc. unfold_rewrite.
  destruct (0 <? concurrent_requests self); [|done].
  destruct (remote _) as [[|content rest]|e|]; simpl; try done.
  - destruct (markdown_markdown content) as [html|e|]; simpl; try done.
    destruct (is_Exception e) eqn:He; simpl; by rewrite ?He.
  - by destruct (is_Exception e) eqn:He.
Qed.

Ltac unfold_synthesis :=
  cbv beta iota delta
    [synthesize_text subprocess_run_ffmpeg from_wav
     write_file read_file os_path_exists os_remove os_rename os_makedirs
     bind try_except lift raise ret logger fs log].

Ltac lookup_files :=
  repeat first
    [ rewrite lookup_insert_eq
    | rewrite lookup_delete_eq
    | rewrite lookup_insert_ne by (discriminate || congruence)
    | rewrite lookup_delete_ne by (discriminate || congruence)
    | rewrite bool_decide_eq_true_2 by (by eexists) ].

Lemma synthesize_text_raises_no_Exception self ev text voice debug_mode w :
  match fst (synthesize_text self ev text voice debug_mode w) with
  | Raise e => is_Exception e = false
  | _ => True
  end.
Proof.
  destruct w as [files entries].
  unfold synthesize_text. destruct (api_key self) as [|k key]; [done|].
  cbn [truthy negb]. unfold_synthesis.
  destruct (requests_post ev _ text voice) as [r|e|]; [| |done].
  - destruct (status_code r =? 200); [|done]. lookup_files.
    destruct (ffmpeg ev (content r)) as [[wav|]|e|]; [| | |done].
    + lookup_files. destruct debug_mode; [|done]. by lookup_files.
    + lookup_files. destruct debug_mode; [|done]. lookup_files.
      by destruct (files !! temp_wav_file).
    + by destruct (is_Exception e) eqn:He.
  - by destruct (is_Exception e) eqn:He.
Qed.

(** The file a unit's audio is kept in when debug mode is on. *)
Definition debug_wav_file (self : UnrealSpeechTTSService) (ev : call_env)
    : string :=
  os_path_join (tts_audio_dir self) ("response_" ++ now ev ++ ".wav")%string.

Lemma synthesize_text_other_files self ev text voice debug_mode w p :
  p <> temp_mp3_file -> p <> temp_wav_file ->
  (debug_mode = true -> p <> debug_wav_file self ev) ->
  fs (snd (synthesize_text self ev text voice debug_mode w)) !! p = fs w !! p.
Proof.
  intros Hmp3 Hwav Hdbg. destruct w as [files entries].
  unfold synthesize_text. destruct (api_key self) as [|k key]; [done|].
  cbn [truthy negb]. unfold_synthesis.
  destruct (requests_post ev _ text voice) as [r|e|]; [| |done].
  - destruct (status_code r =? 200); [|done]. lookup_files.
    destruct (ffmpeg ev (content r)) as [[wav|]|e|].
    + lookup_files. destruct debug_mode.
      * specialize (Hdbg eq_refl). unfold debug_wav_file in Hdbg.
        lookup_files. cbn [snd is_Exception]. by lookup_files.
      * cbn [snd is_Exception]. by lookup_files.
    + lookup_files. destruct debug_mode.
      * specialize (Hdbg eq_refl). unfold debug_wav_file in Hdbg.
        lookup_files. destruct (files !! temp_wav_file); cbn [snd is_Exception];
          by lookup_files.
      * cbn [snd is_Exception]. by lookup_files.
    + destruct (is_Exception e); cbn [snd is_Exception]; by lookup_files.
    + cbn [snd is_Exception]. by lookup_files.
  - by destruct (is_Exception e).
Qed.

(** One call with debug mode off, when ffmpeg runs to its end: the
    MP3 is gone again, and the WAV is there only if the call says so. *)
Definition runs_ffmpeg_to_the_end (ev : call_env) (key text voice : str)
    : Prop :=
  match requests_post ev key text voice with
  | Return r =>
      status_code r = 200 -> exists out, ffmpeg ev (content r) = Return out
  | _ => True
  end.

Lemma synthesize_text_without_debug self ev text voice w :
  fs w !! temp_mp3_file = None ->
  runs_ffmpeg_to_the_end ev (api_key self) text voice ->
  fs (snd (synthesize_text self ev text voice false w)) !! temp_mp3_file = None
  /\ match fst (synthesize_text self ev text voice false w) with
     | Return (Some path) => path = temp_wav_file
     | _ => fs (snd (synthesize_text self ev text voice false w))
              !! temp_wav_file
            = fs w !! temp_wav_file
     end.
Proof.
  intros Hmp3 Hend. destruct w as [files entries]. cbn [fs] in Hmp3.
  unfold runs_ffmpeg_to_the_end in Hend.
  unfold synthesize_text. destruct (api_key self) as [|k key]; [done|].
  cbn [truthy negb]. unfold_synthesis.
  destruct (requests_post ev _ text voice) as [r|e|]; [| |done].
  - destruct (status_code r =? 200) eqn:Hstatus; [|done].
    apply Z.eqb_eq in Hstatus. lookup_files.
    destruct (Hend Hstatus) as [out ->].
    destruct out as [wav|]; lookup_files; cbn [fst snd];
      by lookup_files.
  - by destruct (is_Exception e).
Qed.

Variable decode_wav : bytes -> AudioSegment.

Lemma synthesis_loop_without_debug tts_service env voice n :
  forall text_chunks i final_audio w,
  fs w !! temp_mp3_file = None -> fs w !! temp_wav_file = None ->
  (forall j chunk, text_chunks !! j = Some chunk ->
     runs_ffmpeg_to_the_end (tts_call env (i + j)) (api_key tts_service)
       chunk voice) ->
  fs (snd (synthesis_loop decode_wav tts_service env voice false n i
             text_chunks final_audio w)) = fs w.
Proof.
  induction text_chunks as [|chunk rest IH]; intros i final_audio w Hmp3 Hwav Hs;
    [done|].
  assert (Hrest : forall j c, rest !! j = Some c ->
    runs_ffmpeg_to_the_end (tts_call env (S i + j)) (api_key tts_service) c voice).
  { intros j c Hj. replace (S i + j)%nat with (i + S j)%nat by lia.
    by apply Hs. }
  pose proof (Hs 0%nat chunk eq_refl) as Hs0. rewrite Nat.add_0_r in Hs0.
  cbn [synthesis_loop]. unfold bind at 1, logger at 1.
  set (w1 := World _ _).
  assert (Hfs1 : fs w1 = fs w) by done.
  destruct (synthesize_text_without_debug tts_service (tts_call env i) chunk
              voice w1) as [Hmp3' Hres]; [by rewrite Hfs1 | done |].
  assert (Hother : forall p, p <> temp_wav_file ->
    fs (snd (synthesize_text tts_service (tts_call env i) chunk voice false w1))
      !! p = fs w !! p).
  { intros p Hp. destruct (decide (p = temp_mp3_file)) as [->|Hp'].
    - by rewrite Hmp3', Hmp3.
    - by rewrite synthesize_text_other_files. }
  unfold bind at 1.
  destruct (synthesize_text tts_service (tts_call env i) chunk voice false w1)
    as [[[path|]|e|] w2]; cbn [fst snd] in *.
  - subst path. unfold bind at 1, from_wav, bind at 1, read_file.
    destruct (fs w2 !! temp_wav_file) as [data|] eqn:Hdata.
    + unfold ret at 1. cbn [negb]. unfold bind at 1, os_remove. rewrite Hdata.
      set (w3 := World _ _).
      assert (Hfs3 : fs w3 = fs w).
      { apply map_eq. intros p. subst w3. cbn [fs].
        destruct (decide (p = temp_wav_file)) as [->|Hp].
        - by rewrite lookup_delete_eq, Hwav.
        - rewrite lookup_delete_ne by done. by apply Hother. }
      rewrite IH; [done|by rewrite Hfs3..|done].
    + cbn [snd is_Exception]. apply map_eq. intros p.
      destruct (decide (p = temp_wav_file)) as [->|Hp].
      * by rewrite Hdata, Hwav.
      * by apply Hother.
  - unfold bind at 1, logger at 1. set (w3 := World _ _).
    assert (Hfs3 : fs w3 = fs w).
    { apply map_eq. intros p. subst w3. cbn [fs].
      destruct (decide (p = temp_wav_file)) as [->|Hp].
      - by rewrite Hres, Hfs1.
      - by apply Hother. }
    rewrite IH; [done|by rewrite Hfs3..|done].
  - apply map_eq. intros p.
    destruct (decide (p = temp_wav_file)) as [->|Hp].
    + by rewrite Hres, Hfs1.
    + by apply Hother.
  - apply map_eq. intros p.
    destruct (decide (p = temp_wav_file)) as [->|Hp].
    + by rewrite Hres, Hfs1.
    + by apply Hother.
Qed.

Lemma synthesis_loop_missing_wav tts_service env voice n i chunk rest
    final_audio w r :
  api_key tts_service <> [] ->
  requests_post (tts_call env i) (api_key tts_service) chunk voice = Return r ->
  status_code r = 200 ->
  ffmpeg (tts_call env i) (content r) = Return None ->
  fs w !! temp_wav_file = None ->
  fst (synthesis_loop decode_wav tts_service env voice false n i
         (chunk :: rest) final_audio w)
  = Raise (FileNotFoundError temp_wav_file).
Proof.
  intros Hkey Hpost Hstatus Hffmpeg Hwav. destruct w as [files entries].
  cbn [fs] in Hwav.
  cbn [synthesis_loop]. unfold synthesize_text.
  destruct (api_key tts_service) as [|k key]; [done|].
  cbn [truthy negb]. unfold_synthesis. rewrite Hpost, Hstatus.
  cbn [Z.eqb Pos.eqb]. lookup_files. rewrite Hffmpeg. lookup_files.
  by rewrite Hwav.
Qed.

Lemma synthesize_text_path self ev text voice debug_mode w :
  match fst (synthesize_text self ev text voice debug_mode w) with
  | Return (Some path) =>
      path = if debug_mode then debug_wav_file self ev else temp_wav_file
  | _ => True
  end.
Proof.
  destruct w as [files entries].
  unfold synthesize_text. destruct (api_key self) as [|k key]; [done|].
  cbn [truthy negb]. unfold_synthesis.
  destruct (requests_post ev _ text voice) as [r|e|]; [| |done].
  - destruct (status_code r =? 200); [|done]. lookup_files.
    destruct (ffmpeg ev (content r)) as [[wav|]|e|]; [| | |done].
    + lookup_files. destruct debug_mode; [|done]. by lookup_files.
    + lookup_files. destruct debug_mode; [|done]. lookup_files.
      by destruct (files !! temp_wav_file).
    + by destruct (is_Exception e).
  - by destruct (is_Exception e).
Qed.

Lemma synthesis_loop_other_files tts_service env voice debug_mode n p :
  p <> temp_mp3_file -> p <> temp_wav_file ->
  forall text_chunks i final_audio w,
  (debug_mode = true ->
   forall j, (j < length text_chunks)%nat ->
     p <> debug_wav_file tts_service (tts_call env (i + j))) ->
  fs (snd (synthesis_loop decode_wav tts_service env voice debug_mode n i
             text_chunks final_audio w)) !! p
  = fs w !! p.
Proof.
  intros Hmp3 Hwav.
  induction text_chunks as [|chunk rest IH]; intros i final_audio w Hdbg;
    [done|].
  assert (Hrest : debug_mode = true ->
    forall j, (j < length rest)%nat ->
      p <> debug_wav_file tts_service (tts_call env (S i + j))).
  { intros Hd j Hj. replace (S i + j)%nat with (i + S j)%nat by lia.
    apply Hdbg; [done|]. simpl. lia. }
  assert (Hhere : debug_mode = true ->
    p <> debug_wav_file tts_service (tts_call env i)).
  { intros Hd. specialize (Hdbg Hd 0%nat). rewrite Nat.add_0_r in Hdbg.
    apply Hdbg. simpl. lia. }
  cbn [synthesis_loop]. unfold bind at 1, logger at 1.
  set (w1 := World _ _).
  pose proof (synthesize_text_other_files tts_service (tts_call env i) chunk
                voice debug_mode w1 p Hmp3 Hwav Hhere) as Hstep.
  pose proof (synthesize_text_path tts_service (tts_call env i) chunk voice
                debug_mode w1) as Hpath.
  change (fs w1) with (fs w) in Hstep.
  unfold bind at 1.
  destruct (synthesize_text tts_service (tts_call env i) chunk voice
              debug_mode w1) as [[[path|]|e|] w2]; cbn [fst snd] in *;
    [| |done..].
  - unfold bind at 1, from_wav, bind at 1, read_file.
    destruct (fs w2 !! path) as [data|] eqn:Hdata; [|done].
    unfold ret at 1. destruct debug_mode; cbn [negb].
    + unfold bind at 1, ret at 1. by rewrite IH.
    + subst path. unfold bind at 1, os_remove. rewrite Hdata.
      rewrite IH by done. cbn [fs]. by rewrite lookup_delete_ne.
  - unfold bind at 1, logger at 1. by rewrite IH.
Qed.

(** Paths: the name of a debug file determines its timestamp, and is
    neither of the two temporary names. *)
Lemma list_ascii_of_string_app (a b : string) :
  list_ascii_of_string (a ++ b)
  = (list_ascii_of_string a ++ list_ascii_of_string b)%list.
Proof. induction a as [|c a IH]; simpl; [done|]. by rewrite IH. Qed.

Lemma append_inv_tail (x y s : string) :
  (x ++ s = y ++ s)%string -> x = y.
Proof.
  intros H. apply (f_equal list_ascii_of_string) in H.
  rewrite !list_ascii_of_string_app in H. apply app_inv_tail in H.
  rewrite <- (string_of_list_ascii_of_string x),
          <- (string_of_list_ascii_of_string y).
  by rewrite H.
Qed.

Lemma os_path_join_inj dir name1 name2 :
  os_path_join dir name1 = os_path_join dir name2 -> name1 = name2.
Proof.
  unfold os_path_join. destruct (String.eqb dir ""); [done|].
  destruct (ends_with_slash dir); intros H.
  - by apply String.app_inj in H.
  - apply String.app_inj in H. by apply String.app_inj in H.
Qed.

Lemma debug_wav_file_inj self ev1 ev2 :
  debug_wav_file self ev1 = debug_wav_file self ev2 -> now ev1 = now ev2.
Proof.
  unfold debug_wav_file. intros H. apply os_path_join_inj in H.
  apply String.app_inj in H. by apply append_inv_tail in H.
Qed.

Lemma os_path_join_slash dir name :
  String.eqb dir "" = false ->
  In "/"%char (list_ascii_of_string (os_path_join dir name)).
Proof.
  intros Hdir. unfold os_path_join. rewrite Hdir.
  destruct (ends_with_slash dir) eqn:Hs.
  - rewrite list_ascii_of_string_app. apply in_or_app. left.
    unfold ends_with_slash in Hs.
    destruct (rev (list_ascii_of_string dir)) as [|c l] eqn:Hr; [done|].
    apply Ascii.eqb_eq in Hs. subst c. apply in_rev. rewrite Hr. by left.
  - rewrite list_ascii_of_string_app. apply in_or_app. right. by left.
Qed.

Lemma debug_wav_file_not_temp self ev :
  debug_wav_file self ev <> temp_mp3_file
  /\ debug_wav_file self ev <> temp_wav_file.
Proof.
  unfold debug_wav_file.
  destruct (String.eqb (tts_audio_dir self) "") eqn:Hdir.
  - unfold os_path_join. rewrite Hdir. by split.
  - pose proof (os_path_join_slash (tts_audio_dir self)
                  ("response_" ++ now ev ++ ".wav") Hdir) as Hin.
    split; intros Heq; rewrite Heq in Hin; vm_compute in Hin;
      repeat (destruct Hin as [Hin|Hin]; [discriminate|]); done.
Qed.

Lemma synthesis_loop_debug_keeps tts_service env voice n :
  api_key tts_service <> [] ->
  forall text_chunks i final_audio w,
  (forall j chunk, text_chunks !! j = Some chunk ->
     synthesis_settles (tts_call env (i + j)) (api_key tts_service)
       chunk voice) ->
  (forall j k, (j < k < length text_chunks)%nat ->
     now (tts_call env (i + j)) <> now (tts_call env (i + k))) ->
  forall j chunk wav,
    text_chunks !! j = Some chunk ->
    synthesized (tts_call env (i + j)) (api_key tts_service) chunk voice
    = Some wav ->
    fs (snd (synthesis_loop decode_wav tts_service env voice true n i
               text_chunks final_audio w))
      !! debug_wav_file tts_service (tts_call env (i + j))
    = Some wav.
Proof.
  intros Hkey.
  induction text_chunks as [|chunk0 rest IH];
    intros i final_audio w Hs Hnow j chunk wav Hj Hwav; [done|].
  assert (Hrest : forall j c, rest !! j = Some c ->
    synthesis_settles (tts_call env (S i + j)) (api_key tts_service) c voice).
  { intros k c Hk. replace (S i + k)%nat with (i + S k)%nat by lia.
    by apply Hs. }
  assert (Hnow' : forall j k, (j < k < length rest)%nat ->
    now (tts_call env (S i + j)) <> now (tts_call env (S i + k))).
  { intros a b Hab.
    replace (S i + a)%nat with (i + S a)%nat by lia.
    replace (S i + b)%nat with (i + S b)%nat by lia.
    apply Hnow. simpl. lia. }
  pose proof (Hs 0%nat chunk0 eq_refl) as Hs0. rewrite Nat.add_0_r in Hs0.
  cbn [synthesis_loop]. unfold bind at 1, logger at 1.
  set (w1 := World _ _).
  pose proof (synthesize_text_path tts_service (tts_call env i) chunk0 voice
                true w1) as Hpath.
  destruct (synthesized (tts_call env i) (api_key tts_service) chunk0 voice)
    as [wav0|] eqn:Hsyn.
  - destruct (synthesize_text_succeeds tts_service (tts_call env i) chunk0
                voice true w1 wav0 Hkey Hsyn)
      as (path & w2 & Hrun & Hfile & _).
    rewrite Hrun in Hpath. cbn [fst] in Hpath. subst path.
    unfold bind at 1. rewrite Hrun.
    unfold bind at 1, from_wav, bind at 1, read_file. rewrite Hfile.
    unfold ret at 1. cbn [negb]. unfold bind at 1, ret at 1.
    destruct j as [|j].
    + injection Hj as <-. rewrite Nat.add_0_r in *.
      rewrite Hsyn in Hwav. injection Hwav as <-.
      rewrite synthesis_loop_other_files; [done|..].
      * apply debug_wav_file_not_temp.
      * apply debug_wav_file_not_temp.
      * intros _ k Hk Heq. apply debug_wav_file_inj in Heq.
        apply (Hnow 0%nat (S k)); [simpl; lia|].
        rewrite Nat.add_0_r. by replace (i + S k)%nat with (S i + k)%nat by lia.
    + replace (i + S j)%nat with (S i + j)%nat in * by lia.
      by apply (IH (S i) _ _ Hrest Hnow' j chunk wav).
  - destruct (synthesize_text_fails tts_service (tts_call env i) chunk0
                voice true w1 Hkey Hs0 Hsyn) as (w2 & Hrun & _).
    unfold bind at 1. rewrite Hrun. unfold bind at 1, logger at 1.
    destruct j as [|j].
    + injection Hj as <-. rewrite Nat.add_0_r in Hwav. congruence.
    + replace (i + S j)%nat with (S i + j)%nat in * by lia.
      by apply (IH (S i) _ _ Hrest Hnow' j chunk wav).
Qed.

(** [gather] changes the world only through its children. *)
Lemma gather_preserves {E A} (R : world -> world -> Prop)
    (tasks : list (coroutine (E:=E) (A:=A))) (envs : nat -> E)
    (order : list nat) (w : world) :
  (forall w, R w w) ->
  (forall w1 w2 w3, R w1 w2 -> R w2 w3 -> R w1 w3) ->
  (forall i task w, tasks !! i = Some task -> R w (snd (task (envs i) w))) ->
  R w (snd (gather tasks envs order w)).
Proof.
  intros Hrefl Htrans Htask.
  assert (Hfold : forall order st w,
    R w (snd (fold_left (complete tasks envs) order (st, w)))).
  { clear order w. induction order as [|i order IH]; intros st w; [apply Hrefl|].
    cbn [fold_left].
    destruct (complete tasks envs (st, w) i) as [st' w'] eqn:Hc.
    apply Htrans with w'; [|apply IH].
    unfold complete in Hc.
    destruct (tasks !! i) as [task|] eqn:Hi;
      [|injection Hc as <- <-; apply Hrefl].
    destruct (children st !! i) as [[o|]|];
      [injection Hc as <- <-; apply Hrefl| |injection Hc as <- <-; apply Hrefl].
    specialize (Htask i task w Hi).
    destruct (task (envs i) w) as [[a|e|] w2]; injection Hc as <- <-;
      exact Htask. }
  unfold gather. specialize (Hfold order (gather_init tasks) w).
  destruct (fold_left _ _ _) as [st w']. by destruct (outer st).
Qed.

Lemma simplify_appends ai env text w :
  appends w (snd (simplify DEFAULT_PROMPT markdown_markdown ai env text w)).
Proof.
  unfold simplify. unfold bind at 1, logger at 1. set (w1 := World _ _).
  assert (H1 : appends w w1) by (split; [done | by eexists]).
  apply appends_trans with w1; [done|].
  unfold bind.
  pose proof (gather_preserves appends
    (List.map (process_chunk_with_ai DEFAULT_PROMPT markdown_markdown ai)
       (split_text_into_chunks (max_chunk_size ai) text))
    (remote env) (completion_order env) w1 appends_refl appends_trans) as Hg.
  destruct (gather _ _ _ w1) as [[l|e|] w2]; apply Hg;
    intros i task w0 Hi; apply lookup_tasks in Hi as (chunk & _ & ->);
    apply process_chunk_appends.
Qed.

Variable encode_utf8 : str -> bytes.
Variable encode_mp3 : AudioSegment -> bytes.

Local Abbreviation run :=
  (main_async DEFAULT_PROMPT markdown_markdown encode_utf8 decode_wav encode_mp3).

Lemma main_async_text_only args env final_md final_mp3 text w :
  args_tts args = false ->
  match fst (run args env final_md final_mp3 text w) with
  | Return _ =>
      exists simplified_content,
        fs (snd (run args env final_md final_mp3 text w))
        = <[final_md := encode_utf8 simplified_content]> (fs w)
  | _ => fs (snd (run args env final_md final_mp3 text w)) = fs w
  end.
Proof.
  intros Htts.
  destruct (run args env final_md final_mp3 text w) as [o w'] eqn:Hrun.
  cbn [fst snd]. revert Hrun. unfold main_async, AIProcessor_init.
  destruct (args_concurrent_requests args <? 0);
    [by intros [= <- <-]|].
  unfold bind at 1, ret at 1. unfold initialize_client.
  unfold bind at 1, try_except, bind at 1, lift, bind at 1, logger at 1, ret at 1.
  destruct (construct_client env) as [cl|e|]; [| |by intros [= <- <-]].
  - destruct (strip text) as [|x t].
    { cbn [truthy negb]. unfold bind, logger, raise. by intros [= <- <-]. }
    cbn [truthy negb].
    set (ai := Build_AIProcessor _ _ _ _). set (w0 := World _ _).
    pose proof (simplify_appends ai env text w0) as [Hfs _].
    unfold bind at 1.
    destruct (simplify _ _ _ _ _ w0) as [[content|e|] w1]; cbn [snd] in Hfs;
      [|by intros [= <- <-]..].
    unfold bind at 1, write_file at 1. unfold bind at 1, logger at 1.
    rewrite Htts. unfold ret. intros [= <- <-].
    exists content. cbn [fs]. by rewrite Hfs.
  - unfold bind, logger, raise. by destruct (is_Exception e); intros [= <- <-].
Qed.

Lemma main_async_negative_requests args env final_md final_mp3 text w :
  args_concurrent_requests args < 0 ->
  run args env final_md final_mp3 text w
  = (Raise (ValueError "Semaphore initial value must be >= 0"), w).
Proof.
  intros Hneg. unfold main_async, AIProcessor_init.
  apply Z.ltb_lt in Hneg. by rewrite Hneg.
Qed.

Lemma main_async_no_client args env final_md final_mp3 text w e :
  0 <= args_concurrent_requests args ->
  construct_client env = Raise e ->
  is_Exception e = true ->
  run args env final_md final_mp3 text w
  = (Raise e, World (fs w) (log w ++ [(ERROR, ClientInitFailed e)])).
Proof.
  intros Hpos Hclient He. unfold main_async, AIProcessor_init.
  assert ((args_concurrent_requests args <? 0) = false) as ->
    by (apply Z.ltb_ge; lia).
  unfold bind at 1, ret at 1. unfold initialize_client. rewrite Hclient.
  unfold bind, try_except, lift, logger, raise. by rewrite He.
Qed.

Lemma synthesize_other_files args env final_mp3 simplified_content w p :
  p <> final_mp3 -> p <> temp_mp3_file -> p <> temp_wav_file ->
  (args_debug_mode args = true ->
   forall i key,
     p <> debug_wav_file
            {| api_key := key; tts_audio_dir := args_tts_audio_dir args |}
            (tts_call env i)) ->
  fs (snd (synthesize decode_wav encode_mp3 args env final_mp3
             simplified_content w)) !! p
  = fs w !! p.
Proof.
  intros Hfinal Hmp3 Hwav Hdbg. unfold synthesize.
  unfold bind at 1, logger at 1.
  destruct (api_key_or_environ args env) as [[|c key]|]; [done| |done].
  unfold bind at 1, logger at 1.
  set (tts := {| api_key := c :: key; tts_audio_dir := _ |}).
  set (w0 := World _ _).
  pose proof (synthesis_loop_other_files tts env (args_voice args)
                (args_debug_mode args)
                (length (chunk_text simplified_content (args_tts_chunk_size args)))
                p Hmp3 Hwav
                (chunk_text simplified_content (args_tts_chunk_size args))
                1%nat silent_0 w0) as Hloop.
  change (fs w0) with (fs w) in Hloop. unfold bind at 1.
  destruct (synthesis_loop _ _ _ _ _ _ _ _ _ w0) as [[audio|e|] w1];
    cbn [snd] in Hloop.
  - unfold bind, export, write_file, logger. cbn [snd fs].
    rewrite lookup_insert_ne by congruence. apply Hloop.
    intros Hd j _. by apply Hdbg.
  - apply Hloop. intros Hd j _. by apply Hdbg.
  - apply Hloop. intros Hd j _. by apply Hdbg.
Qed.

Lemma main_async_other_files args env final_md final_mp3 text w p :
  p <> final_md -> p <> final_mp3 ->
  p <> temp_mp3_file -> p <> temp_wav_file ->
  (args_debug_mode args = true ->
   forall i key,
     p <> debug_wav_file
            {| api_key := key; tts_audio_dir := args_tts_audio_dir args |}
            (tts_call env i)) ->
  fs (snd (run args env final_md final_mp3 text w)) !! p = fs w !! p.
Proof.
  intros Hmd Hfinal Hmp3 Hwav Hdbg. unfold main_async, AIProcessor_init.
  destruct (args_concurrent_requests args <? 0); [done|].
  unfold bind at 1, ret at 1. unfold initialize_client.
  unfold bind at 1, try_except, bind at 1, lift, bind at 1, logger at 1, ret at 1.
  destruct (construct_client env) as [cl|e|]; [| |done].
  - destruct (strip text) as [|x t]; [done|]. cbn [truthy negb].
    set (ai := Build_AIProcessor _ _ _ _). set (w0 := World _ _).
    pose proof (simplify_appends ai env text w0) as [Hfs _].
    unfold bind at 1.
    destruct (simplify _ _ _ _ _ w0) as [[content|e|] w1]; cbn [snd] in Hfs;
      [|cbn [snd]; by rewrite Hfs..].
    unfold bind at 1, write_file at 1. unfold bind at 1, logger at 1.
    destruct (args_tts args).
    + rewrite synthesize_other_files by done. cbn [fs].
      rewrite lookup_insert_ne by congruence. by rewrite Hfs.
    + cbn [ret snd fs]. rewrite lookup_insert_ne by congruence. by rewrite Hfs.
  - unfold bind, logger, raise. by destruct (is_Exception e).
Qed.

Lemma main_async_missing_key args env final_md final_mp3 text w cl :
  0 < args_concurrent_requests args ->
  construct_client env = Return cl ->
  strip text <> [] ->
  Permutation (completion_order env)
    (seq 0 (length (split_text_into_chunks (args_max_chunk_size args) text))) ->
  (forall i chunk,
     split_text_into_chunks (args_max_chunk_size args) text !! i = Some chunk ->
     rewrite_settles markdown_markdown
       (remote env i (chat_request DEFAULT_PROMPT (initialized args cl) chunk))) ->
  args_tts args = true ->
  (api_key_or_environ args env = None \/ api_key_or_environ args env = Some []) ->
  exists simplified_content w',
    run args env final_md final_mp3 text w = (Raise (SystemExit 1), w')
    /\ fs w' = <[final_md := encode_utf8 simplified_content]> (fs w)
    /\ In (ERROR, NoApiKeyFound) (log w').
Proof.
  intros Hpermits Hclient Htext Hperm Hsettle Htts Hkey.
  unfold main_async, AIProcessor_init.
  assert ((args_concurrent_requests args <? 0) = false) as ->
    by (apply Z.ltb_ge; lia).
  unfold bind at 1, ret at 1.
  unfold initialize_client. rewrite Hclient.
  unfold bind at 1, try_except, bind at 1, lift, bind at 1, logger at 1, ret at 1.
  fold (initialized args cl).
  destruct (strip text) as [|x t] eqn:Hstrip; [done|]. cbn [truthy negb].
  set (w0 := World _ _).
  pose proof (simplify_value DEFAULT_PROMPT markdown_markdown
                (initialized args cl) env text
                (ex_intro _ cl eq_refl) Hpermits Hperm Hsettle w0) as Hval.
  pose proof (simplify_appends (initialized args cl) env text w0) as [Hfs _].
  destruct (simplify _ _ _ _ _ w0) as [o w1] eqn:Hsimp.
  cbn [fst snd] in Hval, Hfs. subst o.
  rewrite (bind_return _ _ _ _ _ Hsimp).
  unfold bind at 1, write_file at 1. unfold bind at 1, logger at 1.
  rewrite Htts. unfold synthesize. unfold bind at 1, logger at 1.
  eexists.
  destruct Hkey as [-> | ->]; unfold bind, logger, raise;
    (eexists; split; [reflexivity|]; cbn [fs log]; split;
     [by rewrite Hfs | apply in_or_app; right; by left]).
Qed.

End EffectFacts.

(** X11. Once the client is set, [process_chunk_with_ai] raises no
    exception of class [Exception], whatever the remote service and the
    Markdown parser do; it leaves every file alone and only appends to
    the log. *)
Theorem process_chunk_with_ai_absorbs_exceptions
    (DEFAULT_PROMPT : str) (markdown_markdown : option str -> outcome str)
    (self : AIProcessor) (chunk : str) (remote : service) (c : AsyncOpenAI)
    (w : world) :
  client self = Some c ->
  match fst (process_chunk_with_ai DEFAULT_PROMPT markdown_markdown
               self chunk remote w) with
  | Raise e => is_Exception e = false
  | _ => True
  end
  /\ fs (snd (process_chunk_with_ai DEFAULT_PROMPT markdown_markdown
                self chunk remote w)) = fs w
  /\ exists l,
       log (snd (process_chunk_with_ai DEFAULT_PROMPT markdown_markdown
                   self chunk remote w)) = log w ++ l.
Proof.
  intros Hc. split; [by eapply process_chunk_raises_no_Exception|].
  apply process_chunk_appends.
Qed.

Lemma process_chunk_with_ai_absorbs_exceptions_witness :
  match fst (process_chunk_with_ai Sample.prompt Sample.markdown_fails
               Sample.ai_ready (py "A.") Sample.refuses
               MoreSamples.world_with_notes) with
  | Raise e => is_Exception e = false
  | _ => True
  end
  /\ fs (snd (process_chunk_with_ai Sample.prompt Sample.markdown_fails
                Sample.ai_ready (py "A.") Sample.refuses
                MoreSamples.world_with_notes))
     = fs MoreSamples.world_with_notes
  /\ exists l,
       log (snd (process_chunk_with_ai Sample.prompt Sample.markdown_fails
                   Sample.ai_ready (py "A.") Sample.refuses
                   MoreSamples.world_with_notes))
       = log MoreSamples.world_with_notes ++ l.
Proof.
  apply (process_chunk_with_ai_absorbs_exceptions Sample.prompt
           Sample.markdown_fails Sample.ai_ready (py "A.") Sample.refuses
           AsyncOpenAI_client MoreSamples.world_with_notes).
  reflexivity.
Defined.

(** X12. [synthesize_text] raises no exception of class [Exception],
    whatever the service and ffmpeg do; when it returns a path, that is
    [temp_response.wav], or with debug mode on the timestamped file in
    the debug directory. *)
Theorem synthesize_text_absorbs_exceptions
    (self : UnrealSpeechTTSService) (ev : call_env) (text voice : str)
    (debug_mode : bool) (w : world) :
  match fst (synthesize_text self ev text voice debug_mode w) with
  | Return (Some path) =>
      path = if debug_mode
             then os_path_join (tts_audio_dir self)
                    ("response_" ++ now ev ++ ".wav")%string
             else temp_wav_file
  | Return None => True
  | Raise e => is_Exception e = false
  | Blocked => True
  end.
Proof.
  pose proof (synthesize_text_raises_no_Exception self ev text voice
                debug_mode w) as Hraise.
  pose proof (synthesize_text_path self ev text voice debug_mode w) as Hpath.
  by destruct (fst (synthesize_text self ev text voice debug_mode w))
    as [[path|]|e|].
Qed.

(** X13. The synthesis loop touches no file but the two temporary
    ones and, with debug mode on, the debug files of its units: every
    other path holds after the loop what it held before, however the
    loop ends. *)
Theorem synthesis_loop_touches_no_other_file
    (decode_wav : bytes -> AudioSegment)
    (tts_service : UnrealSpeechTTSService) (env : environment) (voice : str)
    (debug_mode : bool) (n i : nat) (text_chunks : list str)
    (final_audio : AudioSegment) (w : world) (p : string) :
  p <> temp_mp3_file -> p <> temp_wav_file ->
  (debug_mode = true ->
   forall j, (j < length text_chunks)%nat ->
     p <> os_path_join (tts_audio_dir tts_service)
            ("response_" ++ now (tts_call env (i + j)) ++ ".wav")%string) ->
  fs (snd (synthesis_loop decode_wav tts_service env voice debug_mode n i
             text_chunks final_audio w)) !! p
  = fs w !! p.
Proof.
  intros Hmp3 Hwav Hdbg. by apply synthesis_loop_other_files.
Qed.

Lemma synthesis_loop_touches_no_other_file_witness :
  fs (snd (synthesis_loop Sample.decode_wav Sample.tts Sample.env_second_fails
             (py "Scarlett") true 2 1 [py "a"; py "b"] []
             MoreSamples.world_with_notes)) !! "notes.txt"
  = fs MoreSamples.world_with_notes !! "notes.txt".
Proof.
  apply (synthesis_loop_touches_no_other_file Sample.decode_wav Sample.tts
           Sample.env_second_fails (py "Scarlett") true 2 1
           [py "a"; py "b"] [] MoreSamples.world_with_notes "notes.txt").
  - discriminate.
  - discriminate.
  - intros _ j _. vm_compute. discriminate.
Defined.



(** X15. [synthesize_text] does not check that ffmpeg wrote its
    output: with debug mode off, when the service answers 200, ffmpeg
    ends without writing the WAV and no [temp_response.wav] is there,
    the unit is reported as synthesized and the loop ends with
    [FileNotFoundError] for that file. *)
Theorem missing_wav_ends_the_loop
    (decode_wav : bytes -> AudioSegment)
    (tts_service : UnrealSpeechTTSService) (env : environment) (voice : str)
    (n i : nat) (chunk : str) (rest : list str) (final_audio : AudioSegment)
    (w : world) (r : Response) :
  api_key tts_service <> [] ->
  requests_post (tts_call env i) (api_key tts_service) chunk voice = Return r ->
  status_code r = 200 ->
  ffmpeg (tts_call env i) (content r) = Return None ->
  fs w !! temp_wav_file = None ->
  fst (synthesize_text tts_service (tts_call env i) chunk voice false w)
  = Return (Some temp_wav_file)
  /\ fst (synthesis_loop decode_wav tts_service env voice false n i
            (chunk :: rest) final_audio w)
     = Raise (FileNotFoundError temp_wav_file).
Proof.
  intros Hkey Hpost Hstatus Hffmpeg Hwav. split.
  - destruct w as [files entries]. unfold synthesize_text.
    destruct (api_key tts_service) as [|k key]; [done|].
    cbn [truthy negb].
    cbv beta iota delta
      [subprocess_run_ffmpeg write_file os_path_exists os_remove
       bind try_except lift raise ret logger fs log].
    rewrite Hpost, Hstatus. cbn [Z.eqb Pos.eqb].
    rewrite lookup_insert_eq, Hffmpeg, lookup_insert_eq.
    by rewrite bool_decide_eq_true_2, lookup_insert_eq by (by eexists).
  - by eapply synthesis_loop_missing_wav.
Qed.

Lemma missing_wav_ends_the_loop_witness :
  fst (synthesize_text Sample.tts (tts_call MoreSamples.env_silent_ffmpeg 1)
         (py "a") (py "Scarlett") false MoreSamples.world_with_notes)
  = Return (Some temp_wav_file)
  /\ fst (synthesis_loop Sample.decode_wav Sample.tts
            MoreSamples.env_silent_ffmpeg (py "Scarlett") false 2 1
            [py "a"; py "b"] [] MoreSamples.world_with_notes)
     = Raise (FileNotFoundError temp_wav_file).
Proof.
  apply (missing_wav_ends_the_loop Sample.decode_wav Sample.tts
           MoreSamples.env_silent_ffmpeg (py "Scarlett") 2 1 (py "a")
           [py "b"] [] MoreSamples.world_with_notes
           {| status_code := 200; content := [1%N; 2%N]; text := [] |}).
  - discriminate.
  - reflexivity.
  - reflexivity.
  - reflexivity.
  - vm_compute. reflexivity.
Defined.






(** X18. From the construction of the processor on, [main_async]
    touches no file but its two results, the two temporary files and,
    with debug mode on, the debug files: every other path holds after
    the run what it held there, however the run ends. *)
Theorem main_async_touches_no_other_file
    (DEFAULT_PROMPT : str) (markdown_markdown : option str -> outcome str)
    (encode_utf8 : str -> bytes) (decode_wav : bytes -> AudioSegment)
    (encode_mp3 : AudioSegment -> bytes)
    (args : Args) (env : environment) (final_md final_mp3 : string)
    (text : str) (w : world) (p : string) :
  p <> final_md -> p <> final_mp3 ->
  p <> temp_mp3_file -> p <> temp_wav_file ->
  (args_debug_mode args = true ->
   forall i,
     p <> os_path_join (args_tts_audio_dir args)
            ("response_" ++ now (tts_call env i) ++ ".wav")%string) ->
  fs (snd (main_async DEFAULT_PROMPT markdown_markdown encode_utf8
             decode_wav encode_mp3 args env final_md final_mp3 text w)) !! p
  = fs w !! p.
Proof.
  intros Hmd Hfinal Hmp3 Hwav Hdbg.
  apply main_async_other_files; [done..|].
  intros Hd i key. by apply Hdbg.
Qed.

Lemma main_async_touches_no_other_file_witness :
  fs (snd (main_async Sample.prompt Sample.markdown_ok Sample.encode_utf8
             Sample.decode_wav Sample.encode_mp3 Sample.args
             Sample.env_first_fails "simplified.md" "simplified.mp3"
             Sample.two_sentences MoreSamples.world_with_notes))
    !! "notes.txt"
  = fs MoreSamples.world_with_notes !! "notes.txt".
Proof.
  apply (main_async_touches_no_other_file Sample.prompt Sample.markdown_ok
           Sample.encode_utf8 Sample.decode_wav Sample.encode_mp3 Sample.args
           Sample.env_first_fails "simplified.md" "simplified.mp3"
           Sample.two_sentences MoreSamples.world_with_notes "notes.txt").
  - discriminate.
  - discriminate.
  - discriminate.
  - discriminate.
  - intros H. discriminate H.
Defined.

(** X19. A negative [--concurrent_requests] ends [main_async] where
    the processor is constructed: the semaphore cannot be built, the
    [ValueError] is raised, and nothing is logged or written from
    there on. *)
Theorem main_async_rejects_negative_concurrency
    (DEFAULT_PROMPT : str) (markdown_markdown : option str -> outcome str)
    (encode_utf8 : str -> bytes) (decode_wav : bytes -> AudioSegment)
    (encode_mp3 : AudioSegment -> bytes)
    (args : Args) (env : environment) (final_md final_mp3 : string)
    (text : str) (w : world) :
  args_concurrent_requests args < 0 ->
  main_async DEFAULT_PROMPT markdown_markdown encode_utf8 decode_wav
    encode_mp3 args env final_md final_mp3 text w
  = (Raise (ValueError "Semaphore initial value must be >= 0"), w).
Proof. apply main_async_negative_requests. Qed.

Lemma main_async_rejects_negative_concurrency_witness :
  main_async Sample.prompt Sample.markdown_ok Sample.encode_utf8
    Sample.decode_wav Sample.encode_mp3 MoreSamples.args_negative_requests
    Sample.env_second_fails "simplified.md" "simplified.mp3"
    Sample.two_sentences MoreSamples.world_with_notes
  = (Raise (ValueError "Semaphore initial value must be >= 0"),
     MoreSamples.world_with_notes).
Proof.
  apply (main_async_rejects_negative_concurrency Sample.prompt
           Sample.markdown_ok Sample.encode_utf8 Sample.decode_wav
           Sample.encode_mp3 MoreSamples.args_negative_requests
           Sample.env_second_fails "simplified.md" "simplified.mp3"
           Sample.two_sentences MoreSamples.world_with_notes).
  simpl. lia.
Defined.

(** X20. When [AsyncOpenAI()] raises an exception of class
    [Exception], [initialize_client] logs it and raises it again, and
    [main_async] ends with that same exception: no file is written and
    the log has gained that one error line. *)
Theorem client_failure_ends_the_run
    (DEFAULT_PROMPT : str) (markdown_markdown : option str -> outcome str)
    (encode_utf8 : str -> bytes) (decode_wav : bytes -> AudioSegment)
    (encode_mp3 : AudioSegment -> bytes)
    (args : Args) (env : environment) (final_md final_mp3 : string)
    (text : str) (w : world) (e : exn) :
  0 <= args_concurrent_requests args ->
  construct_client env = Raise e ->
  is_Exception e = true ->
  main_async DEFAULT_PROMPT markdown_markdown encode_utf8 decode_wav
    encode_mp3 args env final_md final_mp3 text w
  = (Raise e, World (fs w) (log w ++ [(ERROR, ClientInitFailed e)])).
Proof. apply main_async_no_client. Qed.

Lemma client_failure_ends_the_run_witness :
  main_async Sample.prompt Sample.markdown_ok Sample.encode_utf8
    Sample.decode_wav Sample.encode_mp3 Sample.args
    MoreSamples.env_no_client "simplified.md" "simplified.mp3"
    Sample.two_sentences MoreSamples.world_with_notes
  = (Raise (OtherException "OpenAIError"),
     World (fs MoreSamples.world_with_notes)
           (log MoreSamples.world_with_notes
            ++ [(ERROR, ClientInitFailed (OtherException "OpenAIError"))])).
Proof.
  apply (client_failure_ends_the_run Sample.prompt Sample.markdown_ok
           Sample.encode_utf8 Sample.decode_wav Sample.encode_mp3 Sample.args
           MoreSamples.env_no_client "simplified.md" "simplified.mp3"
           Sample.two_sentences MoreSamples.world_with_notes
           (OtherException "OpenAIError")).
  - simpl. lia.
  - reflexivity.
  - reflexivity.
Defined.



(** ** Sentence boundaries *)

Section SentenceBoundaries.

(** [p] ends in one of [.!?]; for the empty [p], [b] tells whether the
    character before it does. *)
Definition ends_sentence (b : bool) (p : str) : bool :=
  match rev p with c :: _ => is_sentence_end c | [] => b end.

Definition state_after_end (st : scan_state) : bool :=
  match st with InPiece b => b | InSeparator => false end.

Lemma ends_sentence_cons c p b :
  ends_sentence b (c :: p) = ends_sentence (is_sentence_end c) p.
Proof.
  unfold ends_sentence. simpl. by destruct (rev p).
Qed.

Lemma pieces_end_sentences text : forall st,
  match pieces st text with
  | p :: (_ :: _) as rest =>
      ends_sentence (state_after_end st) p = true
      /\ Forall (fun q => ends_sentence false q = true) (removelast rest)
  | _ => True
  end.
Proof.
  induction text as [|c tl IH]; intros st; [done|].
  assert (Hcons : forall b,
    match cons_head c (pieces (InPiece (is_sentence_end c)) tl) with
    | p :: (_ :: _) as rest =>
        ends_sentence b p = true
        /\ Forall (fun q => ends_sentence false q = true) (removelast rest)
    | _ => True
    end).
  { intros b. specialize (IH (InPiece (is_sentence_end c))).
    destruct (pieces (InPiece (is_sentence_end c)) tl) as [|p [|q rest]];
      [done..|].
    cbn [cons_head]. by rewrite ends_sentence_cons. }
  simpl pieces. destruct st as [|after_end].
  - destruct (c =? SPACE)%N; [apply (IH InSeparator) | apply Hcons].
  - destruct (after_end && (c =? SPACE)%N) eqn:Hsep; [|apply Hcons].
    apply andb_true_iff in Hsep as [-> _].
    specialize (IH InSeparator).
    pose proof (pieces_not_nil InSeparator tl) as Hne.
    destruct (pieces InSeparator tl) as [|p [|q rest]]; [done| |].
    + split; [done | constructor].
    + split; [done|]. destruct IH as [Hp Hrest].
      change (removelast (p :: q :: rest)) with (p :: removelast (q :: rest)).
      by constructor.
Qed.

Lemma sentences_end text :
  Forall (fun q => ends_sentence false q = true)
         (removelast (re_split_sentences text)).
Proof.
  unfold re_split_sentences.
  pose proof (pieces_end_sentences text (InPiece false)) as H.
  destruct (pieces (InPiece false) text) as [|p [|q rest]];
    [constructor | constructor |].
  destruct H as [Hp Hrest].
  change (removelast (p :: q :: rest)) with (p :: removelast (q :: rest)).
  by constructor.
Qed.

Lemma last_of_groups {A} (P : A -> Prop) (d : A) (groups : list (list A)) :
  Forall (fun g => g <> []) groups ->
  Forall P (removelast (concat groups)) ->
  Forall (fun g => P (List.last g d)) (removelast groups).
Proof.
  induction groups as [|g groups IH]; intros Hne Hall; [constructor|].
  apply Forall_cons in Hne as [Hg Hgs].
  destruct groups as [|g' groups]; [constructor|].
  change (removelast (g :: g' :: groups))
    with (g :: removelast (g' :: groups)).
  assert (Hcat : concat (g' :: groups) <> []).
  { apply Forall_cons in Hgs as [Hg' _]. simpl. by destruct g'. }
  change (concat (g :: g' :: groups)) with (g ++ concat (g' :: groups)) in Hall.
  rewrite removelast_app in Hall by done.
  apply Forall_app in Hall as [Hhere Hrest].
  constructor; [|by apply IH].
  assert (Hsplit : Forall P (removelast g ++ [List.last g d]))
    by (by rewrite <- app_removelast_last).
  apply Forall_app in Hsplit as [_ Hl]. by apply Forall_cons in Hl as [Hl _].
Qed.

Lemma join_ends_with_last sep (g : list str) :
  g <> [] -> exists y, join sep g = y ++ List.last g [].
Proof.
  induction g as [|s g IH]; [done|]. intros _.
  destruct g as [|s' g]; [by exists []|].
  destruct IH as [y Hy]; [done|].
  exists (s ++ sep ++ y). rewrite join_cons_more, Hy.
  change (List.last (s :: s' :: g) []) with (List.last (s' :: g) []).
  by rewrite <- !app_assoc.
Qed.

Lemma lstrip_snoc_nonspace y e :
  isspace e = false -> exists z, lstrip (y ++ [e]) = z ++ [e].
Proof.
  intros He. induction y as [|c y [z Hz]]; simpl.
  - exists []. by rewrite He.
  - destruct (isspace c); [by exists z|]. by exists (c :: y).
Qed.

Lemma strip_snoc_nonspace y e :
  isspace e = false -> exists z, strip (y ++ [e]) = z ++ [e].
Proof.
  intros He. unfold strip, rstrip.
  destruct (lstrip_snoc_nonspace y e He) as [z ->].
  exists z. rewrite rev_app_distr. simpl. rewrite He. simpl.
  by rewrite rev_involutive.
Qed.

Lemma sentence_end_not_space e : is_sentence_end e = true -> isspace e = false.
Proof.
  unfold is_sentence_end. rewrite !orb_true_iff, !N.eqb_eq.
  by intros [[->| ->]| ->].
Qed.

Lemma ends_sentence_snoc q :
  ends_sentence false q = true ->
  exists x e, q = x ++ [e] /\ is_sentence_end e = true.
Proof.
  unfold ends_sentence. destruct (rev q) as [|e r] eqn:Hr; [done|].
  intros He. exists (rev r), e. split; [|done].
  by rewrite <- (rev_involutive q), Hr.
Qed.

End SentenceBoundaries.

(** X22. [split_text_into_chunks] cuts at sentence ends only: every
    chunk but the last ends in one of [.], [!], [?]. *)
Theorem chunks_end_at_sentence_ends (max_chunk_size : Z) (text : str) :
  Forall (fun c => exists x e, c = x ++ [e] /\ is_sentence_end e = true)
         (removelast (split_text_into_chunks max_chunk_size text)).
Proof.
  destruct (split_text_into_chunks_groups max_chunk_size text)
    as (groups & Hcat & Hne & ->).
  pose proof (sentences_end text) as Hends. rewrite <- Hcat in Hends.
  pose proof (last_of_groups _ [] groups Hne Hends) as Hlast.
  clear Hcat Hends.
  induction groups as [|g groups IH]; [constructor|].
  apply Forall_cons in Hne as [Hg Hgs].
  destruct groups as [|g' groups]; [constructor|].
  change (removelast (g :: g' :: groups))
    with (g :: removelast (g' :: groups)) in Hlast.
  apply Forall_cons in Hlast as [Hhere Hrest].
  change (removelast (List.map render (g :: g' :: groups)))
    with (render g :: removelast (List.map render (g' :: groups))).
  constructor; [|by apply IH].
  destruct (ends_sentence_snoc _ Hhere) as (x & e & Hx & He).
  destruct (join_ends_with_last [SPACE] g Hg) as [y Hy].
  unfold render. rewrite Hy. unfold str in *. rewrite Hx, app_assoc.
  destruct (strip_snoc_nonspace (y ++ x) e (sentence_end_not_space e He))
    as [z Hz].
  by exists z, e.
Qed.

(** ** What the text stage can raise *)

Section TextStageErrors.

Context {E A : Type}.

Variable tasks : list (coroutine (E:=E) (A:=A)).
Variable envs : nat -> E.
Variable Q : exn -> Prop.

Hypothesis children_raise : forall i task w e,
  tasks !! i = Some task -> fst (task (envs i) w) = Raise e -> Q e.

(** [gather] raises nothing of its own: an exception it ends with is
    the exception of one of its children. *)
Lemma gather_raises order w e :
  fst (gather tasks envs order w) = Raise e -> Q e.
Proof using children_raise.
  assert (Hfold : forall order st w,
    (forall e, outer st = Some (Raise e) -> Q e) ->
    forall e,
      outer (fst (fold_left (complete tasks envs) order (st, w)))
      = Some (Raise e) -> Q e).
  { clear order w e. induction order as [|i order IH]; intros st w Hst; [done|].
    cbn [fold_left].
    destruct (complete tasks envs (st, w) i) as [st' w'] eqn:Hc.
    apply IH. unfold complete in Hc.
    destruct (tasks !! i) as [task|] eqn:Hi; [|by injection Hc as <- <-].
    destruct (children st !! i) as [[o|]|]; [by injection Hc as <- <-|
                                             |by injection Hc as <- <-].
    pose proof (fun e => children_raise i task w e Hi) as Hraise.
    destruct (task (envs i) w) as [[a|e'|] w2]; injection Hc as <- <-;
      [| |done]; unfold done_callback.
    - destruct (outer st) as [o|] eqn:Ho; cbn [outer];
        [intros e [= ->]; by apply Hst|].
      by destruct (Nat.eqb _ _).
    - destruct (outer st) as [o|] eqn:Ho; cbn [outer];
        [intros e [= ->]; by apply Hst|].
      intros e [= <-]. by apply Hraise. }
  unfold gather.
  specialize (Hfold order (gather_init tasks) w).
  destruct (fold_left _ _ _) as [st w']. cbn [fst] in Hfold.
  destruct (outer st) as [o|] eqn:Ho; [|done].
  cbn [fst]. intros ->. apply Hfold; [|done].
  unfold gather_init. cbn [outer]. by destruct tasks.
Qed.

End TextStageErrors.

(** X23. Once the client is set, the text stage raises no exception
    of class [Exception], whatever the remote service and the Markdown
    parser do and in whatever order the units finish; and it changes
    no file. *)
Theorem simplify_absorbs_exceptions
    (DEFAULT_PROMPT : str) (markdown_markdown : option str -> outcome str)
    (ai : AIProcessor) (env : environment) (text : str) (c : AsyncOpenAI)
    (w : world) :
  client ai = Some c ->
  match fst (simplify DEFAULT_PROMPT markdown_markdown ai env text w) with
  | Raise e => is_Exception e = false
  | _ => True
  end
  /\ fs (snd (simplify DEFAULT_PROMPT markdown_markdown ai env text w)) = fs w.
Proof.
  intros Hc. split; [|apply simplify_appends].
  destruct (fst (simplify DEFAULT_PROMPT markdown_markdown ai env text w))
    as [r|e|] eqn:Hrun; [done| |done].
  revert Hrun. unfold simplify. unfold bind at 1, logger at 1.
  set (w1 := World _ _). unfold bind.
  destruct (gather _ _ _ w1) as [[l|e'|] w2] eqn:Hg; cbn [fst]; [done| |done].
  intros [= ->].
  apply (gather_raises
           (List.map (process_chunk_with_ai DEFAULT_PROMPT markdown_markdown ai)
              (split_text_into_chunks (max_chunk_size ai) text))
           (remote env) (fun e => is_Exception e = false))
    with (order := completion_order env) (w := w1); [|by rewrite Hg].
  intros i task w0 e0 Hi Hraise.
  apply lookup_tasks in Hi as (chunk & _ & ->).
  pose proof (process_chunk_raises_no_Exception DEFAULT_PROMPT
                markdown_markdown ai chunk (remote env i) c w0 Hc) as Hno.
  by rewrite Hraise in Hno.
Qed.

Lemma simplify_absorbs_exceptions_witness :
  match fst (simplify Sample.prompt Sample.markdown_fails Sample.ai_ready
               Sample.env_first_fails Sample.two_sentences
               MoreSamples.world_with_notes) with
  | Raise e => is_Exception e = false
  | _ => True
  end
  /\ fs (snd (simplify Sample.prompt Sample.markdown_fails Sample.ai_ready
                Sample.env_first_fails Sample.two_sentences
                MoreSamples.world_with_notes))
     = fs MoreSamples.world_with_notes.
Proof.
  apply (simplify_absorbs_exceptions Sample.prompt Sample.markdown_fails
           Sample.ai_ready Sample.env_first_fails Sample.two_sentences
           AsyncOpenAI_client MoreSamples.world_with_notes).
  reflexivity.
Defined.
